(** * V8 page pool (deps/v8/src/heap/page-pool.cc): a shallow embedding

    The file models the three sub-pools of [PagePool] and the facade that
    drives them:
    - [PoolImpl]: the generic two-tier pool (per-isolate local vectors and a
      time-tagged shared batch list), instantiated for pages and for zone
      reservations;
    - [LargePagePoolImpl]: the byte-budgeted best-fit pool of large pages;
    - [PagePool]: the facade with the logical clock and the deferred
      release tasks.

    Conventions.
    - [size_t] values are integers in [Z]; every [size_t] addition and
      subtraction of the source is followed by [wrap] (reduction modulo
      2^64).
    - A pointer to an [Isolate] is only ever used as a key: it is an
      address in [N], with [nullptr] = 0.
    - A pointer to metadata that the code dereferences unconditionally is
      the record it points to; a pointer that the code checks for null,
      stores or returns is an [option] of that record, [None] being
      [nullptr].
    - [DCHECK]s abort in debug builds only, [CHECK]s in every build; an
      operation that contains one returns an [outcome].
    - Objects destroyed when a local container goes out of scope (the
      "entries will be freed automatically here" of the source) are
      returned to the caller of the model, so that releases are observable.
    - The mutexes are not modelled: every operation runs its critical
      section atomically. *)

From stdpp Require Import numbers option list fin_maps gmap.

Local Open Scope Z_scope.

(** ** Machine integers *)

Definition size_t_modulus : Z := 2 ^ 64.

(** Result of a [size_t] operation whose mathematical value is [z]. *)
Definition wrap (z : Z) : Z := z mod size_t_modulus.

(** [std::vector::size()]. *)
Definition vec_size {A} (v : list A) : Z := Z.of_nat (length v).

(** ** Vectors *)

(** [v.empty()], [v.back()], [v.pop_back()] and assignment through the
    reference returned by [v.back()]. [back] is [None] on the empty vector,
    where the source would have undefined behaviour; every use below is
    guarded by [empty]. *)
Definition empty {A} (v : list A) : bool :=
  match v with [] => true | _ => false end.
Definition back {A} (v : list A) : option A := last v.
Definition pop_back {A} (v : list A) : list A := removelast v.
Definition set_back {A} (v : list A) (x : A) : list A := removelast v ++ [x].

(** [std::erase_if(v, pred)] for a predicate with captured state [S]: the
    predicate runs once on every element, front to back; elements for
    which it answers [true] are erased, the others keep their order. *)
Fixpoint erase_if {A S : Type} (pred : S → A → S * bool) (st : S) (v : list A)
  : S * list A :=
  match v with
  | [] => (st, [])
  | x :: v' =>
      let '(st1, erase) := pred st x in
      let '(st2, kept) := erase_if pred st1 v' in
      (st2, if erase then kept else x :: kept)
  end.

(** ** Fatal assertions *)

Inductive outcome (A : Type) : Type :=
  | Ok (a : A)
  | Fatal.
Arguments Ok {A} a.
Arguments Fatal {A}.

#[global] Instance outcome_ret : MRet outcome := λ A a, Ok a.
#[global] Instance outcome_bind : MBind outcome := λ A B f m,
  match m with Ok a => f a | Fatal => Fatal end.

(** ** Build and runtime configuration

    [dcheck_is_on] says whether the binary was built with DCHECKs.
    [Flags] holds the fields of [v8_flags] that the file reads.
    [kPageSize] ([PageMetadata::kPageSize]) and [MB] are constants of
    headers that are not part of this file's source; like the flags, they
    are parameters of the model. *)

Record Flags : Type := {
  memory_pool_share_memory_on_teardown : bool;
  max_large_page_pool_size : Z;
  large_page_pool_timeout : Z;
  single_threaded : bool;
  trace_gc_nvp : bool
}.

Class Config : Type := {
  dcheck_is_on : bool;
  v8_flags : Flags;
  kPageSize : Z;
  MB : Z
}.

(** Modelled from the spec: the macro [CHECK] of src/base/logging.h is
    not part of this file's source. A failed [CHECK] is a fatal assertion
    in every build. *)
Definition CHECK (cond : bool) : outcome unit :=
  if cond then Ok () else Fatal.

(** Modelled from the spec: the macros [DCHECK], [DCHECK_EQ], [DCHECK_NE]
    and [DCHECK_NOT_NULL] of src/base/logging.h are not part of this
    file's source. They are the debug-only checks of the specification:
    fatal when they fail in a build with DCHECKs, compiled out of the
    other builds, where their condition is not evaluated. *)
Definition DCHECK `{Config} (cond : bool) : outcome unit :=
  if dcheck_is_on then CHECK cond else Ok ().

(** ** Identities and time *)

Abbreviation Isolate := N (only parsing).
Definition nullptr : Isolate := 0%N.

(** [InternalTime] is the type of the logical clock, an unsigned integer
    counter; its declaration is in the header, and it is taken to be as
    wide as [size_t]. *)
Abbreviation InternalTime := Z (only parsing).

Definition DCHECK_NOT_NULL `{Config} (isolate : Isolate) : outcome unit :=
  DCHECK (negb (isolate =? nullptr)%N).

(** ** The generic two-tier pool, [PagePool::PoolImpl<PoolEntry>] *)

Module PoolImpl.
Section PoolImpl.
Context `{Config} {PoolEntry : Type}.

Record t : Type := mk {
  local_pools_ : gmap N (list PoolEntry);
  shared_pool_ : list (InternalTime * list PoolEntry)
}.

Definition set_local (local : gmap N (list PoolEntry)) (p : t) : t :=
  {| local_pools_ := local; shared_pool_ := shared_pool_ p |}.
Definition set_shared (shared : list (InternalTime * list PoolEntry)) (p : t) : t :=
  {| local_pools_ := local_pools_ p; shared_pool_ := shared |}.

(** [shared_pool_.clear()] destroys the batches; they are returned. *)
Definition TearDown (p : t)
  : outcome (list (InternalTime * list PoolEntry) * t) :=
  DCHECK (bool_decide (local_pools_ p = ∅));;
  Ok (shared_pool_ p, set_shared [] p).

(** [local_pools_[isolate]] default-constructs an empty vector for a
    new key. *)
Definition PutLocal (p : t) (isolate : Isolate) (entry : PoolEntry) : t :=
  let entries := default [] (local_pools_ p !! isolate) in
  set_local (<[isolate := entries ++ [entry]]> (local_pools_ p)) p.

Definition Get (p : t) (isolate : Isolate) : outcome (option PoolEntry * t) :=
  DCHECK_NOT_NULL isolate;;
  match local_pools_ p !! isolate with
  | None =>
      match back (shared_pool_ p) with
      | Some (time, shared_entries) =>
          match back shared_entries with
          | Some shared_entry =>
              let shared_entries := pop_back shared_entries in
              let shared :=
                if empty shared_entries
                then pop_back (shared_pool_ p)
                else set_back (shared_pool_ p) (time, shared_entries) in
              Ok (Some shared_entry, set_shared shared p)
          | None => Ok (None, p)
          end
      | None => Ok (None, p)
      end
  | Some entries =>
      DCHECK (negb (empty entries));;
      match back entries with
      | Some local_entry =>
          let entries := pop_back entries in
          let local :=
            if empty entries
            then delete isolate (local_pools_ p)
            else <[isolate := entries]> (local_pools_ p) in
          Ok (Some local_entry, set_local local p)
      | None => Ok (None, p)
      end
  end.

Definition MoveLocalToShared (p : t) (isolate : Isolate)
    (release_time : InternalTime) : outcome (bool * t) :=
  match local_pools_ p !! isolate with
  | Some entries =>
      DCHECK (negb (empty entries));;
      let p' := {| local_pools_ := delete isolate (local_pools_ p);
                   shared_pool_ := shared_pool_ p ++ [(release_time, entries)] |} in
      Ok (negb (empty (shared_pool_ p')), p')
  | None => Ok (negb (empty (shared_pool_ p)), p)
  end.

(** Returns [entries_to_free]. *)
Definition ReleaseShared (p : t) : list (InternalTime * list PoolEntry) * t :=
  (shared_pool_ p, set_shared [] p).

(** [ReleaseLocal()]: all local vectors, in the map's iteration order. *)
Definition ReleaseLocalAll (p : t) : list (list PoolEntry) * t :=
  (map_fold (λ _ entries entries_to_free, entries_to_free ++ [entries])
            [] (local_pools_ p),
   set_local ∅ p).

(** [ReleaseLocal] with an isolate argument. *)
Definition ReleaseLocal (p : t) (isolate : Isolate)
  : outcome (list PoolEntry * t) :=
  match local_pools_ p !! isolate with
  | Some entries =>
      DCHECK (negb (empty entries));;
      Ok (entries, set_local (delete isolate (local_pools_ p)) p)
  | None => Ok ([], p)
  end.

Definition count_shared (count : Z) (shared : list (InternalTime * list PoolEntry)) : Z :=
  foldl (λ count entry, wrap (count + vec_size entry.2)) count shared.

Definition Size (p : t) : Z :=
  let count := 0 in
  let count :=
    map_fold (λ _ entries count, wrap (count + vec_size entries))
             count (local_pools_ p) in
  count_shared count (shared_pool_ p).

Definition LocalSize (p : t) (isolate : Isolate) : Z :=
  match local_pools_ p !! isolate with
  | Some entries => vec_size entries
  | None => 0
  end.

Definition SharedSize (p : t) : Z :=
  count_shared 0 (shared_pool_ p).

(** The lambda of [ReleaseUpTo]; its captured state is
    [(entries_to_free, freed)]. *)
Definition ReleaseUpTo_pred (release_time : InternalTime)
    (st : list (list PoolEntry) * Z) (entry : InternalTime * list PoolEntry)
  : (list (list PoolEntry) * Z) * bool :=
  let '(entries_to_free, freed) := st in
  if entry.1 <=? release_time
  then ((entries_to_free ++ [entry.2], wrap (freed + vec_size entry.2)), true)
  else (st, false).

(** Returns [freed], [entries_to_free] and the new pool. *)
Definition ReleaseUpTo (p : t) (release_time : InternalTime)
  : Z * list (list PoolEntry) * t :=
  let '((entries_to_free, freed), shared) :=
    erase_if (ReleaseUpTo_pred release_time) ([], 0) (shared_pool_ p) in
  (freed, entries_to_free, set_shared shared p).

(** The structural invariant of section 3 of the specification: no key
    of the local map holds an empty vector and no shared batch is
    empty. *)
Definition no_empty_container (p : t) : Prop :=
  map_Forall (λ _ entries, entries ≠ []) (local_pools_ p) ∧
  Forall (λ batch : InternalTime * list PoolEntry, batch.2 ≠ []) (shared_pool_ p).

End PoolImpl.
Arguments t : clear implicits.
End PoolImpl.

(** ** Pooled objects *)

(** What the pool reads of a [LargePageMetadata]: where it is and
    [size()]. *)
Module LargePageMetadata.
Record t : Type := mk { address : N; size : Z }.
End LargePageMetadata.

Inductive Executability : Type := NOT_EXECUTABLE | EXECUTABLE.

(** What [PagePool::Add] reads of a [MutablePageMetadata] and of its
    [Chunk()]. *)
Module MutablePageMetadata.
Record t : Type := mk {
  address : N;
  size : Z;
  IsLargePage : bool;
  IsTrusted : bool;
  executable : Executability;
  ContainsAnySlots : bool
}.
End MutablePageMetadata.

Module VirtualMemory.
Record t : Type := mk { address : N; size : Z }.
End VirtualMemory.

(** ** The large-page pool, [PagePool::LargePagePoolImpl] *)

Module LargePagePoolImpl.
Section LargePagePoolImpl.
Context `{Config}.

(** A [LargePageMemory] owns its page; an entry of [pages_] is the pair
    of its admission time and the page. *)
Record t : Type := mk {
  pages_ : list (InternalTime * LargePageMetadata.t);
  total_size_ : Z
}.

Definition ComputeTotalSize (pool : t) : Z :=
  foldl (λ result entry, wrap (result + LargePageMetadata.size entry.2))
        0 (pages_ pool).

(** The budget that [Add] computes from the flag, in [size_t]. *)
Definition max_total_size : Z :=
  wrap (max_large_page_pool_size v8_flags * MB).

(** The lambda of [Add]; its captured state is the pool ([this]) and
    [added_to_pool]. *)
Definition Add_pred (time : InternalTime) (max_total_size : Z)
    (st : t * bool) (page : LargePageMetadata.t) : (t * bool) * bool :=
  let '(pool, added_to_pool) := st in
  if wrap (total_size_ pool + LargePageMetadata.size page) >? max_total_size
  then (st, false)
  else
    let pool :=
      {| total_size_ := wrap (total_size_ pool + LargePageMetadata.size page);
         pages_ := pages_ pool ++ [(time, page)] |} in
    ((pool, true), true).

(** Returns [added_to_pool], what is left of the caller's [pages] and
    the new pool. *)
Definition Add (pool : t) (pages : list LargePageMetadata.t) (time : InternalTime)
  : outcome (bool * list LargePageMetadata.t * t) :=
  let added_to_pool := false in
  DCHECK (total_size_ pool =? ComputeTotalSize pool);;
  let max_total_size := max_total_size in
  let '((pool, added_to_pool), pages) :=
    erase_if (Add_pred time max_total_size) (pool, added_to_pool) pages in
  DCHECK (total_size_ pool =? ComputeTotalSize pool);;
  Ok (added_to_pool, pages, pool).

(** The loop of [Remove]. An iterator is the position it designates
    together with the entry found there; [None] is [pages_.end()].
    [rest] is what lies from [it] to the end. *)
Fixpoint Remove_scan (chunk_size : Z)
    (rest : list (InternalTime * LargePageMetadata.t)) (it : nat)
    (selected : option (nat * (InternalTime * LargePageMetadata.t)))
  : option (nat * (InternalTime * LargePageMetadata.t)) :=
  match rest with
  | [] => selected
  | entry :: rest =>
      let page_size := LargePageMetadata.size entry.2 in
      let selected :=
        if page_size <? chunk_size then selected
        else
          match selected with
          | None => Some (it, entry)
          | Some (_, sel) =>
              if page_size <? LargePageMetadata.size sel.2
              then Some (it, entry)
              else selected
          end in
      Remove_scan chunk_size rest (S it) selected
  end.

(** [nullptr] is [None]. *)
Definition Remove (pool : t) (chunk_size : Z)
  : outcome (option LargePageMetadata.t * t) :=
  let selected := None in
  DCHECK (total_size_ pool =? ComputeTotalSize pool);;
  match Remove_scan chunk_size (pages_ pool) 0%nat selected with
  | None => Ok (None, pool)
  | Some (position, entry) =>
      let result := entry.2 in
      let pool :=
        {| total_size_ := wrap (total_size_ pool - LargePageMetadata.size result);
           pages_ := delete position (pages_ pool) |} in
      DCHECK (total_size_ pool =? ComputeTotalSize pool);;
      Ok (Some result, pool)
  end.

(** Returns [pages_to_free]. The moved-from [pages_] is the empty
    vector. *)
Definition ReleaseAll (pool : t)
  : list (InternalTime * LargePageMetadata.t) * t :=
  (pages_ pool, {| pages_ := []; total_size_ := 0 |}).

(** The lambda of [ReleaseUpTo]; its captured state is [total_size_]
    ([this]) and [entries_to_free]. *)
Definition ReleaseUpTo_pred (release_time : InternalTime)
    (st : Z * list LargePageMetadata.t)
    (entry : InternalTime * LargePageMetadata.t)
  : (Z * list LargePageMetadata.t) * bool :=
  let '(total_size, entries_to_free) := st in
  if entry.1 <=? release_time
  then ((wrap (total_size - LargePageMetadata.size entry.2),
         entries_to_free ++ [entry.2]), true)
  else (st, false).

(** Returns [freed], [entries_to_free] and the new pool. *)
Definition ReleaseUpTo (pool : t) (release_time : InternalTime)
  : outcome (Z * list LargePageMetadata.t * t) :=
  let freed := 0 in
  let '((total_size, entries_to_free), pages) :=
    erase_if (ReleaseUpTo_pred release_time) (total_size_ pool, [])
             (pages_ pool) in
  let pool := {| pages_ := pages; total_size_ := total_size |} in
  DCHECK (total_size_ pool =? ComputeTotalSize pool);;
  Ok (freed, entries_to_free, pool).

Definition TearDown (pool : t) : outcome t :=
  CHECK (empty (pages_ pool));;
  Ok pool.

End LargePagePoolImpl.
End LargePagePoolImpl.

(** ** The facade, [PagePool] *)

Module PagePool.

Inductive Task : Type :=
  | ReleasePooledChunksTask (isolate : Isolate) (release_time : InternalTime)
  | ReleasePooledLargeChunksTask (isolate : Isolate) (time : InternalTime).

(** What an operation does to the rest of the system, in order:
    destruction of pooled objects (through the deleter of [PageMemory]
    and [LargePageMemory], or the destructor of [VirtualMemory]), tasks
    handed to a scheduler with their delay in seconds, and the trace
    line of [ReleaseUpTo]. *)
Inductive Effect : Type :=
  | DeletePage (page : MutablePageMetadata.t)
  | DeleteLargePage (page : LargePageMetadata.t)
  | FreeReservation (reservation : VirtualMemory.t)
  | PostDelayedTask (task_runner : Isolate) (task : Task) (delay : Z)
  | PostDelayedTaskOnWorkerThread (task : Task) (delay : Z)
  | PrintWithTimestamp (isolate : Isolate) (pages_removed zones_removed : Z).

Definition kReleaseTaskDelayInSeconds : Z := 8.

(** Modelled from the spec: [IsolateGroup::FindAnotherIsolateLocked] is
    not part of this file's source. The specification describes it as
    locating another live owner to host the deferred task, and as failing
    when no live peer exists. [group] lists the live isolates of the
    group; the first one that differs from [isolate] is handed to
    [callback], and the result says whether there was one. *)
Definition FindAnotherIsolateLocked `{Config} {S : Type} (group : list Isolate)
    (isolate : Isolate) (callback : Isolate → outcome S) (otherwise : S)
  : outcome (bool * S) :=
  match List.find (λ other, negb (other =? isolate)%N) group with
  | Some target_isolate => st ← callback target_isolate; Ok (true, st)
  | None => Ok (false, otherwise)
  end.

(** A [PageMemory] is a [std::unique_ptr] to page metadata with
    [MemoryAllocator::DeleteMemoryChunk] as deleter: it holds a page or
    [nullptr], and its destruction deletes the page it holds, if any. *)
Abbreviation PageMemory := (option MutablePageMetadata.t) (only parsing).

Section PagePool.
Context `{Config}.

Record t : Type := mk {
  page_pool_ : PoolImpl.t PageMemory;
  zone_pool_ : PoolImpl.t VirtualMemory.t;
  large_pool_ : LargePagePoolImpl.t;
  next_time_ : InternalTime
}.

(** [next_time_.fetch_add(1)]: the value before the increment, and the
    pool with the incremented counter. *)
Definition fetch_add_next_time (pool : t) : InternalTime * t :=
  (next_time_ pool,
   {| page_pool_ := page_pool_ pool; zone_pool_ := zone_pool_ pool;
      large_pool_ := large_pool_ pool;
      next_time_ := wrap (next_time_ pool + 1) |}).

Definition set_page_pool (page_pool : PoolImpl.t PageMemory) (pool : t) : t :=
  {| page_pool_ := page_pool; zone_pool_ := zone_pool_ pool;
     large_pool_ := large_pool_ pool; next_time_ := next_time_ pool |}.
Definition set_zone_pool (zone_pool : PoolImpl.t VirtualMemory.t) (pool : t) : t :=
  {| page_pool_ := page_pool_ pool; zone_pool_ := zone_pool;
     large_pool_ := large_pool_ pool; next_time_ := next_time_ pool |}.
Definition set_large_pool (large_pool : LargePagePoolImpl.t) (pool : t) : t :=
  {| page_pool_ := page_pool_ pool; zone_pool_ := zone_pool_ pool;
     large_pool_ := large_pool; next_time_ := next_time_ pool |}.

(** Destruction of the containers that the sub-pools hand back. *)
Definition free_pages (entries : list PageMemory) : list Effect :=
  DeletePage <$> omap id entries.
Definition free_reservations (entries : list VirtualMemory.t) : list Effect :=
  FreeReservation <$> entries.
Definition free_large (entries : list (InternalTime * LargePageMetadata.t))
  : list Effect :=
  (λ entry, DeleteLargePage entry.2) <$> entries.
Definition free_large_pages (entries : list LargePageMetadata.t) : list Effect :=
  DeleteLargePage <$> entries.
Definition free_batches {A} (free : list A → list Effect)
    (batches : list (InternalTime * list A)) : list Effect :=
  batches ≫= (λ batch, free batch.2).

Definition ReleaseImmediately (pool : t) (isolate : Isolate)
  : outcome (list Effect * t) :=
  '(pages, page_pool) ← PoolImpl.ReleaseLocal (page_pool_ pool) isolate;
  let pool := set_page_pool page_pool pool in
  '(zones, zone_pool) ← PoolImpl.ReleaseLocal (zone_pool_ pool) isolate;
  let pool := set_zone_pool zone_pool pool in
  let '(large, large_pool) := LargePagePoolImpl.ReleaseAll (large_pool_ pool) in
  let pool := set_large_pool large_pool pool in
  Ok (free_pages pages ++ free_reservations zones ++ free_large large, pool).

Definition ReleaseOnTearDown (pool : t) (group : list Isolate) (isolate : Isolate)
  : outcome (list Effect * t) :=
  if negb (memory_pool_share_memory_on_teardown v8_flags)
  then ReleaseImmediately pool isolate
  else
    let '(time, pool) := fetch_add_next_time pool in
    '(shared_page_pool_populate, page_pool) ←
      PoolImpl.MoveLocalToShared (page_pool_ pool) isolate time;
    let pool := set_page_pool page_pool pool in
    '(shared_zone_pool_populated, zone_pool) ←
      PoolImpl.MoveLocalToShared (zone_pool_ pool) isolate time;
    let pool := set_zone_pool zone_pool pool in
    '(effects, pool) ←
      (if shared_page_pool_populate || shared_zone_pool_populated
       then
         let schedule_task (target_isolate : Isolate) :=
           DCHECK (negb (isolate =? target_isolate)%N);;
           Ok [PostDelayedTask target_isolate
                 (ReleasePooledChunksTask target_isolate time)
                 kReleaseTaskDelayInSeconds] in
         '(found, posted) ←
           FindAnotherIsolateLocked group isolate schedule_task [];
         if negb found
         then
           let '(pages, page_pool) := PoolImpl.ReleaseShared (page_pool_ pool) in
           let pool := set_page_pool page_pool pool in
           let '(zones, zone_pool) := PoolImpl.ReleaseShared (zone_pool_ pool) in
           let pool := set_zone_pool zone_pool pool in
           Ok (posted ++ free_batches free_pages pages
                      ++ free_batches free_reservations zones, pool)
         else Ok (posted, pool)
       else Ok ([], pool));
    let '(large, large_pool) := LargePagePoolImpl.ReleaseAll (large_pool_ pool) in
    let pool := set_large_pool large_pool pool in
    Ok (effects ++ free_large large, pool).

Definition ReleaseLargeImmediately (pool : t) : list Effect * t :=
  let '(large, large_pool) := LargePagePoolImpl.ReleaseAll (large_pool_ pool) in
  (free_large large, set_large_pool large_pool pool).

Definition TearDown (pool : t) : outcome (list Effect * t) :=
  '(pages, page_pool) ← PoolImpl.TearDown (page_pool_ pool);
  let pool := set_page_pool page_pool pool in
  '(zones, zone_pool) ← PoolImpl.TearDown (zone_pool_ pool);
  let pool := set_zone_pool zone_pool pool in
  large_pool ← LargePagePoolImpl.TearDown (large_pool_ pool);
  let pool := set_large_pool large_pool pool in
  Ok (free_batches free_pages pages ++ free_batches free_reservations zones,
      pool).

Definition ReleaseUpTo (pool : t) (isolate_for_printing : Isolate)
    (release_time : InternalTime) : list Effect * t :=
  let '(pages_removed, pages, page_pool) :=
    PoolImpl.ReleaseUpTo (page_pool_ pool) release_time in
  let pool := set_page_pool page_pool pool in
  let '(zone_reservations_removed, zones, zone_pool) :=
    PoolImpl.ReleaseUpTo (zone_pool_ pool) release_time in
  let pool := set_zone_pool zone_pool pool in
  let trace :=
    if trace_gc_nvp v8_flags
    then [PrintWithTimestamp isolate_for_printing pages_removed
            zone_reservations_removed]
    else [] in
  ((pages ≫= free_pages) ++ (zones ≫= free_reservations) ++ trace, pool).

Definition GetCount (pool : t) (isolate : Isolate) : Z :=
  PoolImpl.LocalSize (page_pool_ pool) isolate.
Definition GetSharedCount (pool : t) : Z := PoolImpl.SharedSize (page_pool_ pool).
Definition GetTotalCount (pool : t) : Z := PoolImpl.Size (page_pool_ pool).

(** A condition that reads through [chunk]. It is only ever evaluated
    on a chunk that is not null: the build with DCHECKs has aborted on
    [DCHECK_NOT_NULL(chunk)] by then, and the other build evaluates no
    condition. *)
Definition through (chunk : option MutablePageMetadata.t)
    (cond : MutablePageMetadata.t → bool) : bool :=
  match chunk with
  | Some metadata => cond metadata
  | None => false
  end.

(** [chunk] may be [nullptr]: [DCHECK_NOT_NULL(chunk)] is the second
    check, and where it does not abort, the [PageMemory] built from
    [chunk] is pooled as it is. *)
Definition Add (pool : t) (isolate : Isolate)
    (chunk : option MutablePageMetadata.t) : outcome t :=
  DCHECK_NOT_NULL isolate;;
  DCHECK (bool_decide (is_Some chunk));;
  DCHECK (through chunk (λ chunk, MutablePageMetadata.size chunk =? kPageSize));;
  DCHECK (through chunk (λ chunk, negb (MutablePageMetadata.IsLargePage chunk)));;
  DCHECK (through chunk (λ chunk, negb (MutablePageMetadata.IsTrusted chunk)));;
  DCHECK (through chunk (λ chunk,
            match MutablePageMetadata.executable chunk with
            | EXECUTABLE => false
            | NOT_EXECUTABLE => true
            end));;
  DCHECK (through chunk (λ chunk, negb (MutablePageMetadata.ContainsAnySlots chunk)));;
  Ok (set_page_pool (PoolImpl.PutLocal (page_pool_ pool) isolate chunk) pool).

(** [result.value().release()] is the pointer that the pooled
    [PageMemory] held. *)
Definition Remove (pool : t) (isolate : Isolate)
  : outcome (option MutablePageMetadata.t * t) :=
  DCHECK_NOT_NULL isolate;;
  '(result, page_pool) ← PoolImpl.Get (page_pool_ pool) isolate;
  match result with
  | Some page_memory => Ok (page_memory, set_page_pool page_pool pool)
  | None => Ok (None, set_page_pool page_pool pool)
  end.

Definition AddLarge (pool : t) (isolate : Isolate)
    (pages : list LargePageMetadata.t)
  : outcome (list Effect * list LargePageMetadata.t * t) :=
  let '(time, pool) := fetch_add_next_time pool in
  '(added_to_pool, pages, large_pool) ←
    LargePagePoolImpl.Add (large_pool_ pool) pages time;
  let pool := set_large_pool large_pool pool in
  let timeout := large_page_pool_timeout v8_flags in
  let effects :=
    if added_to_pool && (timeout >? 0)
    then
      let task := ReleasePooledLargeChunksTask isolate time in
      if single_threaded v8_flags
      then [PostDelayedTask isolate task timeout]
      else [PostDelayedTaskOnWorkerThread task timeout]
    else [] in
  Ok (effects, pages, pool).

Definition RemoveLarge (pool : t) (isolate : Isolate) (chunk_size : Z)
  : outcome (option LargePageMetadata.t * t) :=
  '(result, large_pool) ← LargePagePoolImpl.Remove (large_pool_ pool) chunk_size;
  Ok (result, set_large_pool large_pool pool).

Definition AddZoneReservation (pool : t) (isolate : Isolate)
    (zone_reservation : VirtualMemory.t) : outcome t :=
  DCHECK_NOT_NULL isolate;;
  Ok (set_zone_pool (PoolImpl.PutLocal (zone_pool_ pool) isolate zone_reservation)
                    pool).

Definition RemoveZoneReservation (pool : t) (isolate : Isolate)
  : outcome (option VirtualMemory.t * t) :=
  DCHECK_NOT_NULL isolate;;
  '(result, zone_pool) ← PoolImpl.Get (zone_pool_ pool) isolate;
  Ok (result, set_zone_pool zone_pool pool).

(** The task bodies, [RunInternal]. *)
Definition RunInternal (pool : t) (task : Task) : outcome (list Effect * t) :=
  match task with
  | ReleasePooledChunksTask isolate release_time =>
      Ok (ReleaseUpTo pool isolate release_time)
  | ReleasePooledLargeChunksTask _ time =>
      '(freed, entries, large_pool) ←
        LargePagePoolImpl.ReleaseUpTo (large_pool_ pool) time;
      Ok (free_large_pages entries, set_large_pool large_pool pool)
  end.

End PagePool.
End PagePool.

(** ** Specification-side measures *)

(** Number of entries held by a list of batches, as a mathematical
    integer. *)
Definition entries_count {A} (batches : list (InternalTime * list A)) : Z :=
  Z.of_nat (sum_list_with (λ batch, length batch.2) batches).

(** Sum of the sizes of a list of large-page entries, as a mathematical
    integer. *)
Definition sizes_sum (pages : list (InternalTime * LargePageMetadata.t)) : Z :=
  foldr (λ entry sum, LargePageMetadata.size entry.2 + sum) 0 pages.

(** The batches (or large-page entries) tagged up to [release_time], and
    those tagged later. *)
Definition released_batches {A} (release_time : InternalTime)
    (tagged : list (InternalTime * A)) : list (InternalTime * A) :=
  filter (λ entry, entry.1 ≤ release_time) tagged.
Definition retained_batches {A} (release_time : InternalTime)
    (tagged : list (InternalTime * A)) : list (InternalTime * A) :=
  filter (λ entry, release_time < entry.1) tagged.

(** The invariant that the DCHECKs of the large-page pool state: the
    tracked aggregate is what [ComputeTotalSize] recomputes. *)
Definition aggregate_ok (pool : LargePagePoolImpl.t) : Prop :=
  LargePagePoolImpl.total_size_ pool = LargePagePoolImpl.ComputeTotalSize pool.

Definition within_budget `{Config} (pool : LargePagePoolImpl.t) : Prop :=
  LargePagePoolImpl.total_size_ pool ≤ LargePagePoolImpl.max_total_size.

(** [selected] is a best fit for [chunk_size] among [pages]: nothing, when
    no page is large enough; otherwise a position of [pages] whose page is
    large enough, no larger than any other page that is large enough, and
    strictly smaller than every such page before it. *)
Definition best_fit (chunk_size : Z)
    (pages : list (InternalTime * LargePageMetadata.t))
    (selected : option (nat * (InternalTime * LargePageMetadata.t))) : Prop :=
  match selected with
  | None => ∀ entry, entry ∈ pages → LargePageMetadata.size entry.2 < chunk_size
  | Some (position, entry) =>
      pages !! position = Some entry ∧
      chunk_size ≤ LargePageMetadata.size entry.2 ∧
      ∀ (other : nat) entry', pages !! other = Some entry' →
        chunk_size ≤ LargePageMetadata.size entry'.2 →
        LargePageMetadata.size entry.2 ≤ LargePageMetadata.size entry'.2 ∧
        ((other < position)%nat →
         LargePageMetadata.size entry.2 < LargePageMetadata.size entry'.2)
  end.

(** Call sequences of one owner: the admissions of [entries] in order, and
    [n] lookups in a row with their results. *)
Definition PutLocals {PoolEntry} (p : PoolImpl.t PoolEntry) (isolate : Isolate)
    (entries : list PoolEntry) : PoolImpl.t PoolEntry :=
  foldl (λ p entry, PoolImpl.PutLocal p isolate entry) p entries.

Fixpoint Gets `{Config} {PoolEntry} (p : PoolImpl.t PoolEntry) (isolate : Isolate)
    (n : nat) : outcome (list (option PoolEntry) * PoolImpl.t PoolEntry) :=
  match n with
  | O => Ok ([], p)
  | S n =>
      '(result, p) ← PoolImpl.Get p isolate;
      '(results, p) ← Gets p isolate n;
      Ok (result :: results, p)
  end.

(** The sum of [LocalSize] over a list of owners, as a mathematical
    integer. *)
Definition sum_LocalSize {PoolEntry} (p : PoolImpl.t PoolEntry)
    (owners : list Isolate) : Z :=
  foldr (λ isolate sum, PoolImpl.LocalSize p isolate + sum) 0 owners.

(** The batch that [MoveLocalToShared] appends for [isolate]: its local
    vector tagged [time], when it has one. *)
Definition migrated_batch {PoolEntry} (p : PoolImpl.t PoolEntry)
    (isolate : Isolate) (time : InternalTime)
  : list (InternalTime * list PoolEntry) :=
  match PoolImpl.local_pools_ p !! isolate with
  | Some entries => [(time, entries)]
  | None => []
  end.

(** The pages that [PagePool::Add] accepts without tripping a DCHECK. *)
Definition poolable `{Config} (chunk : MutablePageMetadata.t) : Prop :=
  MutablePageMetadata.size chunk = kPageSize ∧
  MutablePageMetadata.IsLargePage chunk = false ∧
  MutablePageMetadata.IsTrusted chunk = false ∧
  MutablePageMetadata.executable chunk = NOT_EXECUTABLE ∧
  MutablePageMetadata.ContainsAnySlots chunk = false.

(** A page pool that holds nothing, with its clock at [time]. *)
Definition empty_pool (time : InternalTime) : PagePool.t :=
  {| PagePool.page_pool_ := PoolImpl.mk ∅ [];
     PagePool.zone_pool_ := PoolImpl.mk ∅ [];
     PagePool.large_pool_ := LargePagePoolImpl.mk [] 0;
     PagePool.next_time_ := time |}.

(** What the first loop of [Size] computes from the local map. *)
Definition local_count {PoolEntry} (local : gmap N (list PoolEntry)) : Z :=
  map_fold (λ _ (entries : list PoolEntry) count,
              wrap (count + vec_size entries)) 0 local.

(** Sum of the sizes of a vector of candidate pages, as a mathematical
    integer. *)
Definition candidates_sum (pages : list LargePageMetadata.t) : Z :=
  foldr (λ page sum, LargePageMetadata.size page + sum) 0 pages.

(** The large-page pool read in the integers: sizes are non-negative,
    the aggregate is their plain sum and it is within the budget. *)
Definition large_pool_exact `{Config} (pool : LargePagePoolImpl.t) : Prop :=
  Forall (λ entry, 0 ≤ LargePageMetadata.size entry.2)
         (LargePagePoolImpl.pages_ pool) ∧
  LargePagePoolImpl.total_size_ pool = sizes_sum (LargePagePoolImpl.pages_ pool) ∧
  LargePagePoolImpl.total_size_ pool ≤ LargePagePoolImpl.max_total_size.

(** A candidate whose size is a size of real memory: non-negative and,
    added to the budget, still within [size_t]. *)
Definition fits_size_t `{Config} (page : LargePageMetadata.t) : Prop :=
  0 ≤ LargePageMetadata.size page ∧
  LargePageMetadata.size page + LargePagePoolImpl.max_total_size < size_t_modulus.

(** Every tag held by the pool was stamped by the clock before its
    current value. *)
Definition tags_below_clock (pool : PagePool.t) : Prop :=
  Forall (λ batch, batch.1 < PagePool.next_time_ pool)
         (PoolImpl.shared_pool_ (PagePool.page_pool_ pool)) ∧
  Forall (λ batch, batch.1 < PagePool.next_time_ pool)
         (PoolImpl.shared_pool_ (PagePool.zone_pool_ pool)) ∧
  Forall (λ entry, entry.1 < PagePool.next_time_ pool)
         (LargePagePoolImpl.pages_ (PagePool.large_pool_ pool)).

(** ** Configurations used in examples *)

Definition example_flags : Flags :=
  {| memory_pool_share_memory_on_teardown := true;
     max_large_page_pool_size := 32;
     large_page_pool_timeout := 3;
     single_threaded := false;
     trace_gc_nvp := false |}.

Definition debug_build : Config :=
  {| dcheck_is_on := true; v8_flags := example_flags;
     kPageSize := 262144; MB := 1048576 |}.

Definition release_build : Config :=
  {| dcheck_is_on := false; v8_flags := example_flags;
     kPageSize := 262144; MB := 1048576 |}.

Definition no_sharing_build : Config :=
  {| dcheck_is_on := true;
     v8_flags :=
       {| memory_pool_share_memory_on_teardown := false;
          max_large_page_pool_size := 32;
          large_page_pool_timeout := 3;
          single_threaded := true;
          trace_gc_nvp := true |};
     kPageSize := 262144; MB := 1048576 |}.

(** A generic pool of numbered entries: isolate 1 holds two entries, and
    one batch tagged 4 is shared. *)
Definition example_PoolImpl : PoolImpl.t nat :=
  PoolImpl.mk {[ 1%N := [10%nat; 11%nat] ]} [(4, [7%nat])].

(** A page that [PagePool::Add] accepts in the example builds. *)
Definition example_page (address : N) : MutablePageMetadata.t :=
  MutablePageMetadata.mk address 262144 false false NOT_EXECUTABLE false.

(** A page pool in which isolate 1 holds two pages, one large page tagged
    2 is retained, and the clock is at 5. *)
Definition example_PagePool : PagePool.t :=
  {| PagePool.page_pool_ :=
       PoolImpl.mk
         {[ 1%N := [Some (example_page 4096); Some (example_page 8192)] ]} [];
     PagePool.zone_pool_ := PoolImpl.mk ∅ [];
     PagePool.large_pool_ :=
       LargePagePoolImpl.mk [(2, LargePageMetadata.mk 1048576 100)] 100;
     PagePool.next_time_ := 5 |}.

(** * Facts *)

(** ** Arithmetic modulo 2^64 *)

Lemma wrap_idemp z : wrap (wrap z) = wrap z.
Proof. unfold wrap. apply Z.mod_mod. discriminate. Qed.

Lemma wrap_add_l a b : wrap (wrap a + b) = wrap (a + b).
Proof. unfold wrap. apply Zplus_mod_idemp_l. Qed.

Lemma wrap_add_r a b : wrap (a + wrap b) = wrap (a + b).
Proof. unfold wrap. apply Zplus_mod_idemp_r. Qed.

Lemma wrap_sub_l a b : wrap (wrap a - b) = wrap (a - b).
Proof. unfold wrap. apply Zminus_mod_idemp_l. Qed.

Lemma wrap_small z : 0 ≤ z < size_t_modulus → wrap z = z.
Proof. unfold wrap. apply Z.mod_small. Qed.

Lemma wrap_range z : 0 ≤ wrap z < size_t_modulus.
Proof. unfold wrap. apply Z.mod_pos_bound. reflexivity. Qed.

(** ** Assertions that hold *)

Lemma DCHECK_true `{Config} : DCHECK true = Ok ().
Proof. unfold DCHECK. by destruct dcheck_is_on. Qed.

Lemma DCHECK_NOT_NULL_ok `{Config} (isolate : Isolate) :
  isolate ≠ nullptr → DCHECK_NOT_NULL isolate = Ok ().
Proof.
  intros Hnull. unfold DCHECK_NOT_NULL.
  destruct (N.eqb_spec isolate nullptr) as [|_]; [done|]. apply DCHECK_true.
Qed.

Lemma empty_false {A} (v : list A) : v ≠ [] → empty v = false.
Proof. by destruct v. Qed.

Lemma empty_true {A} (v : list A) : empty v = true ↔ v = [].
Proof. by destruct v. Qed.

(** ** Vectors *)

Lemma back_snoc {A} (v : list A) x : back (v ++ [x]) = Some x.
Proof. apply last_snoc. Qed.

Lemma pop_back_snoc {A} (v : list A) x : pop_back (v ++ [x]) = v.
Proof. apply removelast_last. Qed.

Lemma set_back_snoc {A} (v : list A) x y : set_back (v ++ [x]) y = v ++ [y].
Proof. unfold set_back. by rewrite removelast_last. Qed.

Lemma snoc_cases {A} (v : list A) : v = [] ∨ ∃ v' x, v = v' ++ [x].
Proof.
  destruct (last v) as [x|] eqn:Hlast.
  - right. apply last_Some in Hlast as [v' ->]. eauto.
  - left. by apply last_None.
Qed.

(** ** The generic pool: counting and timed release *)

Section PoolImpl_release.
Context `{Config} {PoolEntry : Type}.
Implicit Types (p : PoolImpl.t PoolEntry) (isolate : Isolate).
Implicit Types (shared : list (InternalTime * list PoolEntry)).

Lemma entries_count_nil : entries_count (A:=PoolEntry) [] = 0.
Proof. done. Qed.

Lemma entries_count_cons (batch : InternalTime * list PoolEntry) shared :
  entries_count (batch :: shared) = vec_size batch.2 + entries_count shared.
Proof. unfold entries_count, vec_size. simpl. lia. Qed.

Lemma entries_count_app shared1 shared2 :
  entries_count (shared1 ++ shared2)
  = entries_count shared1 + entries_count shared2.
Proof. unfold entries_count. rewrite sum_list_with_app. lia. Qed.

Lemma entries_count_nonneg shared : 0 ≤ entries_count shared.
Proof. unfold entries_count. lia. Qed.

Lemma count_shared_wrap count shared :
  wrap (PoolImpl.count_shared count shared)
  = wrap (count + entries_count shared).
Proof.
  revert count. induction shared as [|batch shared IH]; intros count.
  - simpl. by rewrite entries_count_nil, Z.add_0_r.
  - simpl. rewrite IH, wrap_add_l, entries_count_cons. f_equal. lia.
Qed.

Lemma count_shared_spec count shared :
  wrap count = count →
  PoolImpl.count_shared count shared = wrap (count + entries_count shared).
Proof.
  intros Hcount. rewrite <-count_shared_wrap.
  destruct shared as [|batch shared _] using rev_ind; [done|].
  unfold PoolImpl.count_shared. by rewrite foldl_snoc, wrap_idemp.
Qed.

Lemma SharedSize_spec p :
  PoolImpl.SharedSize p = wrap (entries_count (PoolImpl.shared_pool_ p)).
Proof. unfold PoolImpl.SharedSize. by rewrite count_shared_spec. Qed.

Lemma erase_if_ReleaseUpTo release_time shared entries_to_free freed :
  erase_if (PoolImpl.ReleaseUpTo_pred release_time)
           (entries_to_free, freed) shared
  = ((entries_to_free ++ (snd <$> released_batches release_time shared),
      PoolImpl.count_shared freed (released_batches release_time shared)),
     retained_batches release_time shared).
Proof.
  unfold released_batches, retained_batches.
  revert entries_to_free freed.
  induction shared as [|[time entries] shared IH]; intros entries_to_free freed.
  - simpl. by rewrite app_nil_r.
  - cbn [erase_if PoolImpl.ReleaseUpTo_pred fst snd].
    destruct (Z.leb_spec time release_time) as [Hle|Hgt].
    + rewrite IH.
      rewrite filter_cons_True by done.
      rewrite filter_cons_False by (simpl; lia).
      simpl. by rewrite <-app_assoc.
    + rewrite IH.
      rewrite filter_cons_False by (simpl; lia).
      by rewrite filter_cons_True by done.
Qed.

Lemma ReleaseUpTo_eq p release_time :
  PoolImpl.ReleaseUpTo p release_time
  = (wrap (entries_count (released_batches release_time (PoolImpl.shared_pool_ p))),
     snd <$> released_batches release_time (PoolImpl.shared_pool_ p),
     PoolImpl.set_shared
       (retained_batches release_time (PoolImpl.shared_pool_ p)) p).
Proof.
  unfold PoolImpl.ReleaseUpTo. rewrite erase_if_ReleaseUpTo.
  by rewrite count_shared_spec.
Qed.

(** C7. [PoolImpl::ReleaseUpTo(T)] erases exactly the shared batches
    tagged <= T: the shared list becomes the batches tagged > T, in
    their order; the batches handed to destruction are those tagged <= T,
    in their order; the local map is unchanged. The returned count is
    the number of entries of the erased batches (computed in [size_t],
    hence exactly that number whenever it is below 2^64). *)
Theorem ReleaseUpTo_removes_batches_up_to p release_time :
  ∃ freed entries_to_free p',
    PoolImpl.ReleaseUpTo p release_time = (freed, entries_to_free, p') ∧
    PoolImpl.shared_pool_ p'
      = filter (λ batch, release_time < batch.1) (PoolImpl.shared_pool_ p) ∧
    entries_to_free
      = snd <$> filter (λ batch, batch.1 ≤ release_time) (PoolImpl.shared_pool_ p) ∧
    (∀ batch, batch ∈ PoolImpl.shared_pool_ p →
       (batch ∈ PoolImpl.shared_pool_ p' ↔ release_time < batch.1) ∧
       (batch.1 ≤ release_time → batch.2 ∈ entries_to_free)) ∧
    PoolImpl.local_pools_ p' = PoolImpl.local_pools_ p ∧
    freed = wrap (Z.of_nat (length (concat entries_to_free))) ∧
    (Z.of_nat (length (concat entries_to_free)) < size_t_modulus →
     freed = Z.of_nat (length (concat entries_to_free))).
Proof.
  eexists _, _, _. split; [apply ReleaseUpTo_eq|].
  unfold released_batches, retained_batches. cbn [PoolImpl.set_shared
    PoolImpl.shared_pool_ PoolImpl.local_pools_].
  assert (Hcount : ∀ shared,
    entries_count shared = Z.of_nat (length (concat (snd <$> shared)))).
  { induction shared as [|batch shared IH]; [done|].
    rewrite entries_count_cons, IH, fmap_cons. unfold vec_size.
    cbn [concat]. rewrite length_app. lia. }
  split_and!; try done.
  - intros batch Hin. split.
    + rewrite list_elem_of_filter. tauto.
    + intros Hle. apply list_elem_of_fmap. exists batch. split; [done|].
      apply list_elem_of_filter. done.
  - by rewrite Hcount.
  - intros Hsmall. rewrite Hcount. apply wrap_small. lia.
Qed.

End PoolImpl_release.

Lemma ReleaseUpTo_removes_batches_up_to_witness :
  ∃ entries_to_free p',
    PoolImpl.ReleaseUpTo
      (PoolImpl.mk ∅ [(1, [10%nat; 11%nat]); (5, [12%nat]); (2, [13%nat])]) 2
    = (3, entries_to_free, p').
Proof.
  destruct (ReleaseUpTo_removes_batches_up_to
              (PoolImpl.mk ∅ [(1, [10%nat; 11%nat]); (5, [12%nat]); (2, [13%nat])]) 2)
    as (freed & entries_to_free & p' & Heq & _ & Hfree & _ & _ & _ & Hexact).
  exists entries_to_free, p'. rewrite Heq, Hexact; rewrite Hfree.
  - reflexivity.
  - vm_compute. reflexivity.
Defined.

(** ** The large-page pool *)

Section LargePagePoolImpl_facts.
Context `{Config}.
Implicit Types (pool : LargePagePoolImpl.t).
Implicit Types (pages : list (InternalTime * LargePageMetadata.t)).

Lemma sizes_sum_app pages1 pages2 :
  sizes_sum (pages1 ++ pages2) = sizes_sum pages1 + sizes_sum pages2.
Proof.
  induction pages1 as [|entry pages1 IH]; simpl; [done|]. rewrite IH. lia.
Qed.

Lemma sizes_sum_delete pages position entry :
  pages !! position = Some entry →
  sizes_sum pages
  = sizes_sum (delete position pages) + LargePageMetadata.size entry.2.
Proof.
  intros Hlookup. rewrite <-(take_drop_middle _ _ _ Hlookup) at 1.
  rewrite delete_take_drop, !sizes_sum_app. simpl. lia.
Qed.

Lemma sizes_sum_split release_time pages :
  sizes_sum pages
  = sizes_sum (released_batches release_time pages)
    + sizes_sum (retained_batches release_time pages).
Proof.
  unfold released_batches, retained_batches, sizes_sum.
  induction pages as [|entry pages IH]; [done|].
  destruct (decide (entry.1 ≤ release_time)).
  - rewrite filter_cons_True, filter_cons_False by (cbv beta; lia).
    cbn [foldr]. lia.
  - rewrite filter_cons_False, filter_cons_True by (cbv beta; lia).
    cbn [foldr]. lia.
Qed.

Lemma ComputeTotalSize_fold pages result :
  wrap (foldl (λ result entry, wrap (result + LargePageMetadata.size entry.2))
              result pages)
  = wrap (result + sizes_sum pages).
Proof.
  revert result. induction pages as [|entry pages IH]; intros result; simpl.
  - by rewrite Z.add_0_r.
  - rewrite IH, wrap_add_l. f_equal. lia.
Qed.

Lemma ComputeTotalSize_spec pool :
  LargePagePoolImpl.ComputeTotalSize pool
  = wrap (sizes_sum (LargePagePoolImpl.pages_ pool)).
Proof.
  unfold LargePagePoolImpl.ComputeTotalSize.
  rewrite <-(Z.add_0_l (sizes_sum _)), <-ComputeTotalSize_fold.
  destruct (LargePagePoolImpl.pages_ pool) as [|entry pages _] using rev_ind;
    [done|].
  by rewrite foldl_snoc, wrap_idemp.
Qed.

Lemma aggregate_ok_DCHECK pool :
  aggregate_ok pool →
  DCHECK (LargePagePoolImpl.total_size_ pool
          =? LargePagePoolImpl.ComputeTotalSize pool) = Ok ().
Proof.
  unfold aggregate_ok. intros ->. rewrite Z.eqb_refl. apply DCHECK_true.
Qed.

Lemma aggregate_ok_wrapped pool :
  aggregate_ok pool →
  wrap (LargePagePoolImpl.total_size_ pool) = LargePagePoolImpl.total_size_ pool.
Proof.
  unfold aggregate_ok. intros ->. by rewrite ComputeTotalSize_spec, wrap_idemp.
Qed.

(** When the sizes are non-negative and their sum fits [size_t], what
    [ComputeTotalSize] returns is the sum itself. *)
Lemma ComputeTotalSize_exact pool :
  Forall (λ entry, 0 ≤ LargePageMetadata.size entry.2)
         (LargePagePoolImpl.pages_ pool) →
  sizes_sum (LargePagePoolImpl.pages_ pool) < size_t_modulus →
  LargePagePoolImpl.ComputeTotalSize pool
  = sizes_sum (LargePagePoolImpl.pages_ pool).
Proof.
  intros Hsizes Hsum. rewrite ComputeTotalSize_spec. apply wrap_small.
  split; [|done]. clear Hsum.
  induction Hsizes as [|entry pages Hentry _ IH]; simpl; lia.
Qed.

(** *** Best-fit selection *)

Lemma best_fit_snoc chunk_size pages entry selected :
  best_fit chunk_size pages selected →
  best_fit chunk_size (pages ++ [entry])
    (if LargePageMetadata.size entry.2 <? chunk_size then selected
     else
       match selected with
       | None => Some (length pages, entry)
       | Some (_, sel) =>
           if LargePageMetadata.size entry.2 <? LargePageMetadata.size sel.2
           then Some (length pages, entry)
           else selected
       end).
Proof.
  intros Hbest.
  destruct (Z.ltb_spec (LargePageMetadata.size entry.2) chunk_size)
    as [Hsmall|Hfits].
  - (* too small: the selection stands *)
    destruct selected as [[position sel]|]; simpl in *.
    + destruct Hbest as (Hsel & Hsize & Hmin).
      split_and!; [by apply lookup_app_l_Some|done|].
      intros other entry' [[_ Hother]|[_ <-]]%lookup_snoc_Some Hfits';
        [by apply (Hmin other)|lia].
    + intros entry' [Hin| ->%list_elem_of_singleton]%elem_of_app; auto.
  - destruct selected as [[position sel]|]; simpl in *.
    + destruct Hbest as (Hsel & Hsize & Hmin).
      pose proof (lookup_lt_Some _ _ _ Hsel) as Hposition.
      destruct (Z.ltb_spec (LargePageMetadata.size entry.2)
                           (LargePageMetadata.size sel.2)) as [Hbetter|Hworse].
      * (* strictly smaller than the selection: it replaces it *)
        split_and!; [by apply list_lookup_middle|done|].
        intros other entry' [[Hlt Hother]|[-> <-]]%lookup_snoc_Some Hfits'.
        -- destruct (Hmin other entry' Hother Hfits') as [Hle _]. lia.
        -- lia.
      * (* not smaller: the earlier selection stands *)
        split_and!; [by apply lookup_app_l_Some|done|].
        intros other entry' [[_ Hother]|[-> <-]]%lookup_snoc_Some Hfits';
          [by apply (Hmin other)|lia].
    + (* first page that fits *)
      split_and!; [by apply list_lookup_middle|done|].
      intros other entry' [[_ Hother]|[-> <-]]%lookup_snoc_Some Hfits'.
      * apply list_elem_of_lookup_2, Hbest in Hother. lia.
      * lia.
Qed.

Lemma Remove_scan_best_fit chunk_size rest :
  ∀ pages selected,
    best_fit chunk_size pages selected →
    best_fit chunk_size (pages ++ rest)
      (LargePagePoolImpl.Remove_scan chunk_size rest (length pages) selected).
Proof.
  induction rest as [|entry rest IH]; intros pages selected Hbest.
  - by rewrite app_nil_r.
  - cbn [LargePagePoolImpl.Remove_scan].
    apply (best_fit_snoc _ _ entry) in Hbest. apply IH in Hbest.
    by rewrite length_app, Nat.add_1_r, <-app_assoc in Hbest.
Qed.

Lemma Remove_best_fit pool chunk_size :
  best_fit chunk_size (LargePagePoolImpl.pages_ pool)
    (LargePagePoolImpl.Remove_scan chunk_size (LargePagePoolImpl.pages_ pool)
       0%nat None).
Proof.
  apply (Remove_scan_best_fit chunk_size _ [] None). intros entry Hin.
  by apply elem_of_nil in Hin.
Qed.

Lemma aggregate_ok_delete pool position entry :
  aggregate_ok pool →
  LargePagePoolImpl.pages_ pool !! position = Some entry →
  aggregate_ok
    {| LargePagePoolImpl.total_size_ :=
         wrap (LargePagePoolImpl.total_size_ pool
               - LargePageMetadata.size entry.2);
       LargePagePoolImpl.pages_ := delete position (LargePagePoolImpl.pages_ pool) |}.
Proof.
  unfold aggregate_ok. intros Hok Hlookup.
  rewrite ComputeTotalSize_spec in *. simpl.
  rewrite Hok, (sizes_sum_delete _ _ _ Hlookup), wrap_sub_l. f_equal. lia.
Qed.

Lemma Remove_spec pool chunk_size :
  aggregate_ok pool →
  ∃ result pool',
    LargePagePoolImpl.Remove pool chunk_size = Ok (result, pool') ∧
    aggregate_ok pool' ∧
    match result with
    | None =>
        (∀ entry, entry ∈ LargePagePoolImpl.pages_ pool →
           LargePageMetadata.size entry.2 < chunk_size) ∧
        pool' = pool
    | Some page =>
        ∃ position time,
          best_fit chunk_size (LargePagePoolImpl.pages_ pool)
            (Some (position, (time, page))) ∧
          LargePagePoolImpl.pages_ pool'
            = delete position (LargePagePoolImpl.pages_ pool) ∧
          LargePagePoolImpl.total_size_ pool'
            = wrap (LargePagePoolImpl.total_size_ pool
                    - LargePageMetadata.size page)
    end.
Proof.
  intros Hok. unfold LargePagePoolImpl.Remove.
  rewrite (aggregate_ok_DCHECK _ Hok). cbn [mbind outcome_bind].
  pose proof (Remove_best_fit pool chunk_size) as Hbest.
  destruct (LargePagePoolImpl.Remove_scan _ _ _ _)
    as [[position [time page]]|].
  - pose proof Hbest as (Hlookup & _ & _).
    pose proof (aggregate_ok_delete _ _ _ Hok Hlookup) as Hok'.
    rewrite (aggregate_ok_DCHECK _ Hok'). cbn [mbind outcome_bind].
    eexists _, _. split_and!; [done..|]. by exists position, time.
  - eexists _, _. by split_and!.
Qed.

(** C2. In a pool whose aggregate is consistent, [Remove(chunk_size)]
    returns without a fatal assertion and:
    - when it returns a page, the page sits at some position of [pages_],
      its size is at least [chunk_size], no retained page of size at
      least [chunk_size] is smaller, and every such page at an earlier
      position is strictly larger (so the earliest of the smallest
      qualifying pages is taken); the entry at that position is erased
      and the page's size is subtracted from [total_size_] (in [size_t];
      exactly, when the size is within the aggregate);
    - it returns null exactly when no retained page has size at least
      [chunk_size], and then the pool is unchanged.
    With retained sizes 10, 20 and 30 in any order, [Remove(15)] returns
    a page of size 20 and [Remove(35)] returns null. *)
Theorem Remove_selects_best_fit pool :
  aggregate_ok pool →
  (∀ chunk_size, ∃ result pool',
    LargePagePoolImpl.Remove pool chunk_size = Ok (result, pool') ∧
    match result with
    | None =>
        (∀ entry, entry ∈ LargePagePoolImpl.pages_ pool →
           LargePageMetadata.size entry.2 < chunk_size) ∧
        pool' = pool
    | Some page =>
        ∃ (position : nat) time,
          LargePagePoolImpl.pages_ pool !! position = Some (time, page) ∧
          chunk_size ≤ LargePageMetadata.size page ∧
          (∀ (other : nat) entry,
             LargePagePoolImpl.pages_ pool !! other = Some entry →
             chunk_size ≤ LargePageMetadata.size entry.2 →
             LargePageMetadata.size page ≤ LargePageMetadata.size entry.2 ∧
             ((other < position)%nat →
              LargePageMetadata.size page < LargePageMetadata.size entry.2)) ∧
          LargePagePoolImpl.pages_ pool'
            = delete position (LargePagePoolImpl.pages_ pool) ∧
          LargePagePoolImpl.total_size_ pool'
            = wrap (LargePagePoolImpl.total_size_ pool
                    - LargePageMetadata.size page) ∧
          (0 ≤ LargePageMetadata.size page ≤ LargePagePoolImpl.total_size_ pool →
           LargePagePoolImpl.total_size_ pool'
           = LargePagePoolImpl.total_size_ pool - LargePageMetadata.size page)
    end) ∧
  ((λ entry, LargePageMetadata.size entry.2) <$> LargePagePoolImpl.pages_ pool
     ≡ₚ [10; 20; 30] →
   (∃ page pool',
      LargePagePoolImpl.Remove pool 15 = Ok (Some page, pool') ∧
      LargePageMetadata.size page = 20) ∧
   LargePagePoolImpl.Remove pool 35 = Ok (None, pool)).
Proof.
  intros Hok.
  assert (Hsizes : (λ entry, LargePageMetadata.size entry.2)
                     <$> LargePagePoolImpl.pages_ pool ≡ₚ [10; 20; 30] →
                   (∀ entry, entry ∈ LargePagePoolImpl.pages_ pool →
                      LargePageMetadata.size entry.2 ∈ [10; 20; 30]) ∧
                   ∃ (other : nat) entry,
                     LargePagePoolImpl.pages_ pool !! other = Some entry ∧
                     LargePageMetadata.size entry.2 = 20).
  { intros Hperm. split.
    - intros entry Hin. rewrite <-Hperm. apply list_elem_of_fmap. eauto.
    - assert (20 ∈ (λ entry, LargePageMetadata.size entry.2)
                     <$> LargePagePoolImpl.pages_ pool) as Hin.
      { rewrite Hperm. set_solver. }
      apply list_elem_of_fmap in Hin as (entry & Hsize & Hin).
      apply list_elem_of_lookup in Hin as [other Hother]. eauto. }
  split.
  - intros chunk_size.
    destruct (Remove_spec pool chunk_size Hok)
      as (result & pool' & Heq & Hok' & Hresult).
    exists result, pool'. split; [done|].
    destruct result as [page|]; [|done].
    destruct Hresult as (position & time & (Hlookup & Hfits & Hmin) & Hpages & Htotal).
    exists position, time. split_and!; try done.
    intros Hle. rewrite Htotal. apply wrap_small.
    pose proof (wrap_range (sizes_sum (LargePagePoolImpl.pages_ pool))) as Hrange.
    rewrite <-ComputeTotalSize_spec in Hrange. rewrite <-Hok in Hrange.
    simpl in Hle. lia.
  - intros Hperm. destruct (Hsizes Hperm) as [Hin (other & entry20 & Hother & H20)].
    split.
    + destruct (Remove_spec pool 15 Hok)
        as (result & pool' & Heq & _ & Hresult).
      destruct result as [page|].
      * destruct Hresult as (position & time & (Hlookup & Hfits & Hmin) & _).
        exists page, pool'. split; [done|].
        apply list_elem_of_lookup_2, Hin in Hlookup. simpl in *.
        destruct (Hmin other entry20 Hother) as [Hle _]; [lia|].
        set_unfold in Hlookup. lia.
      * destruct Hresult as [Hall _].
        apply list_elem_of_lookup_2, Hall in Hother. lia.
    + destruct (Remove_spec pool 35 Hok)
        as (result & pool' & Heq & _ & Hresult).
      destruct result as [page|].
      * destruct Hresult as (position & time & (Hlookup & Hfits & _) & _).
        apply list_elem_of_lookup_2, Hin in Hlookup. simpl in *.
        set_unfold in Hlookup. lia.
      * destruct Hresult as [_ ->]. done.
Qed.

(** *** Admission *)

Lemma Add_pred_spec time budget pool added page :
  LargePagePoolImpl.Add_pred time budget (pool, added) page
  = if decide (wrap (LargePagePoolImpl.total_size_ pool
                     + LargePageMetadata.size page) ≤ budget)
    then (({| LargePagePoolImpl.total_size_ :=
                wrap (LargePagePoolImpl.total_size_ pool
                      + LargePageMetadata.size page);
              LargePagePoolImpl.pages_ :=
                LargePagePoolImpl.pages_ pool ++ [(time, page)] |}, true), true)
    else ((pool, added), false).
Proof.
  unfold LargePagePoolImpl.Add_pred. rewrite Z.gtb_ltb.
  destruct (Z.ltb_spec budget
              (wrap (LargePagePoolImpl.total_size_ pool
                     + LargePageMetadata.size page)));
    case_decide; (done || lia).
Qed.

Lemma aggregate_ok_admit time pool page :
  aggregate_ok pool →
  aggregate_ok
    {| LargePagePoolImpl.total_size_ :=
         wrap (LargePagePoolImpl.total_size_ pool + LargePageMetadata.size page);
       LargePagePoolImpl.pages_ := LargePagePoolImpl.pages_ pool ++ [(time, page)] |}.
Proof.
  unfold aggregate_ok, LargePagePoolImpl.ComputeTotalSize. intros Hok. simpl.
  by rewrite foldl_snoc, <-Hok.
Qed.

(** What the [erase_if] of [Add] does: the candidates split, in order,
    into those admitted (appended to [pages_] with the tag [time]) and
    those left in the caller's vector. *)
Lemma erase_if_Add time budget candidates :
  ∀ pool added, ∃ admitted pool' rejected,
    erase_if (LargePagePoolImpl.Add_pred time budget) (pool, added) candidates
    = ((pool', added || negb (empty admitted)), rejected) ∧
    LargePagePoolImpl.pages_ pool'
    = LargePagePoolImpl.pages_ pool ++ ((λ page, (time, page)) <$> admitted) ∧
    candidates ≡ₚ admitted ++ rejected ∧
    admitted `sublist_of` candidates ∧
    rejected `sublist_of` candidates ∧
    (admitted = [] → pool' = pool) ∧
    (aggregate_ok pool → aggregate_ok pool') ∧
    (LargePagePoolImpl.total_size_ pool ≤ budget →
     LargePagePoolImpl.total_size_ pool' ≤ budget).
Proof.
  induction candidates as [|page candidates IH]; intros pool added.
  - exists [], pool, []. simpl. rewrite orb_false_r, app_nil_r. by split_and!.
  - cbn [erase_if]. rewrite Add_pred_spec. case_decide as Hfits.
    + edestruct IH as (admitted & pool' & rejected & -> & Hpages & Hperm
                       & Hadm & Hrej & _ & Hok & Hbudget).
      exists (page :: admitted), pool', rejected. split_and!.
      * simpl. by rewrite orb_true_r.
      * rewrite Hpages. simpl. by rewrite <-app_assoc.
      * simpl. by rewrite <-Hperm.
      * by apply sublist_skip.
      * by apply sublist_cons.
      * done.
      * intros Hok0. by apply Hok, aggregate_ok_admit.
      * intros _. by apply Hbudget.
    + edestruct IH as (admitted & pool' & rejected & -> & Hpages & Hperm
                       & Hadm & Hrej & Hsame & Hok & Hbudget).
      exists admitted, pool', (page :: rejected). split_and!; try done.
      * by rewrite <-Permutation_middle, <-Hperm.
      * by apply sublist_cons.
      * by apply sublist_skip.
Qed.

Lemma Add_spec pool candidates time :
  aggregate_ok pool →
  ∃ admitted rejected pool',
    LargePagePoolImpl.Add pool candidates time
    = Ok (negb (empty admitted), rejected, pool') ∧
    LargePagePoolImpl.pages_ pool'
    = LargePagePoolImpl.pages_ pool ++ ((λ page, (time, page)) <$> admitted) ∧
    candidates ≡ₚ admitted ++ rejected ∧
    admitted `sublist_of` candidates ∧
    rejected `sublist_of` candidates ∧
    (admitted = [] → pool' = pool) ∧
    aggregate_ok pool' ∧
    (within_budget pool → within_budget pool').
Proof.
  intros Hok. unfold LargePagePoolImpl.Add.
  rewrite (aggregate_ok_DCHECK _ Hok). cbn [mbind outcome_bind].
  destruct (erase_if_Add time LargePagePoolImpl.max_total_size candidates
              pool false)
    as (admitted & pool' & rejected & -> & Hpages & Hperm & Hadm & Hrej
        & Hsame & Hok' & Hbudget).
  rewrite (aggregate_ok_DCHECK _ (Hok' Hok)). cbn [mbind outcome_bind].
  exists admitted, rejected, pool'. split_and!; auto.
Qed.

(** *** Timed release *)

Lemma erase_if_large_ReleaseUpTo release_time pages total_size entries_to_free :
  erase_if (LargePagePoolImpl.ReleaseUpTo_pred release_time)
           (total_size, entries_to_free) pages
  = ((foldl (λ total entry, wrap (total - LargePageMetadata.size entry.2))
            total_size (released_batches release_time pages),
      entries_to_free ++ (snd <$> released_batches release_time pages)),
     retained_batches release_time pages).
Proof.
  unfold released_batches, retained_batches.
  revert total_size entries_to_free.
  induction pages as [|[time page] pages IH]; intros total_size entries_to_free.
  - simpl. by rewrite app_nil_r.
  - cbn [erase_if LargePagePoolImpl.ReleaseUpTo_pred fst snd].
    destruct (Z.leb_spec time release_time) as [Hle|Hgt].
    + rewrite IH.
      rewrite filter_cons_True by done.
      rewrite filter_cons_False by (cbv beta; simpl; lia).
      simpl. by rewrite <-app_assoc.
    + rewrite IH.
      rewrite filter_cons_False by (cbv beta; simpl; lia).
      by rewrite filter_cons_True by done.
Qed.

Lemma release_fold_wrap pages total_size :
  wrap (foldl (λ total entry, wrap (total - LargePageMetadata.size entry.2))
              total_size pages)
  = wrap (total_size - sizes_sum pages).
Proof.
  revert total_size. induction pages as [|entry pages IH]; intros total_size.
  - simpl. by rewrite Z.sub_0_r.
  - simpl. rewrite IH, wrap_sub_l. f_equal. lia.
Qed.

Lemma release_fold_spec pages total_size :
  wrap total_size = total_size →
  foldl (λ total entry, wrap (total - LargePageMetadata.size entry.2))
        total_size pages
  = wrap (total_size - sizes_sum pages).
Proof.
  intros Hwrapped. rewrite <-release_fold_wrap.
  destruct pages as [|entry pages _] using rev_ind; [done|].
  by rewrite foldl_snoc, wrap_idemp.
Qed.

Lemma large_ReleaseUpTo_spec pool release_time :
  aggregate_ok pool →
  LargePagePoolImpl.ReleaseUpTo pool release_time
  = Ok (0,
        snd <$> released_batches release_time (LargePagePoolImpl.pages_ pool),
        {| LargePagePoolImpl.pages_ :=
             retained_batches release_time (LargePagePoolImpl.pages_ pool);
           LargePagePoolImpl.total_size_ :=
             wrap (LargePagePoolImpl.total_size_ pool
                   - sizes_sum (released_batches release_time
                                  (LargePagePoolImpl.pages_ pool))) |}) ∧
  aggregate_ok
    {| LargePagePoolImpl.pages_ :=
         retained_batches release_time (LargePagePoolImpl.pages_ pool);
       LargePagePoolImpl.total_size_ :=
         wrap (LargePagePoolImpl.total_size_ pool
               - sizes_sum (released_batches release_time
                              (LargePagePoolImpl.pages_ pool))) |}.
Proof.
  intros Hok.
  assert (Hok' : aggregate_ok
    {| LargePagePoolImpl.pages_ :=
         retained_batches release_time (LargePagePoolImpl.pages_ pool);
       LargePagePoolImpl.total_size_ :=
         wrap (LargePagePoolImpl.total_size_ pool
               - sizes_sum (released_batches release_time
                              (LargePagePoolImpl.pages_ pool))) |}).
  { unfold aggregate_ok in *. rewrite ComputeTotalSize_spec in *. simpl.
    rewrite Hok, wrap_sub_l. f_equal.
    rewrite (sizes_sum_split release_time (LargePagePoolImpl.pages_ pool)).
    lia. }
  split; [|done].
  unfold LargePagePoolImpl.ReleaseUpTo.
  rewrite erase_if_large_ReleaseUpTo, app_nil_l.
  rewrite release_fold_spec by by apply aggregate_ok_wrapped.
  by rewrite (aggregate_ok_DCHECK _ Hok').
Qed.

Lemma aggregate_ok_ReleaseAll pool :
  aggregate_ok (LargePagePoolImpl.ReleaseAll pool).2.
Proof. done. Qed.

(** C5. In a large-page pool whose tracked aggregate [total_size_] is
    what [ComputeTotalSize] recomputes from the retained entries:
    - [Add], [Remove], [ReleaseAll] and [ReleaseUpTo] return without a
      fatal assertion and leave a pool with the same property;
    - [Add] keeps the aggregate within [max_total_size] when it was: a
      candidate is admitted exactly when the aggregate with its size
      added is within the budget, and then it is appended with the
      call's tag; otherwise the pool is unchanged and the candidate stays
      in the caller's vector. The caller's vector afterwards holds the
      rejected candidates in their order; admitted and rejected together
      are the candidates, none lost or duplicated;
    - the recomputed aggregate is the plain sum of the retained sizes
      whenever these are non-negative and their sum fits [size_t]. *)
Theorem large_pool_aggregate_invariant pool :
  aggregate_ok pool →
  (∀ candidates time, ∃ admitted rejected pool',
     LargePagePoolImpl.Add pool candidates time
     = Ok (negb (empty admitted), rejected, pool') ∧
     aggregate_ok pool' ∧
     (within_budget pool → within_budget pool') ∧
     LargePagePoolImpl.pages_ pool'
     = LargePagePoolImpl.pages_ pool ++ ((λ page, (time, page)) <$> admitted) ∧
     candidates ≡ₚ admitted ++ rejected ∧
     admitted `sublist_of` candidates ∧
     rejected `sublist_of` candidates) ∧
  (∀ time added page,
     (wrap (LargePagePoolImpl.total_size_ pool + LargePageMetadata.size page)
      ≤ LargePagePoolImpl.max_total_size →
      LargePagePoolImpl.Add_pred time LargePagePoolImpl.max_total_size
        (pool, added) page
      = (({| LargePagePoolImpl.total_size_ :=
               wrap (LargePagePoolImpl.total_size_ pool
                     + LargePageMetadata.size page);
             LargePagePoolImpl.pages_ :=
               LargePagePoolImpl.pages_ pool ++ [(time, page)] |}, true), true)) ∧
     (LargePagePoolImpl.max_total_size
      < wrap (LargePagePoolImpl.total_size_ pool + LargePageMetadata.size page) →
      LargePagePoolImpl.Add_pred time LargePagePoolImpl.max_total_size
        (pool, added) page
      = ((pool, added), false))) ∧
  (∀ chunk_size, ∃ result pool',
     LargePagePoolImpl.Remove pool chunk_size = Ok (result, pool') ∧
     aggregate_ok pool') ∧
  aggregate_ok (LargePagePoolImpl.ReleaseAll pool).2 ∧
  (∀ release_time, ∃ freed entries_to_free pool',
     LargePagePoolImpl.ReleaseUpTo pool release_time
     = Ok (freed, entries_to_free, pool') ∧
     aggregate_ok pool') ∧
  (Forall (λ entry, 0 ≤ LargePageMetadata.size entry.2)
          (LargePagePoolImpl.pages_ pool) →
   sizes_sum (LargePagePoolImpl.pages_ pool) < size_t_modulus →
   LargePagePoolImpl.total_size_ pool
   = sizes_sum (LargePagePoolImpl.pages_ pool)).
Proof.
  intros Hok. split_and!.
  - intros candidates time.
    destruct (Add_spec pool candidates time Hok)
      as (admitted & rejected & pool' & Heq & Hpages & Hperm & Hadm & Hrej
          & _ & Hok' & Hbudget).
    exists admitted, rejected, pool'. by split_and!.
  - intros time added page. rewrite Add_pred_spec.
    split; intros Hcmp; case_decide; (done || lia).
  - intros chunk_size.
    destruct (Remove_spec pool chunk_size Hok)
      as (result & pool' & Heq & Hok' & _).
    by exists result, pool'.
  - apply aggregate_ok_ReleaseAll.
  - intros release_time.
    destruct (large_ReleaseUpTo_spec pool release_time Hok) as [Heq Hok'].
    eexists _, _, _. split; [exact Heq|exact Hok'].
  - intros Hsizes Hsum. rewrite Hok. by apply ComputeTotalSize_exact.
Qed.

(** What [ReleaseUpTo(T)] of the large-page pool does in general: it
    erases exactly the entries tagged <= T and subtracts their sizes from
    the aggregate, but the count it returns is 0 whatever was erased,
    since [freed] is never incremented. *)
Lemma large_ReleaseUpTo_count_is_zero pool release_time :
  aggregate_ok pool →
  ∃ entries_to_free pool',
    LargePagePoolImpl.ReleaseUpTo pool release_time
    = Ok (0, entries_to_free, pool') ∧
    LargePagePoolImpl.pages_ pool'
    = filter (λ entry, release_time < entry.1) (LargePagePoolImpl.pages_ pool) ∧
    entries_to_free
    = snd <$> filter (λ entry, entry.1 ≤ release_time)
                     (LargePagePoolImpl.pages_ pool) ∧
    LargePagePoolImpl.total_size_ pool'
    = wrap (LargePagePoolImpl.total_size_ pool
            - sizes_sum (filter (λ entry, entry.1 ≤ release_time)
                                (LargePagePoolImpl.pages_ pool))).
Proof.
  intros Hok.
  destruct (large_ReleaseUpTo_spec pool release_time Hok) as [Heq _].
  eexists _, _. split; [exact Heq|]. by split_and!.
Qed.

(** C1. On a pool that retains one page, tagged 1, [ReleaseUpTo(1)]
    erases that page and hands it to destruction, yet returns the count
    0 where one entry was removed. *)
Theorem large_ReleaseUpTo_drops_the_count :
  let page := LargePageMetadata.mk 4096 100 in
  LargePagePoolImpl.ReleaseUpTo (LargePagePoolImpl.mk [(1, page)] 100) 1
  = Ok (0, [page], LargePagePoolImpl.mk [] 0).
Proof.
  intros page.
  destruct (large_ReleaseUpTo_spec (LargePagePoolImpl.mk [(1, page)] 100) 1)
    as [-> _]; [reflexivity|]. reflexivity.
Qed.

End LargePagePoolImpl_facts.

Lemma Remove_selects_best_fit_witness :
  let pool :=
    LargePagePoolImpl.mk
      [(1, LargePageMetadata.mk 4096 30); (2, LargePageMetadata.mk 8192 10);
       (2, LargePageMetadata.mk 12288 20)] 60 in
  (∃ page pool',
     LargePagePoolImpl.Remove (H:=debug_build) pool 15 = Ok (Some page, pool') ∧
     LargePageMetadata.size page = 20) ∧
  LargePagePoolImpl.Remove (H:=debug_build) pool 35 = Ok (None, pool).
Proof.
  intros pool.
  apply (Remove_selects_best_fit (H:=debug_build) pool); [reflexivity|].
  vm_compute. by rewrite (Permutation_swap 10 30), (Permutation_swap 20 30).
Defined.

Lemma large_pool_aggregate_invariant_witness :
  let pool :=
    LargePagePoolImpl.mk
      [(1, LargePageMetadata.mk 4096 30); (2, LargePageMetadata.mk 8192 10)] 40 in
  ∃ result pool',
    LargePagePoolImpl.Remove (H:=debug_build) pool 20 = Ok (result, pool') ∧
    aggregate_ok pool'.
Proof.
  intros pool.
  apply (large_pool_aggregate_invariant (H:=debug_build) pool). reflexivity.
Defined.

(** ** The generic pool: lookups *)

Section PoolImpl_Get.
Context `{Config} {PoolEntry : Type}.
Implicit Types (p : PoolImpl.t PoolEntry) (isolate : Isolate).
Implicit Types (entries : list PoolEntry) (entry : PoolEntry).

Lemma empty_snoc {A} (v : list A) x : empty (v ++ [x]) = false.
Proof. by destruct v. Qed.

Lemma Get_local p isolate entries entry :
  isolate ≠ nullptr →
  PoolImpl.local_pools_ p !! isolate = Some (entries ++ [entry]) →
  PoolImpl.Get p isolate
  = Ok (Some entry,
        PoolImpl.set_local
          (if empty entries
           then delete isolate (PoolImpl.local_pools_ p)
           else <[isolate := entries]> (PoolImpl.local_pools_ p)) p).
Proof.
  intros Hnull Hlocal. unfold PoolImpl.Get.
  rewrite DCHECK_NOT_NULL_ok by done. cbn [mbind outcome_bind].
  rewrite Hlocal, empty_snoc, DCHECK_true. cbn [mbind outcome_bind negb].
  by rewrite back_snoc, pop_back_snoc.
Qed.

Lemma Get_shared p isolate shared time entries entry :
  isolate ≠ nullptr →
  PoolImpl.local_pools_ p !! isolate = None →
  PoolImpl.shared_pool_ p = shared ++ [(time, entries ++ [entry])] →
  PoolImpl.Get p isolate
  = Ok (Some entry,
        PoolImpl.set_shared
          (if empty entries then shared else shared ++ [(time, entries)]) p).
Proof.
  intros Hnull Hlocal Hshared. unfold PoolImpl.Get.
  rewrite DCHECK_NOT_NULL_ok by done. cbn [mbind outcome_bind].
  rewrite Hlocal, Hshared, !back_snoc, !pop_back_snoc, set_back_snoc. done.
Qed.

Lemma Get_none p isolate :
  isolate ≠ nullptr →
  PoolImpl.local_pools_ p !! isolate = None →
  PoolImpl.shared_pool_ p = [] →
  PoolImpl.Get p isolate = Ok (None, p).
Proof.
  intros Hnull Hlocal Hshared. unfold PoolImpl.Get.
  rewrite DCHECK_NOT_NULL_ok by done. cbn [mbind outcome_bind].
  by rewrite Hlocal, Hshared.
Qed.

Lemma PutLocal_no_empty_container p isolate entry :
  PoolImpl.no_empty_container p →
  PoolImpl.no_empty_container (PoolImpl.PutLocal p isolate entry).
Proof.
  intros [Hlocal Hshared]. split; [|done]. simpl.
  apply map_Forall_insert_2; [|done]. by destruct (default [] _).
Qed.

Lemma PutLocals_no_empty_container p isolate entries :
  PoolImpl.no_empty_container p →
  PoolImpl.no_empty_container (PutLocals p isolate entries).
Proof.
  revert p. induction entries as [|entry entries IH]; intros p Hp; [done|].
  simpl. by apply IH, PutLocal_no_empty_container.
Qed.

(** A lookup right after an admission by the same owner returns the
    entry admitted and restores the pool. *)
Lemma Get_PutLocal p isolate entry :
  isolate ≠ nullptr →
  PoolImpl.no_empty_container p →
  PoolImpl.Get (PoolImpl.PutLocal p isolate entry) isolate = Ok (Some entry, p).
Proof.
  intros Hnull [Hlocal _]. erewrite Get_local; [|done|apply lookup_insert_eq].
  f_equal. f_equal. destruct p as [local shared]. unfold PoolImpl.set_local.
  simpl in *. f_equal.
  destruct (local !! isolate) as [entries|] eqn:Hlookup; simpl.
  - rewrite empty_false by by eapply Hlocal.
    by rewrite insert_insert_eq, insert_id.
  - by rewrite delete_insert_eq, delete_id.
Qed.

Lemma Gets_app p isolate n k :
  Gets p isolate (n + k)
  = '(results, p) ← Gets p isolate n;
    '(results', p) ← Gets p isolate k;
    Ok (results ++ results', p).
Proof.
  revert p. induction n as [|n IH]; intros p; simpl.
  - by destruct (Gets p isolate k) as [[results' p']|].
  - destruct (PoolImpl.Get p isolate) as [[result p1]|]; simpl; [|done].
    rewrite IH. destruct (Gets p1 isolate n) as [[results p2]|]; simpl; [|done].
    by destruct (Gets p2 isolate k) as [[results' p3]|].
Qed.

Lemma Gets_PutLocals p isolate entries :
  isolate ≠ nullptr →
  PoolImpl.no_empty_container p →
  Gets (PutLocals p isolate entries) isolate (length entries)
  = Ok (Some <$> reverse entries, p).
Proof.
  intros Hnull. induction entries as [|entry entries IH] using rev_ind;
    intros Hp; [done|].
  unfold PutLocals. rewrite foldl_snoc, length_app, Nat.add_comm. simpl.
  rewrite Get_PutLocal by by try apply PutLocals_no_empty_container.
  simpl. fold (PutLocals p isolate entries). rewrite IH by done. simpl.
  by rewrite reverse_snoc.
Qed.

Lemma Gets_drained p isolate k :
  isolate ≠ nullptr →
  PoolImpl.local_pools_ p !! isolate = None →
  PoolImpl.shared_pool_ p = [] →
  Gets p isolate k = Ok (replicate k None, p).
Proof.
  intros Hnull Hlocal Hshared. induction k as [|k IH]; [done|].
  simpl. rewrite Get_none by done. simpl. by rewrite IH.
Qed.

(** Draining: lookups by an owner first empty its local vector, last
    element first, then the shared list, last batch first. *)
Lemma Gets_drain_local p isolate entries :
  isolate ≠ nullptr →
  entries ≠ [] →
  PoolImpl.local_pools_ p !! isolate = Some entries →
  Gets p isolate (length entries)
  = Ok (Some <$> reverse entries,
        PoolImpl.set_local (delete isolate (PoolImpl.local_pools_ p)) p).
Proof.
  intros Hnull. revert p.
  induction entries as [|entry entries IH] using rev_ind; intros p Hne Hlocal;
    [done|].
  rewrite length_app, Nat.add_comm. cbn [length Nat.add Gets].
  rewrite (Get_local _ _ _ _ Hnull Hlocal). cbn [mbind outcome_bind].
  destruct entries as [|first entries]; [done|].
  cbn [empty]. rewrite IH; [|done|by apply lookup_insert_eq].
  cbn [mbind outcome_bind PoolImpl.set_local PoolImpl.local_pools_
       PoolImpl.shared_pool_].
  by rewrite reverse_snoc, delete_insert_eq.
Qed.

Lemma Gets_drain_batch p isolate shared time entries :
  isolate ≠ nullptr →
  entries ≠ [] →
  PoolImpl.local_pools_ p !! isolate = None →
  PoolImpl.shared_pool_ p = shared ++ [(time, entries)] →
  Gets p isolate (length entries)
  = Ok (Some <$> reverse entries, PoolImpl.set_shared shared p).
Proof.
  intros Hnull. revert p.
  induction entries as [|entry entries IH] using rev_ind;
    intros p Hne Hlocal Hshared; [done|].
  rewrite length_app, Nat.add_comm. cbn [length Nat.add Gets].
  rewrite (Get_shared _ _ _ _ _ _ Hnull Hlocal Hshared).
  cbn [mbind outcome_bind].
  destruct entries as [|first entries]; [done|].
  cbn [empty]. rewrite IH; [|done..].
  cbn [mbind outcome_bind PoolImpl.set_shared PoolImpl.local_pools_].
  by rewrite reverse_snoc.
Qed.

Lemma Gets_drain_shared p isolate :
  isolate ≠ nullptr →
  PoolImpl.local_pools_ p !! isolate = None →
  Forall (λ batch : InternalTime * list PoolEntry, batch.2 ≠ [])
         (PoolImpl.shared_pool_ p) →
  Gets p isolate (length (concat (snd <$> PoolImpl.shared_pool_ p)))
  = Ok (Some <$> reverse (concat (snd <$> PoolImpl.shared_pool_ p)),
        PoolImpl.set_shared [] p).
Proof.
  intros Hnull. destruct p as [local shared]. cbn [PoolImpl.local_pools_
    PoolImpl.shared_pool_ PoolImpl.set_shared]. intros Hlocal.
  induction shared as [|[time entries] shared IH] using rev_ind;
    intros Hshared; [done|].
  rewrite Forall_app, Forall_singleton in Hshared.
  destruct Hshared as [Hshared Hlast]. simpl in Hlast.
  rewrite fmap_app, concat_app. simpl. rewrite app_nil_r.
  rewrite length_app, Nat.add_comm, Gets_app.
  rewrite (Gets_drain_batch _ isolate shared time entries) by done.
  cbn [mbind outcome_bind].
  unfold PoolImpl.set_shared. cbn [PoolImpl.local_pools_].
  rewrite IH by done. cbn [mbind outcome_bind].
  by rewrite reverse_app, fmap_app.
Qed.

Lemma Gets_drain p isolate k :
  PoolImpl.no_empty_container p →
  isolate ≠ nullptr →
  let local := default [] (PoolImpl.local_pools_ p !! isolate) in
  let shared := concat (snd <$> PoolImpl.shared_pool_ p) in
  Gets p isolate (length local + length shared + k)
  = Ok ((Some <$> reverse local ++ reverse shared) ++ replicate k None,
        PoolImpl.mk (delete isolate (PoolImpl.local_pools_ p)) []).
Proof.
  intros [Hlocal Hshared] Hnull. destruct p as [local shared].
  cbn [PoolImpl.local_pools_ PoolImpl.shared_pool_] in *. cbv zeta.
  rewrite <-Nat.add_assoc, Gets_app.
  assert (Hfirst : Gets (PoolImpl.mk local shared) isolate
                     (length (default [] (local !! isolate)))
                   = Ok (Some <$> reverse (default [] (local !! isolate)),
                         PoolImpl.mk (delete isolate local) shared)).
  { destruct (local !! isolate) as [entries|] eqn:Hlookup.
    - rewrite (Gets_drain_local _ isolate entries); [done..| |done].
      by eapply Hlocal.
    - simpl. by rewrite delete_id. }
  rewrite Hfirst. cbn [mbind outcome_bind]. rewrite Gets_app.
  rewrite (Gets_drain_shared (PoolImpl.mk (delete isolate local) shared));
    [|done|apply lookup_delete_eq|done].
  cbn [mbind outcome_bind PoolImpl.set_local PoolImpl.set_shared
       PoolImpl.local_pools_ PoolImpl.shared_pool_].
  rewrite Gets_drained; [|done|apply lookup_delete_eq|done].
  cbn [mbind outcome_bind]. by rewrite fmap_app, <-app_assoc.
Qed.

(** C3. In a pool without empty containers, for an owner that is not
    null, [Get] returns without a fatal assertion and:
    - when the owner has a local vector, the vector is not empty, [Get]
      returns its last element and pops it (erasing the owner's key when
      the vector becomes empty), and the shared list is untouched;
    - when the owner has no local vector and the shared list is not
      empty, the last batch is not empty, [Get] returns its last element
      and pops it (removing the batch when it becomes empty), and the
      local map is untouched;
    - when the owner has no local vector and the shared list is empty,
      [Get] returns nothing and the pool is unchanged.
    Consequently, after the owner admits [entries] in order, as many
    lookups by that owner return them in reverse order and restore the
    pool. Further lookups by that owner return what it held before, last
    admitted first, then the shared entries, last batch first and last
    element first within a batch, and from then on nothing: in
    particular, if the owner had no local vector and the shared list was
    empty, every lookup after the first [length entries] returns
    nothing. *)
Theorem Get_is_lifo p isolate :
  PoolImpl.no_empty_container p →
  isolate ≠ nullptr →
  (∀ local, PoolImpl.local_pools_ p !! isolate = Some local →
     ∃ entries entry,
       local = entries ++ [entry] ∧
       PoolImpl.Get p isolate
       = Ok (Some entry,
             {| PoolImpl.local_pools_ :=
                  if empty entries
                  then delete isolate (PoolImpl.local_pools_ p)
                  else <[isolate := entries]> (PoolImpl.local_pools_ p);
                PoolImpl.shared_pool_ := PoolImpl.shared_pool_ p |})) ∧
  (PoolImpl.local_pools_ p !! isolate = None →
   ∀ time batch, last (PoolImpl.shared_pool_ p) = Some (time, batch) →
     ∃ shared entries entry,
       PoolImpl.shared_pool_ p = shared ++ [(time, entries ++ [entry])] ∧
       PoolImpl.Get p isolate
       = Ok (Some entry,
             {| PoolImpl.local_pools_ := PoolImpl.local_pools_ p;
                PoolImpl.shared_pool_ :=
                  if empty entries then shared
                  else shared ++ [(time, entries)] |})) ∧
  (PoolImpl.local_pools_ p !! isolate = None →
   PoolImpl.shared_pool_ p = [] →
   PoolImpl.Get p isolate = Ok (None, p)) ∧
  (∀ entries,
     Gets (PutLocals p isolate entries) isolate (length entries)
     = Ok (Some <$> reverse entries, p) ∧
     (∀ k,
        let local := default [] (PoolImpl.local_pools_ p !! isolate) in
        let shared := concat (snd <$> PoolImpl.shared_pool_ p) in
        Gets (PutLocals p isolate entries) isolate
             (length entries + (length local + length shared + k))
        = Ok ((Some <$> reverse entries ++ reverse local ++ reverse shared)
                ++ replicate k None,
              PoolImpl.mk (delete isolate (PoolImpl.local_pools_ p)) [])) ∧
     (PoolImpl.local_pools_ p !! isolate = None →
      PoolImpl.shared_pool_ p = [] →
      ∀ k, Gets (PutLocals p isolate entries) isolate (length entries + k)
           = Ok ((Some <$> reverse entries) ++ replicate k None, p))).
Proof.
  intros Hp Hnull. pose proof Hp as [Hlocal Hshared]. split_and!.
  - intros local Hlookup.
    destruct (snoc_cases local) as [->|(entries & entry & ->)].
    { by apply Hlocal in Hlookup. }
    exists entries, entry. split; [done|]. by apply Get_local.
  - intros Hnone time batch [shared Heq]%last_Some.
    destruct (snoc_cases batch) as [->|(entries & entry & ->)].
    { rewrite Heq, Forall_app, Forall_singleton in Hshared.
      by destruct Hshared as [_ Hlast]. }
    exists shared, entries, entry. split; [done|]. by eapply Get_shared.
  - by apply Get_none.
  - intros entries. split_and!; [by apply Gets_PutLocals| |].
    + intros k local shared.
      rewrite Gets_app, Gets_PutLocals by done. cbn [mbind outcome_bind].
      subst local shared. rewrite Gets_drain by done. cbn [mbind outcome_bind].
      by rewrite (fmap_app _ (reverse entries)), <-app_assoc.
    + intros Hnone Hempty k.
      rewrite Gets_app, Gets_PutLocals by done. simpl.
      by rewrite Gets_drained.
Qed.

End PoolImpl_Get.

Lemma Get_is_lifo_witness :
  Gets (H:=debug_build)
       (PutLocals (PoolImpl.mk ∅ [(4, [7%nat])]) 1%N [10%nat; 11%nat; 12%nat])
       1%N 3
  = Ok ([Some 12%nat; Some 11%nat; Some 10%nat], PoolImpl.mk ∅ [(4, [7%nat])]).
Proof.
  apply (Get_is_lifo (H:=debug_build) (PoolImpl.mk ∅ [(4, [7%nat])]) 1%N).
  - split; [apply map_Forall_empty|]. by repeat constructor.
  - discriminate.
Defined.

(** ** The generic pool: no empty container *)

Section PoolImpl_invariant.
Context `{Config} {PoolEntry : Type}.
Implicit Types (p : PoolImpl.t PoolEntry) (isolate : Isolate).

Lemma no_empty_container_local p isolate (entries : list PoolEntry) :
  PoolImpl.no_empty_container p →
  PoolImpl.local_pools_ p !! isolate = Some entries →
  DCHECK (negb (empty entries)) = Ok ().
Proof.
  intros [Hlocal _] Hlookup%Hlocal. rewrite empty_false by done.
  apply DCHECK_true.
Qed.

Lemma Get_no_empty_container p isolate result p' :
  PoolImpl.no_empty_container p →
  PoolImpl.Get p isolate = Ok (result, p') →
  PoolImpl.no_empty_container p'.
Proof.
  intros Hp. pose proof Hp as [Hlocal Hshared]. unfold PoolImpl.Get.
  destruct (DCHECK_NOT_NULL isolate); cbn [mbind outcome_bind]; [|done].
  destruct (PoolImpl.local_pools_ p !! isolate) as [local|] eqn:Hlookup.
  - rewrite (no_empty_container_local _ _ _ Hp Hlookup).
    cbn [mbind outcome_bind].
    destruct (snoc_cases local) as [->|(entries & entry & ->)].
    { by intros [= <- <-]. }
    rewrite back_snoc, pop_back_snoc. intros [= <- <-].
    split; [|done]. simpl.
    destruct entries as [|first entries]; simpl.
    + by apply map_Forall_delete.
    + by apply map_Forall_insert_2.
  - destruct (snoc_cases (PoolImpl.shared_pool_ p))
      as [Hnil|(shared & [time batch] & Hsnoc)].
    { rewrite Hnil. by intros [= <- <-]. }
    rewrite Hsnoc, back_snoc.
    destruct (snoc_cases batch) as [->|(entries & entry & ->)].
    { by intros [= <- <-]. }
    rewrite back_snoc, !pop_back_snoc, set_back_snoc. intros [= <- <-].
    split; [done|]. simpl.
    rewrite Hsnoc, Forall_app in Hshared. destruct Hshared as [Hbefore _].
    destruct entries as [|first entries]; simpl; [done|].
    apply Forall_app. split; [done|]. by apply Forall_singleton.
Qed.

Lemma Get_returns p isolate :
  PoolImpl.no_empty_container p →
  isolate ≠ nullptr →
  ∃ result p', PoolImpl.Get p isolate = Ok (result, p').
Proof.
  intros Hp Hnull. pose proof Hp as [Hlocal Hshared].
  destruct (PoolImpl.local_pools_ p !! isolate) as [local|] eqn:Hlookup.
  - destruct (snoc_cases local) as [->|(entries & entry & ->)].
    { by apply Hlocal in Hlookup. }
    eexists _, _. by apply Get_local.
  - destruct (snoc_cases (PoolImpl.shared_pool_ p))
      as [Hnil|(shared & [time batch] & Hsnoc)].
    { eexists _, _. by apply Get_none. }
    destruct (snoc_cases batch) as [->|(entries & entry & ->)].
    { rewrite Hsnoc, Forall_app, Forall_singleton in Hshared.
      by destruct Hshared as [_ Hlast]. }
    eexists _, _. by eapply Get_shared.
Qed.

Lemma MoveLocalToShared_spec p isolate release_time :
  PoolImpl.no_empty_container p →
  ∃ p',
    PoolImpl.MoveLocalToShared p isolate release_time
    = Ok (negb (empty (PoolImpl.shared_pool_ p')), p') ∧
    PoolImpl.local_pools_ p' = delete isolate (PoolImpl.local_pools_ p) ∧
    PoolImpl.shared_pool_ p'
    = PoolImpl.shared_pool_ p
      ++ match PoolImpl.local_pools_ p !! isolate with
         | Some entries => [(release_time, entries)]
         | None => []
         end ∧
    PoolImpl.no_empty_container p'.
Proof.
  intros Hp. pose proof Hp as [Hlocal Hshared]. unfold PoolImpl.MoveLocalToShared.
  destruct (PoolImpl.local_pools_ p !! isolate) as [local|] eqn:Hlookup.
  - rewrite (no_empty_container_local _ _ _ Hp Hlookup).
    cbn [mbind outcome_bind]. eexists. split_and!; [done..|].
    split; simpl.
    + by apply map_Forall_delete.
    + apply Forall_app. split; [done|]. apply Forall_singleton. simpl.
      by eapply Hlocal.
  - exists p. rewrite app_nil_r, delete_id by done. by split_and!.
Qed.

Lemma ReleaseUpTo_no_empty_container p release_time :
  PoolImpl.no_empty_container p →
  PoolImpl.no_empty_container (PoolImpl.ReleaseUpTo p release_time).2.
Proof.
  intros [Hlocal Hshared]. rewrite ReleaseUpTo_eq. split; [done|]. simpl.
  unfold retained_batches. apply Forall_forall.
  intros batch [_ Hin]%list_elem_of_filter.
  by eapply Forall_forall in Hshared.
Qed.

(** C4. From a pool in which no owner key maps to an empty vector and
    no shared batch is empty:
    - [MoveLocalToShared] returns without a fatal assertion, the owner's
      key is gone from the local map, and the resulting pool holds no
      empty container;
    - [Get], for an owner that is not null, returns without a fatal
      assertion; and whenever [Get] returns, for any owner, the
      resulting pool holds no empty container;
    - the pool left by [ReleaseUpTo] holds no empty container. *)
Theorem no_empty_container_preserved p :
  PoolImpl.no_empty_container p →
  (∀ isolate release_time, ∃ populated p',
     PoolImpl.MoveLocalToShared p isolate release_time = Ok (populated, p') ∧
     PoolImpl.local_pools_ p' !! isolate = None ∧
     PoolImpl.no_empty_container p') ∧
  (∀ isolate,
     (isolate ≠ nullptr →
      ∃ result p', PoolImpl.Get p isolate = Ok (result, p')) ∧
     (∀ result p',
        PoolImpl.Get p isolate = Ok (result, p') →
        PoolImpl.no_empty_container p')) ∧
  (∀ release_time,
     PoolImpl.no_empty_container (PoolImpl.ReleaseUpTo p release_time).2).
Proof.
  intros Hp. split_and!.
  - intros isolate release_time.
    destruct (MoveLocalToShared_spec p isolate release_time Hp)
      as (p' & Heq & Hlocal & _ & Hp').
    eexists _, p'. split_and!; [done| |done].
    rewrite Hlocal. apply lookup_delete_eq.
  - intros isolate. split.
    + by apply Get_returns.
    + intros result p'. by apply Get_no_empty_container.
  - intros release_time. by apply ReleaseUpTo_no_empty_container.
Qed.

End PoolImpl_invariant.

Lemma no_empty_container_preserved_witness :
  let p := PoolImpl.mk {[ 1%N := [10%nat; 11%nat] ]} [(4, [7%nat])] in
  ∃ populated p',
    PoolImpl.MoveLocalToShared (H:=debug_build) p 1%N 5 = Ok (populated, p') ∧
    PoolImpl.local_pools_ p' !! 1%N = None ∧
    PoolImpl.no_empty_container p'.
Proof.
  intros p. apply (no_empty_container_preserved (H:=debug_build) p).
  split.
  - by apply map_Forall_singleton.
  - by repeat constructor.
Defined.

(** ** The generic pool: counters *)

Section PoolImpl_Size.
Context {PoolEntry : Type}.
Implicit Types (p : PoolImpl.t PoolEntry) (isolate : Isolate).
Implicit Types (local : gmap N (list PoolEntry)) (owners : list N).
Implicit Types (shared : list (InternalTime * list PoolEntry)).

Lemma sum_LocalSize_nonneg p owners : 0 ≤ sum_LocalSize p owners.
Proof.
  induction owners as [|isolate owners IH]; simpl; [done|].
  unfold PoolImpl.LocalSize, vec_size. destruct (_ !! _); lia.
Qed.

(** An owner outside the list does not contribute to the sum. *)
Lemma sum_LocalSize_insert_notin local shared isolate entries owners :
  isolate ∉ owners →
  sum_LocalSize (PoolImpl.mk (<[isolate := entries]> local) shared) owners
  = sum_LocalSize (PoolImpl.mk local shared) owners.
Proof.
  induction owners as [|other owners IH]; [done|].
  intros [Hne Hnotin]%not_elem_of_cons. simpl.
  rewrite IH by done. unfold PoolImpl.LocalSize. simpl.
  by rewrite lookup_insert_ne.
Qed.

(** A new owner of the list contributes the size of its vector. *)
Lemma sum_LocalSize_insert local shared isolate entries owners :
  NoDup owners →
  isolate ∈ owners →
  local !! isolate = None →
  sum_LocalSize (PoolImpl.mk (<[isolate := entries]> local) shared) owners
  = vec_size entries + sum_LocalSize (PoolImpl.mk local shared) owners.
Proof.
  intros Hnodup Hin Hfresh.
  assert (Hnew : PoolImpl.LocalSize
                   (PoolImpl.mk (<[isolate := entries]> local) shared) isolate
                 = vec_size entries).
  { unfold PoolImpl.LocalSize. simpl. by rewrite lookup_insert_eq. }
  assert (Hold : PoolImpl.LocalSize (PoolImpl.mk local shared) isolate = 0).
  { unfold PoolImpl.LocalSize. simpl. by rewrite Hfresh. }
  induction owners as [|other owners IH]; [by apply elem_of_nil in Hin|].
  apply NoDup_cons in Hnodup as [Hnotin Hnodup].
  destruct (decide (other = isolate)) as [->|Hne].
  - pose proof (sum_LocalSize_insert_notin local shared isolate entries
                  owners Hnotin) as Hrest.
    unfold sum_LocalSize in *. cbn [foldr]. rewrite Hrest, Hnew, Hold. lia.
  - apply elem_of_cons in Hin as [->|Hin]; [done|].
    specialize (IH Hnodup Hin).
    assert (Hother : PoolImpl.LocalSize
                       (PoolImpl.mk (<[isolate := entries]> local) shared) other
                     = PoolImpl.LocalSize (PoolImpl.mk local shared) other).
    { unfold PoolImpl.LocalSize. simpl. by rewrite lookup_insert_ne. }
    unfold sum_LocalSize in *. cbn [foldr]. rewrite IH, Hother. lia.
Qed.

Lemma local_count_spec shared local :
  ∀ owners,
    NoDup owners →
    (∀ isolate, is_Some (local !! isolate) → isolate ∈ owners) →
    map_fold (λ _ (entries : list PoolEntry) count,
                wrap (count + vec_size entries)) 0 local
    = wrap (sum_LocalSize (PoolImpl.mk local shared) owners).
Proof.
  apply (map_fold_weak_ind
           (λ count local, ∀ owners,
              NoDup owners →
              (∀ isolate, is_Some (local !! isolate) → isolate ∈ owners) →
              count = wrap (sum_LocalSize (PoolImpl.mk local shared) owners))).
  - intros owners _ _.
    assert (sum_LocalSize (PoolImpl.mk ∅ shared) owners = 0) as ->; [|done].
    induction owners as [|isolate owners IH]; [done|].
    unfold sum_LocalSize in *. cbn [foldr]. rewrite IH.
    unfold PoolImpl.LocalSize. simpl. by rewrite lookup_empty.
  - intros isolate entries local' count Hfresh IH owners Hnodup Hdom.
    rewrite sum_LocalSize_insert; [|done| |done].
    + rewrite (IH owners), wrap_add_l; [f_equal; lia|done|].
      intros other Hother. apply Hdom. rewrite lookup_insert_is_Some. right.
      split; [|done]. intros ->. rewrite Hfresh in Hother.
      by destruct Hother.
    + apply Hdom. rewrite lookup_insert_eq. by eexists.
Qed.

(** C6. For any enumeration without repetition of owners that covers
    the keys of the local map, [Size()] is the sum of [LocalSize(owner)]
    over these owners plus [SharedSize()], the additions being those of
    [size_t]; the equation holds in the integers whenever the pool holds
    fewer than 2^64 entries. *)
Theorem Size_is_sum_of_LocalSize_and_SharedSize p owners :
  NoDup owners →
  (∀ isolate, is_Some (PoolImpl.local_pools_ p !! isolate) → isolate ∈ owners) →
  PoolImpl.Size p = wrap (sum_LocalSize p owners + PoolImpl.SharedSize p) ∧
  (sum_LocalSize p owners + entries_count (PoolImpl.shared_pool_ p)
   < size_t_modulus →
   PoolImpl.Size p = sum_LocalSize p owners + PoolImpl.SharedSize p).
Proof.
  intros Hnodup Hdom. destruct p as [local shared]. simpl in *.
  assert (Hsize : PoolImpl.Size (PoolImpl.mk local shared)
                  = wrap (sum_LocalSize (PoolImpl.mk local shared) owners
                          + entries_count shared)).
  { unfold PoolImpl.Size. simpl.
    rewrite (local_count_spec shared local owners) by done.
    by rewrite count_shared_spec, wrap_add_l by apply wrap_idemp. }
  rewrite Hsize, SharedSize_spec. simpl. split.
  - by rewrite wrap_add_r.
  - intros Hsmall.
    pose proof (sum_LocalSize_nonneg (PoolImpl.mk local shared) owners).
    pose proof (entries_count_nonneg shared).
    rewrite !wrap_small; lia.
Qed.

End PoolImpl_Size.

Lemma Size_is_sum_of_LocalSize_and_SharedSize_witness :
  let p := PoolImpl.mk {[ 1%N := [10%nat; 11%nat]; 2%N := [12%nat] ]}
                       [(4, [7%nat; 8%nat]); (5, [9%nat])] in
  PoolImpl.Size p = 6 ∧
  PoolImpl.Size p = sum_LocalSize p [1%N; 2%N; 3%N] + PoolImpl.SharedSize p.
Proof.
  intros p.
  destruct (Size_is_sum_of_LocalSize_and_SharedSize p [1%N; 2%N; 3%N])
    as [_ Hexact].
  - compute_done.
  - intros isolate [entries Hlookup]. subst p. simpl in Hlookup.
    apply lookup_insert_Some in Hlookup as [[<- _]|[_ Hlookup]].
    + by left.
    + apply lookup_singleton_Some in Hlookup as [<- _]. right. by left.
  - split; [|apply Hexact]; vm_compute; reflexivity.
Defined.

(** ** The facade: teardown of an owner *)

Section PagePool_teardown.
Context `{Config}.
Implicit Types (pool : PagePool.t) (isolate : Isolate) (group : list Isolate).

Lemma find_peer_none group isolate :
  (∀ other, other ∈ group → other = isolate) →
  List.find (λ other, negb (other =? isolate)%N) group = None.
Proof.
  intros Hall. induction group as [|other group IH]; [done|]. simpl.
  rewrite (Hall other), N.eqb_refl by by left. simpl.
  apply IH. intros other' Hin. apply Hall. by right.
Qed.

Lemma find_peer_some group isolate target :
  List.find (λ other, negb (other =? isolate)%N) group = Some target →
  target ∈ group ∧ target ≠ isolate.
Proof.
  intros [Hin Hne]%find_some. split; [by apply list_elem_of_In|].
  intros ->. by rewrite N.eqb_refl in Hne.
Qed.

Lemma find_peer_is_Some group isolate :
  (∃ other, other ∈ group ∧ other ≠ isolate) →
  is_Some (List.find (λ other, negb (other =? isolate)%N) group).
Proof.
  intros (other & Hin & Hne).
  destruct (List.find _ group) as [target|] eqn:Hfind; [by eexists|].
  apply list_elem_of_In in Hin.
  pose proof (find_none _ _ Hfind _ Hin) as Heq. simpl in Heq.
  apply negb_false_iff, N.eqb_eq in Heq. done.
Qed.

Lemma ReleaseOnTearDown_eq pool group isolate :
  memory_pool_share_memory_on_teardown v8_flags = true →
  PoolImpl.no_empty_container (PagePool.page_pool_ pool) →
  PoolImpl.no_empty_container (PagePool.zone_pool_ pool) →
  let time := PagePool.next_time_ pool in
  let pages :=
    PoolImpl.shared_pool_ (PagePool.page_pool_ pool)
    ++ migrated_batch (PagePool.page_pool_ pool) isolate time in
  let zones :=
    PoolImpl.shared_pool_ (PagePool.zone_pool_ pool)
    ++ migrated_batch (PagePool.zone_pool_ pool) isolate time in
  let local_pages :=
    delete isolate (PoolImpl.local_pools_ (PagePool.page_pool_ pool)) in
  let local_zones :=
    delete isolate (PoolImpl.local_pools_ (PagePool.zone_pool_ pool)) in
  let released :=
    PagePool.free_large (LargePagePoolImpl.pages_ (PagePool.large_pool_ pool)) in
  PagePool.ReleaseOnTearDown pool group isolate
  = Ok (match List.find (λ other, negb (other =? isolate)%N) group with
        | Some target_isolate =>
            ((if negb (empty pages) || negb (empty zones)
              then [PagePool.PostDelayedTask target_isolate
                      (PagePool.ReleasePooledChunksTask target_isolate time)
                      PagePool.kReleaseTaskDelayInSeconds]
              else []) ++ released,
             {| PagePool.page_pool_ := PoolImpl.mk local_pages pages;
                PagePool.zone_pool_ := PoolImpl.mk local_zones zones;
                PagePool.large_pool_ := LargePagePoolImpl.mk [] 0;
                PagePool.next_time_ := wrap (time + 1) |})
        | None =>
            (PagePool.free_batches PagePool.free_pages pages
             ++ PagePool.free_batches PagePool.free_reservations zones
             ++ released,
             {| PagePool.page_pool_ := PoolImpl.mk local_pages [];
                PagePool.zone_pool_ := PoolImpl.mk local_zones [];
                PagePool.large_pool_ := LargePagePoolImpl.mk [] 0;
                PagePool.next_time_ := wrap (time + 1) |})
        end).
Proof.
  intros Hflag Hpages Hzones. cbv zeta.
  unfold PagePool.ReleaseOnTearDown. rewrite Hflag. cbn [negb].
  unfold PagePool.fetch_add_next_time. cbn [PagePool.page_pool_].
  destruct (MoveLocalToShared_spec _ isolate (PagePool.next_time_ pool) Hpages)
    as ([local_pages pages] & -> & Hlocal_pages & Hshared_pages & _).
  cbn [mbind outcome_bind PagePool.set_page_pool PagePool.zone_pool_].
  destruct (MoveLocalToShared_spec _ isolate (PagePool.next_time_ pool) Hzones)
    as ([local_zones zones] & -> & Hlocal_zones & Hshared_zones & _).
  cbn [mbind outcome_bind PagePool.set_zone_pool PagePool.page_pool_
       PagePool.zone_pool_ PagePool.large_pool_ PagePool.next_time_].
  simpl in Hlocal_pages, Hshared_pages, Hlocal_zones, Hshared_zones.
  unfold migrated_batch.
  rewrite <-Hlocal_pages, <-Hshared_pages, <-Hlocal_zones, <-Hshared_zones.
  cbn [PoolImpl.shared_pool_].
  unfold PagePool.FindAnotherIsolateLocked.
  destruct (negb (empty pages) || negb (empty zones)) eqn:Hpopulated.
  - destruct (List.find _ group) as [target|] eqn:Hfind.
    + apply find_peer_some in Hfind as [_ Hne].
      assert (negb (isolate =? target)%N = true) as ->.
      { apply negb_true_iff, N.eqb_neq. done. }
      rewrite DCHECK_true. reflexivity.
    + cbn [mbind outcome_bind negb PoolImpl.ReleaseShared PoolImpl.set_shared
           PagePool.page_pool_ PagePool.zone_pool_ PagePool.set_page_pool
           PagePool.set_zone_pool PoolImpl.shared_pool_ PoolImpl.local_pools_
           PagePool.large_pool_ PagePool.next_time_ app].
      unfold LargePagePoolImpl.ReleaseAll. by rewrite <-app_assoc.
  - apply orb_false_iff in Hpopulated as [Hp Hz].
    apply negb_false_iff, empty_true in Hp, Hz. rewrite Hp, Hz.
    by destruct (List.find _ group).
Qed.

Lemma elem_of_concat {A} (x : A) (batch : list A) (batches : list (list A)) :
  x ∈ batch → batch ∈ batches → x ∈ concat batches.
Proof.
  intros Hx Hbatch. induction batches as [|other batches IH];
    [by apply elem_of_nil in Hbatch|].
  simpl. apply elem_of_app.
  apply elem_of_cons in Hbatch as [<-|Hbatch]; [by left|right; by apply IH].
Qed.

(** What the destruction of the containers handed back amounts to. *)
Lemma free_batches_pages (batches : list (InternalTime * list PagePool.PageMemory)) :
  PagePool.free_batches PagePool.free_pages batches
  = PagePool.DeletePage <$> omap id (concat batches.*2).
Proof.
  unfold PagePool.free_batches, PagePool.free_pages.
  induction batches as [|batch batches IH]; [done|].
  rewrite bind_cons, IH, fmap_cons. cbn [concat].
  by rewrite omap_app, fmap_app.
Qed.

Lemma free_batches_reservations (batches : list (InternalTime * list VirtualMemory.t)) :
  PagePool.free_batches PagePool.free_reservations batches
  = PagePool.FreeReservation <$> concat batches.*2.
Proof.
  unfold PagePool.free_batches, PagePool.free_reservations.
  induction batches as [|batch batches IH]; [done|].
  rewrite bind_cons, IH, fmap_cons. cbn [concat]. by rewrite fmap_app.
Qed.

Lemma free_large_eq (entries : list (InternalTime * LargePageMetadata.t)) :
  PagePool.free_large entries = PagePool.DeleteLargePage <$> entries.*2.
Proof. unfold PagePool.free_large. by rewrite <-list_fmap_compose. Qed.

Lemma DeletePage_released (batches : list (InternalTime * list PagePool.PageMemory))
    batch chunk :
  batch ∈ batches → Some chunk ∈ batch.2 →
  PagePool.DeletePage chunk ∈ PagePool.DeletePage <$> omap id (concat batches.*2).
Proof.
  intros Hbatch Hchunk. apply list_elem_of_fmap_2, list_elem_of_omap.
  exists (Some chunk). split; [|done].
  apply (elem_of_concat _ batch.2); [done|]. by apply list_elem_of_fmap_2.
Qed.

Lemma FreeReservation_released (batches : list (InternalTime * list VirtualMemory.t))
    batch reservation :
  batch ∈ batches → reservation ∈ batch.2 →
  PagePool.FreeReservation reservation
  ∈ PagePool.FreeReservation <$> concat batches.*2.
Proof.
  intros Hbatch Hreservation. apply list_elem_of_fmap_2.
  apply (elem_of_concat _ batch.2); [done|]. by apply list_elem_of_fmap_2.
Qed.

Lemma Add_poolable pool isolate chunk :
  isolate ≠ nullptr →
  poolable chunk →
  PagePool.Add pool isolate (Some chunk)
  = Ok (PagePool.set_page_pool
          (PoolImpl.PutLocal (PagePool.page_pool_ pool) isolate (Some chunk))
          pool).
Proof.
  intros Hnull (Hsize & Hlarge & Htrusted & Hexec & Hslots).
  unfold PagePool.Add, PagePool.through.
  rewrite DCHECK_NOT_NULL_ok, Hsize, Z.eqb_refl, Hlarge, Htrusted, Hexec, Hslots
    by done.
  rewrite bool_decide_eq_true_2 by by eexists.
  cbn [negb]. by rewrite DCHECK_true.
Qed.

(** C8. With sharing on teardown enabled, for a pool whose page and zone
    sub-pools hold no empty container, [ReleaseOnTearDown(isolate)]
    returns without a fatal assertion; with T the value of the clock
    before the call:
    - the clock is advanced to T + 1 (in [size_t]);
    - the isolate's key is erased from both local maps;
    - the large-page pool is emptied and every large page it held is
      deleted;
    - when the group has another isolate, the isolate's local pages and
      zone reservations are appended to the shared lists as batches
      tagged T, and the effects are: one [ReleasePooledChunksTask] for T
      posted to another isolate of the group with a delay of 8 seconds,
      if one of the shared lists is then not empty, followed by the
      deletion of the large pages, and nothing else;
    - when the group has no other isolate, both shared lists are empty
      afterwards and the effects are: [DeletePage] for every page held by
      a shared page batch or by the isolate's local vector, then
      [FreeReservation] for every zone reservation held by a shared zone
      batch or by the isolate's local vector, then the deletion of the
      large pages.
    In particular, when an owner admits three poolable pages into an
    empty pool and tears down with no other isolate in the group, the
    three pages are deleted and the total count is 0. *)
Theorem ReleaseOnTearDown_shares_or_releases :
  memory_pool_share_memory_on_teardown v8_flags = true →
  (∀ pool group isolate,
     PoolImpl.no_empty_container (PagePool.page_pool_ pool) →
     PoolImpl.no_empty_container (PagePool.zone_pool_ pool) →
     let time := PagePool.next_time_ pool in
     let pages :=
       PoolImpl.shared_pool_ (PagePool.page_pool_ pool)
       ++ migrated_batch (PagePool.page_pool_ pool) isolate time in
     let zones :=
       PoolImpl.shared_pool_ (PagePool.zone_pool_ pool)
       ++ migrated_batch (PagePool.zone_pool_ pool) isolate time in
     let large := LargePagePoolImpl.pages_ (PagePool.large_pool_ pool) in
     ∃ effects pool',
       PagePool.ReleaseOnTearDown pool group isolate = Ok (effects, pool') ∧
       PagePool.next_time_ pool' = wrap (time + 1) ∧
       PoolImpl.local_pools_ (PagePool.page_pool_ pool')
       = delete isolate (PoolImpl.local_pools_ (PagePool.page_pool_ pool)) ∧
       PoolImpl.local_pools_ (PagePool.zone_pool_ pool')
       = delete isolate (PoolImpl.local_pools_ (PagePool.zone_pool_ pool)) ∧
       PagePool.large_pool_ pool' = LargePagePoolImpl.mk [] 0 ∧
       (∀ entry, entry ∈ large → PagePool.DeleteLargePage entry.2 ∈ effects) ∧
       ((∃ other, other ∈ group ∧ other ≠ isolate) →
        PoolImpl.shared_pool_ (PagePool.page_pool_ pool') = pages ∧
        PoolImpl.shared_pool_ (PagePool.zone_pool_ pool') = zones ∧
        ∃ target_isolate,
          target_isolate ∈ group ∧ target_isolate ≠ isolate ∧
          effects
          = (if negb (empty pages) || negb (empty zones)
             then [PagePool.PostDelayedTask target_isolate
                     (PagePool.ReleasePooledChunksTask target_isolate time) 8]
             else [])
            ++ (PagePool.DeleteLargePage <$> large.*2)) ∧
       ((∀ other, other ∈ group → other = isolate) →
        PoolImpl.shared_pool_ (PagePool.page_pool_ pool') = [] ∧
        PoolImpl.shared_pool_ (PagePool.zone_pool_ pool') = [] ∧
        effects
        = (PagePool.DeletePage <$> omap id (concat pages.*2))
          ++ (PagePool.FreeReservation <$> concat zones.*2)
          ++ (PagePool.DeleteLargePage <$> large.*2) ∧
        (∀ batch chunk,
           batch ∈ PoolImpl.shared_pool_ (PagePool.page_pool_ pool) →
           Some chunk ∈ batch.2 → PagePool.DeletePage chunk ∈ effects) ∧
        (∀ entries chunk,
           PoolImpl.local_pools_ (PagePool.page_pool_ pool) !! isolate
           = Some entries →
           Some chunk ∈ entries → PagePool.DeletePage chunk ∈ effects) ∧
        (∀ batch reservation,
           batch ∈ PoolImpl.shared_pool_ (PagePool.zone_pool_ pool) →
           reservation ∈ batch.2 →
           PagePool.FreeReservation reservation ∈ effects) ∧
        (∀ entries reservation,
           PoolImpl.local_pools_ (PagePool.zone_pool_ pool) !! isolate
           = Some entries →
           reservation ∈ entries →
           PagePool.FreeReservation reservation ∈ effects))) ∧
  (∀ isolate page1 page2 page3 time group,
     isolate ≠ nullptr →
     poolable page1 → poolable page2 → poolable page3 →
     (∀ other, other ∈ group → other = isolate) →
     ∃ pool1 pool2 pool3 pool',
       PagePool.Add (empty_pool time) isolate (Some page1) = Ok pool1 ∧
       PagePool.Add pool1 isolate (Some page2) = Ok pool2 ∧
       PagePool.Add pool2 isolate (Some page3) = Ok pool3 ∧
       PagePool.GetCount pool3 isolate = 3 ∧
       PagePool.ReleaseOnTearDown pool3 group isolate
       = Ok ([PagePool.DeletePage page1; PagePool.DeletePage page2;
              PagePool.DeletePage page3], pool') ∧
       PagePool.GetTotalCount pool' = 0 ∧
       pool' = empty_pool (wrap (time + 1))).
Proof.
  intros Hflag. split.
  - intros pool group isolate Hpages Hzones time pages zones large.
    pose proof (ReleaseOnTearDown_eq pool group isolate Hflag Hpages Hzones)
      as Heq. cbv zeta in Heq.
    rewrite free_batches_pages, free_batches_reservations, free_large_eq in Heq.
    fold time pages zones large in Heq.
    assert (Hlarge : ∀ entry,
              entry ∈ large →
              PagePool.DeleteLargePage entry.2
              ∈ PagePool.DeleteLargePage <$> large.*2).
    { intros entry Hin. by apply list_elem_of_fmap_2, list_elem_of_fmap_2. }
    destruct (List.find _ group) as [target|] eqn:Hfind.
    + apply find_peer_some in Hfind as [Hin Hne].
      eexists _, _. split; [exact Heq|]. split_and!; try done.
      * intros entry Hentry. apply elem_of_app. right. by apply Hlarge.
      * intros _. split_and!; try done. by exists target.
      * intros Hnone. by apply Hnone in Hin.
    + eexists _, _. split; [exact Heq|]. split_and!; try done.
      * intros entry Hentry. rewrite !elem_of_app. right. right.
        by apply Hlarge.
      * intros Hpeer%find_peer_is_Some. rewrite Hfind in Hpeer.
        by destruct Hpeer.
      * intros _. split_and!; try done.
        -- intros batch chunk Hbatch Hchunk. apply elem_of_app. left.
           apply (DeletePage_released _ batch); [|done].
           apply elem_of_app. by left.
        -- intros entries chunk Hlookup Hchunk. apply elem_of_app. left.
           apply (DeletePage_released _ (time, entries)); [|done].
           apply elem_of_app. right. unfold migrated_batch.
           rewrite Hlookup. by left.
        -- intros batch reservation Hbatch Hreservation.
           rewrite !elem_of_app. right. left.
           apply (FreeReservation_released _ batch); [|done].
           apply elem_of_app. by left.
        -- intros entries reservation Hlookup Hreservation.
           rewrite !elem_of_app. right. left.
           apply (FreeReservation_released _ (time, entries)); [|done].
           apply elem_of_app. right. unfold migrated_batch.
           rewrite Hlookup. by left.
  - intros isolate page1 page2 page3 time group Hnull Hpage1 Hpage2 Hpage3 Hnone.
    eexists _, _, _, _. rewrite !Add_poolable by done.
    split_and!; [done..| | | |done].
    + unfold PagePool.GetCount, PoolImpl.LocalSize, PoolImpl.PutLocal. simpl.
      rewrite !lookup_insert_eq. simpl. by rewrite lookup_empty.
    + rewrite ReleaseOnTearDown_eq; [|done|..].
      * rewrite (find_peer_none _ _ Hnone). unfold migrated_batch.
        simpl. rewrite !lookup_insert_eq. simpl. rewrite lookup_empty. simpl.
        rewrite !delete_insert_eq, !delete_empty. reflexivity.
      * cbn [PagePool.page_pool_ PagePool.set_page_pool empty_pool].
        repeat apply PutLocal_no_empty_container.
        split; [apply map_Forall_empty|done].
      * split; [|done]. apply map_Forall_empty.
    + done.
Qed.

End PagePool_teardown.

Lemma ReleaseOnTearDown_shares_or_releases_witness :
  let page address :=
    MutablePageMetadata.mk address 262144 false false NOT_EXECUTABLE false in
  let pool :=
    {| PagePool.page_pool_ :=
         PoolImpl.mk {[ 1%N := [Some (page 4096%N)] ]}
                     [(2, [Some (page 8192%N)])];
       PagePool.zone_pool_ :=
         PoolImpl.mk {[ 1%N := [VirtualMemory.mk 65536 4096] ]}
                     [(3, [VirtualMemory.mk 131072 4096])];
       PagePool.large_pool_ :=
         LargePagePoolImpl.mk [(2, LargePageMetadata.mk 1048576 100)] 100;
       PagePool.next_time_ := 5 |} in
  (∃ pool',
     PagePool.ReleaseOnTearDown (H:=debug_build) pool [1%N] 1%N
     = Ok ([PagePool.DeletePage (page 8192%N);
            PagePool.DeletePage (page 4096%N);
            PagePool.FreeReservation (VirtualMemory.mk 131072 4096);
            PagePool.FreeReservation (VirtualMemory.mk 65536 4096);
            PagePool.DeleteLargePage (LargePageMetadata.mk 1048576 100)],
           pool') ∧
     PoolImpl.shared_pool_ (PagePool.page_pool_ pool') = [] ∧
     PoolImpl.shared_pool_ (PagePool.zone_pool_ pool') = []) ∧
  ∃ pool1 pool2 pool3 pool',
    PagePool.Add (H:=debug_build) (empty_pool 7) 1%N (Some (page 4096%N))
    = Ok pool1 ∧
    PagePool.Add (H:=debug_build) pool1 1%N (Some (page 8192%N)) = Ok pool2 ∧
    PagePool.Add (H:=debug_build) pool2 1%N (Some (page 12288%N)) = Ok pool3 ∧
    PagePool.GetCount pool3 1%N = 3 ∧
    PagePool.ReleaseOnTearDown (H:=debug_build) pool3 [1%N] 1%N
    = Ok ([PagePool.DeletePage (page 4096%N); PagePool.DeletePage (page 8192%N);
           PagePool.DeletePage (page 12288%N)], pool') ∧
    PagePool.GetTotalCount pool' = 0 ∧
    pool' = empty_pool (wrap (7 + 1)).
Proof.
  intros page pool.
  destruct (ReleaseOnTearDown_shares_or_releases (H:=debug_build) eq_refl)
    as [Hgeneral Hscenario].
  split.
  - destruct (Hgeneral pool [1%N] 1%N)
      as (effects & pool' & Heq & _ & _ & _ & _ & _ & _ & Hlast).
    + split; [by apply map_Forall_singleton|by repeat constructor].
    + split; [by apply map_Forall_singleton|by repeat constructor].
    + destruct Hlast as (Hpages & Hzones & Heffects & _).
      { intros other Hin. by apply list_elem_of_singleton in Hin. }
      exists pool'. rewrite Heq, Heffects. by split_and!.
  - apply Hscenario.
    + discriminate.
    + by repeat split.
    + by repeat split.
    + by repeat split.
    + intros other Hin. by apply list_elem_of_singleton in Hin.
Defined.

(** ** Teardown of the sub-pools *)

Section TearDown.
Context `{Config}.

Lemma PoolImpl_TearDown_empty {PoolEntry} (p : PoolImpl.t PoolEntry) :
  PoolImpl.local_pools_ p = ∅ →
  PoolImpl.TearDown p
  = Ok (PoolImpl.shared_pool_ p, PoolImpl.mk (PoolImpl.local_pools_ p) []).
Proof.
  intros Hempty. unfold PoolImpl.TearDown.
  by rewrite bool_decide_eq_true_2, DCHECK_true.
Qed.

Lemma PoolImpl_TearDown_debug {PoolEntry} (p : PoolImpl.t PoolEntry) :
  dcheck_is_on = true →
  PoolImpl.local_pools_ p ≠ ∅ →
  PoolImpl.TearDown p = Fatal.
Proof.
  intros Hdebug Hlocal. unfold PoolImpl.TearDown, DCHECK.
  by rewrite Hdebug, bool_decide_eq_false_2.
Qed.

Lemma PoolImpl_TearDown_release {PoolEntry} (p : PoolImpl.t PoolEntry) :
  dcheck_is_on = false →
  PoolImpl.TearDown p
  = Ok (PoolImpl.shared_pool_ p, PoolImpl.mk (PoolImpl.local_pools_ p) []).
Proof. intros Hrelease. unfold PoolImpl.TearDown, DCHECK. by rewrite Hrelease. Qed.

(** C9, as amended. [TearDown] of the large-page pool is fatal in every
    build when [pages_] is not empty, and so is then [TearDown] of the
    whole [PagePool]. [TearDown] of a generic pool whose local map is
    not empty is fatal in a build with DCHECKs; in a build without them
    it returns, having cleared the shared list and left the local map as
    it was. When the local map is empty, [TearDown] of a generic pool
    returns in every build and clears the shared list; when [pages_] is
    empty, [TearDown] of the large-page pool returns. *)
Theorem TearDown_fatal_when_checked :
  (∀ pool : LargePagePoolImpl.t,
     (LargePagePoolImpl.pages_ pool ≠ [] →
      LargePagePoolImpl.TearDown pool = Fatal) ∧
     (LargePagePoolImpl.pages_ pool = [] →
      LargePagePoolImpl.TearDown pool = Ok pool)) ∧
  (∀ pool : PagePool.t,
     LargePagePoolImpl.pages_ (PagePool.large_pool_ pool) ≠ [] →
     PagePool.TearDown pool = Fatal) ∧
  (∀ (PoolEntry : Type) (p : PoolImpl.t PoolEntry),
     (PoolImpl.local_pools_ p ≠ ∅ → dcheck_is_on = true →
      PoolImpl.TearDown p = Fatal) ∧
     (PoolImpl.local_pools_ p ≠ ∅ → dcheck_is_on = false →
      PoolImpl.TearDown p
      = Ok (PoolImpl.shared_pool_ p, PoolImpl.mk (PoolImpl.local_pools_ p) [])) ∧
     (PoolImpl.local_pools_ p = ∅ →
      PoolImpl.TearDown p = Ok (PoolImpl.shared_pool_ p, PoolImpl.mk ∅ []))).
Proof.
  assert (Hlarge : ∀ pool : LargePagePoolImpl.t,
            LargePagePoolImpl.pages_ pool ≠ [] →
            LargePagePoolImpl.TearDown pool = Fatal).
  { intros pool Hpages. unfold LargePagePoolImpl.TearDown.
    by rewrite empty_false. }
  split_and!.
  - intros pool. split; [by apply Hlarge|].
    intros Hpages. unfold LargePagePoolImpl.TearDown. by rewrite Hpages.
  - intros pool Hpages. unfold PagePool.TearDown.
    destruct (PoolImpl.TearDown (PagePool.page_pool_ pool))
      as [[pages page_pool]|]; [|done].
    cbn [mbind outcome_bind PagePool.set_page_pool PagePool.zone_pool_].
    destruct (PoolImpl.TearDown (PagePool.zone_pool_ pool))
      as [[zones zone_pool]|]; [|done].
    cbn [mbind outcome_bind PagePool.set_zone_pool PagePool.large_pool_].
    by rewrite Hlarge.
  - intros PoolEntry p. split_and!.
    + intros Hlocal Hdebug. by apply PoolImpl_TearDown_debug.
    + intros _ Hrelease. by apply PoolImpl_TearDown_release.
    + intros Hlocal. rewrite PoolImpl_TearDown_empty by done. by rewrite Hlocal.
Qed.

End TearDown.

(** In a build without DCHECKs, [TearDown] of a generic pool whose local
    map still holds a vector returns normally: the fatal path is not
    taken. *)
Lemma PoolImpl_TearDown_returns_with_local_state :
  let p := PoolImpl.mk {[ 1%N := [10%nat] ]} [(4, [7%nat])] in
  PoolImpl.local_pools_ p ≠ ∅ ∧
  PoolImpl.TearDown (H:=release_build) p
  = Ok ([(4, [7%nat])], PoolImpl.mk {[ 1%N := [10%nat] ]} []) ∧
  PoolImpl.TearDown (H:=release_build) p ≠ Fatal.
Proof.
  intros p. split_and!; [|done..].
  intros Hempty. by apply (f_equal (λ local, local !! 1%N)) in Hempty.
Qed.

Lemma TearDown_fatal_when_checked_witness :
  LargePagePoolImpl.TearDown
    (LargePagePoolImpl.mk [(1, LargePageMetadata.mk 4096 100)] 100) = Fatal ∧
  PoolImpl.TearDown (H:=debug_build)
    (PoolImpl.mk {[ 1%N := [10%nat] ]} [(4, [7%nat])]) = Fatal.
Proof.
  destruct (TearDown_fatal_when_checked (H:=debug_build))
    as (Hlarge & _ & Hpool).
  split.
  - by apply Hlarge.
  - apply Hpool; [|done].
    intros Hempty. by apply (f_equal (λ local, local !! 1%N)) in Hempty.
Defined.

(** ** Large pages are not keyed by owner *)

(** C10. [RemoveLarge(isolate, chunk_size)] returns the same page and
    leaves the same pool whichever isolate is passed: it is [Remove] of
    the large-page pool, applied to [chunk_size] alone. *)
Theorem RemoveLarge_ignores_isolate `{Config} (pool : PagePool.t)
    (isolate1 isolate2 : Isolate) (chunk_size : Z) :
  PagePool.RemoveLarge pool isolate1 chunk_size
  = PagePool.RemoveLarge pool isolate2 chunk_size ∧
  PagePool.RemoveLarge pool isolate1 chunk_size
  = '(result, large_pool) ←
      LargePagePoolImpl.Remove (PagePool.large_pool_ pool) chunk_size;
    Ok (result, PagePool.set_large_pool large_pool pool).
Proof. split; reflexivity. Qed.

(** * Further facts *)

(** ** The generic pool: how the counters move *)

Section PoolImpl_counters.
Context `{Config} {PoolEntry : Type}.
Implicit Types (p : PoolImpl.t PoolEntry) (isolate : Isolate).
Implicit Types (local : gmap N (list PoolEntry)).
Implicit Types (shared : list (InternalTime * list PoolEntry)).

Lemma local_count_insert local isolate (entries : list PoolEntry) :
  local !! isolate = None →
  local_count (<[isolate := entries]> local)
  = wrap (local_count local + vec_size entries).
Proof.
  intros Hfresh. unfold local_count.
  rewrite map_fold_insert_L; [done| |done].
  intros j1 j2 z1 z2 y _ _ _. rewrite !wrap_add_l. f_equal. lia.
Qed.

Lemma local_count_wrapped local : wrap (local_count local) = local_count local.
Proof.
  unfold local_count.
  apply (map_fold_weak_ind (λ count _, wrap count = count)); [done|].
  intros. apply wrap_idemp.
Qed.

Lemma local_count_delete local isolate (entries : list PoolEntry) :
  local !! isolate = Some entries →
  local_count local
  = wrap (local_count (delete isolate local) + vec_size entries).
Proof.
  intros Hlookup.
  rewrite <-(local_count_insert (delete isolate local) isolate entries)
    by apply lookup_delete_eq.
  by rewrite insert_delete_eq, insert_id.
Qed.

Lemma local_count_replace local isolate (old new : list PoolEntry) :
  local !! isolate = Some old →
  wrap (local_count (<[isolate := new]> local) + vec_size old)
  = wrap (local_count local + vec_size new).
Proof.
  intros Hlookup. rewrite (local_count_delete local isolate old Hlookup).
  rewrite <-(insert_delete_eq local isolate new).
  rewrite local_count_insert by apply lookup_delete_eq.
  rewrite !wrap_add_l. f_equal. lia.
Qed.

Lemma Size_eq p :
  PoolImpl.Size p
  = wrap (local_count (PoolImpl.local_pools_ p)
          + entries_count (PoolImpl.shared_pool_ p)).
Proof.
  unfold PoolImpl.Size. apply count_shared_spec, local_count_wrapped.
Qed.

Lemma LocalSize_insert_eq local shared isolate (entries : list PoolEntry) :
  PoolImpl.LocalSize (PoolImpl.mk (<[isolate := entries]> local) shared) isolate
  = vec_size entries.
Proof. unfold PoolImpl.LocalSize. simpl. by rewrite lookup_insert_eq. Qed.

Lemma LocalSize_insert_ne local shared isolate other (entries : list PoolEntry) :
  other ≠ isolate →
  PoolImpl.LocalSize (PoolImpl.mk (<[isolate := entries]> local) shared) other
  = PoolImpl.LocalSize (PoolImpl.mk local shared) other.
Proof.
  intros Hne. unfold PoolImpl.LocalSize. simpl. by rewrite lookup_insert_ne.
Qed.

Lemma LocalSize_delete_eq local shared isolate :
  PoolImpl.LocalSize (PoolEntry:=PoolEntry)
    (PoolImpl.mk (delete isolate local) shared) isolate = 0.
Proof. unfold PoolImpl.LocalSize. simpl. by rewrite lookup_delete_eq. Qed.

Lemma LocalSize_delete_ne local shared isolate other :
  other ≠ isolate →
  PoolImpl.LocalSize (PoolEntry:=PoolEntry)
    (PoolImpl.mk (delete isolate local) shared) other
  = PoolImpl.LocalSize (PoolImpl.mk local shared) other.
Proof.
  intros Hne. unfold PoolImpl.LocalSize. simpl. by rewrite lookup_delete_ne.
Qed.

Lemma vec_size_snoc {A} (v : list A) x : vec_size (v ++ [x]) = vec_size v + 1.
Proof. unfold vec_size. rewrite length_app. simpl. lia. Qed.

(** X1. [PutLocal] raises the owner's [LocalSize] by exactly one, leaves
    the [LocalSize] of every other owner and the shared list as they
    were, and raises [Size] by one (in [size_t]). *)
Theorem PutLocal_adds_one_entry p isolate (entry : PoolEntry) :
  PoolImpl.LocalSize (PoolImpl.PutLocal p isolate entry) isolate
  = PoolImpl.LocalSize p isolate + 1 ∧
  (∀ other, other ≠ isolate →
     PoolImpl.LocalSize (PoolImpl.PutLocal p isolate entry) other
     = PoolImpl.LocalSize p other) ∧
  PoolImpl.shared_pool_ (PoolImpl.PutLocal p isolate entry)
  = PoolImpl.shared_pool_ p ∧
  PoolImpl.SharedSize (PoolImpl.PutLocal p isolate entry)
  = PoolImpl.SharedSize p ∧
  PoolImpl.Size (PoolImpl.PutLocal p isolate entry) = wrap (PoolImpl.Size p + 1).
Proof.
  destruct p as [local shared]. unfold PoolImpl.PutLocal, PoolImpl.set_local.
  cbn [PoolImpl.local_pools_ PoolImpl.shared_pool_]. split_and!; try done.
  - rewrite LocalSize_insert_eq, vec_size_snoc. unfold PoolImpl.LocalSize.
    simpl. by destruct (local !! isolate).
  - intros other Hne. by apply LocalSize_insert_ne.
  - rewrite !Size_eq. cbn [PoolImpl.local_pools_ PoolImpl.shared_pool_].
    rewrite wrap_add_l.
    destruct (local !! isolate) as [entries|] eqn:Hlookup; simpl.
    + rewrite (local_count_delete local isolate entries Hlookup).
      rewrite <-(insert_delete_eq local isolate (entries ++ [entry])).
      rewrite local_count_insert by apply lookup_delete_eq.
      rewrite vec_size_snoc, !wrap_add_l, <-(Z.add_assoc (wrap _)), wrap_add_l.
      f_equal. lia.
    + rewrite local_count_insert by done.
      rewrite wrap_add_l. f_equal. unfold vec_size. simpl. lia.
Qed.

End PoolImpl_counters.

(** ** The generic pool: lookups, migration and release compose *)

Section PoolImpl_composition.
Context `{Config} {PoolEntry : Type}.
Implicit Types (p : PoolImpl.t PoolEntry) (isolate : Isolate).
Implicit Types (local : gmap N (list PoolEntry)).
Implicit Types (shared : list (InternalTime * list PoolEntry)).

Lemma local_count_pop local isolate (entries : list PoolEntry) entry :
  local !! isolate = Some (entries ++ [entry]) →
  local_count local
  = wrap (local_count (if empty entries then delete isolate local
                       else <[isolate := entries]> local) + 1).
Proof.
  intros Hlookup. rewrite (local_count_delete _ _ _ Hlookup), vec_size_snoc.
  destruct entries as [|first entries]; cbn [empty].
  - f_equal; unfold vec_size; simpl; lia.
  - rewrite <-(insert_delete_eq local isolate (first :: entries)).
    rewrite local_count_insert by apply lookup_delete_eq.
    rewrite wrap_add_l. f_equal. lia.
Qed.

Lemma entries_count_pop shared time (entries : list PoolEntry) entry :
  entries_count (shared ++ [(time, entries ++ [entry])])
  = entries_count (if empty entries then shared
                   else shared ++ [(time, entries)]) + 1.
Proof.
  destruct entries as [|first entries]; cbn [empty];
    rewrite !entries_count_app, !entries_count_cons, !entries_count_nil;
    cbn [snd]; rewrite ?vec_size_snoc; unfold vec_size; simpl; lia.
Qed.

(** X2. In a pool without empty containers, a lookup by a non-null owner
    returns nothing exactly when the owner has no local vector and the
    shared list is empty, and then leaves the pool as it is; when it
    returns an entry, [Size] drops by exactly one (in [size_t]). Either
    way the local vectors of the other owners are untouched. *)
Theorem Get_takes_one_entry p isolate :
  PoolImpl.no_empty_container p →
  isolate ≠ nullptr →
  ∃ result p',
    PoolImpl.Get p isolate = Ok (result, p') ∧
    (result = None ↔
     PoolImpl.local_pools_ p !! isolate = None ∧ PoolImpl.shared_pool_ p = []) ∧
    (result = None → p' = p) ∧
    (is_Some result → PoolImpl.Size p = wrap (PoolImpl.Size p' + 1)) ∧
    (∀ other, other ≠ isolate →
       PoolImpl.local_pools_ p' !! other = PoolImpl.local_pools_ p !! other).
Proof.
  intros [Hlocal Hshared] Hnull. destruct p as [local shared].
  cbn [PoolImpl.local_pools_ PoolImpl.shared_pool_] in *.
  destruct (local !! isolate) as [entries|] eqn:Hlookup.
  - destruct (snoc_cases entries) as [->|(entries' & entry & ->)].
    { by apply Hlocal in Hlookup. }
    eexists _, _. split; [by apply Get_local|].
    cbn [PoolImpl.set_local PoolImpl.local_pools_ PoolImpl.shared_pool_].
    split_and!.
    + split; [done|]. by intros [? _].
    + done.
    + intros _. rewrite !Size_eq.
      cbn [PoolImpl.set_local PoolImpl.local_pools_ PoolImpl.shared_pool_].
      rewrite (local_count_pop _ _ _ _ Hlookup), !wrap_add_l. f_equal. lia.
    + intros other Hne. destruct (empty entries').
      * by rewrite lookup_delete_ne.
      * by rewrite lookup_insert_ne.
  - destruct (snoc_cases shared) as [->|(shared' & [time batch] & ->)].
    { eexists _, _. split; [by apply Get_none|]. by split_and!. }
    destruct (snoc_cases batch) as [->|(entries & entry & ->)].
    { rewrite Forall_app, Forall_singleton in Hshared.
      by destruct Hshared as [_ Hlast]. }
    eexists _, _. split; [by eapply Get_shared|].
    cbn [PoolImpl.set_shared PoolImpl.local_pools_ PoolImpl.shared_pool_].
    split_and!; try done.
    + split; [done|]. intros [_ Hnil]. by destruct shared'.
    + intros _. rewrite !Size_eq.
      cbn [PoolImpl.set_shared PoolImpl.local_pools_ PoolImpl.shared_pool_].
      rewrite entries_count_pop, wrap_add_l. f_equal. lia.
Qed.

(** X3. In a pool without empty containers, [MoveLocalToShared] returns
    without a fatal assertion and moves the owner's entries without
    losing one: [Size] is unchanged, the owner's [LocalSize] becomes 0,
    [SharedSize] grows by what the owner held, and the other owners keep
    their vectors. Its result says whether the shared list is not empty
    afterwards. A second call for the same owner changes nothing and
    returns the same answer. *)
Theorem MoveLocalToShared_conserves_entries p isolate release_time :
  PoolImpl.no_empty_container p →
  ∃ populated p',
    PoolImpl.MoveLocalToShared p isolate release_time = Ok (populated, p') ∧
    populated = negb (empty (PoolImpl.shared_pool_ p')) ∧
    PoolImpl.Size p' = PoolImpl.Size p ∧
    PoolImpl.LocalSize p' isolate = 0 ∧
    PoolImpl.SharedSize p'
    = wrap (PoolImpl.SharedSize p + PoolImpl.LocalSize p isolate) ∧
    (∀ other, other ≠ isolate →
       PoolImpl.local_pools_ p' !! other = PoolImpl.local_pools_ p !! other) ∧
    (∀ later, PoolImpl.MoveLocalToShared p' isolate later = Ok (populated, p')).
Proof.
  intros Hp.
  destruct (MoveLocalToShared_spec p isolate release_time Hp)
    as ([local' shared'] & Heq & Hlocal' & Hshared' & _).
  destruct p as [local shared].
  cbn [PoolImpl.local_pools_ PoolImpl.shared_pool_] in *. subst local' shared'.
  eexists _, _. split; [exact Heq|].
  cbn [PoolImpl.local_pools_ PoolImpl.shared_pool_]. split_and!.
  - done.
  - rewrite !Size_eq. cbn [PoolImpl.local_pools_ PoolImpl.shared_pool_].
    destruct (local !! isolate) as [entries|] eqn:Hlookup.
    + rewrite (local_count_delete _ _ _ Hlookup), wrap_add_l.
      rewrite entries_count_app, entries_count_cons, entries_count_nil. simpl.
      f_equal. lia.
    + by rewrite app_nil_r, delete_id.
  - apply LocalSize_delete_eq.
  - rewrite !SharedSize_spec, wrap_add_l. unfold PoolImpl.LocalSize.
    cbn [PoolImpl.local_pools_ PoolImpl.shared_pool_].
    destruct (local !! isolate) as [entries|].
    + rewrite entries_count_app, entries_count_cons, entries_count_nil. simpl.
      f_equal. lia.
    + by rewrite app_nil_r, Z.add_0_r.
  - intros other Hne. by rewrite lookup_delete_ne.
  - intros later. unfold PoolImpl.MoveLocalToShared.
    cbn [PoolImpl.local_pools_ PoolImpl.shared_pool_].
    by rewrite lookup_delete_eq.
Qed.

(** X4. In a pool without empty containers, [ReleaseLocal(isolate)]
    returns without a fatal assertion, hands over exactly the owner's
    local vector (nothing when the owner has none) and erases its key;
    the shared list and the other owners are untouched, [Size] drops by
    the number of entries handed over, no empty container appears, and a
    second call hands over nothing and changes nothing. *)
Theorem ReleaseLocal_releases_one_owner p isolate :
  PoolImpl.no_empty_container p →
  ∃ p',
    PoolImpl.ReleaseLocal p isolate
    = Ok (default [] (PoolImpl.local_pools_ p !! isolate), p') ∧
    PoolImpl.local_pools_ p' !! isolate = None ∧
    (∀ other, other ≠ isolate →
       PoolImpl.local_pools_ p' !! other = PoolImpl.local_pools_ p !! other) ∧
    PoolImpl.shared_pool_ p' = PoolImpl.shared_pool_ p ∧
    PoolImpl.Size p
    = wrap (PoolImpl.Size p'
            + vec_size (default [] (PoolImpl.local_pools_ p !! isolate))) ∧
    PoolImpl.no_empty_container p' ∧
    PoolImpl.ReleaseLocal p' isolate = Ok ([], p').
Proof.
  intros Hp. pose proof Hp as [Hlocal Hshared]. destruct p as [local shared].
  unfold PoolImpl.ReleaseLocal.
  cbn [PoolImpl.local_pools_ PoolImpl.shared_pool_] in *.
  destruct (local !! isolate) as [entries|] eqn:Hlookup.
  - rewrite empty_false by by eapply Hlocal. rewrite DCHECK_true.
    cbn [mbind outcome_bind negb]. eexists. split; [done|].
    cbn [PoolImpl.set_local PoolImpl.local_pools_ PoolImpl.shared_pool_ default].
    split_and!.
    + apply lookup_delete_eq.
    + intros other Hne. by rewrite lookup_delete_ne.
    + done.
    + rewrite !Size_eq.
      cbn [PoolImpl.set_local PoolImpl.local_pools_ PoolImpl.shared_pool_].
      rewrite (local_count_delete _ _ _ Hlookup), !wrap_add_l. unfold id.
      f_equal. lia.
    + split; [|done]. by apply map_Forall_delete.
    + by rewrite lookup_delete_eq.
  - exists (PoolImpl.mk local shared). split; [done|].
    cbn [PoolImpl.local_pools_ PoolImpl.shared_pool_ default].
    rewrite Hlookup. split_and!; try done.
    rewrite Size_eq, wrap_add_l. f_equal. unfold vec_size. simpl. lia.
Qed.

(** X5. [ReleaseLocal()] hands over the local vectors of all owners,
    each exactly once, and leaves an empty local map and the shared list
    as it was, so that [Size] is then [SharedSize]. [TearDown] then
    returns in every build, handing over the shared batches and leaving a
    pool that holds nothing. *)
Theorem ReleaseLocalAll_then_TearDown p :
  ∃ entries_to_free p',
    PoolImpl.ReleaseLocalAll p = (entries_to_free, p') ∧
    entries_to_free ≡ₚ (map_to_list (PoolImpl.local_pools_ p)).*2 ∧
    PoolImpl.local_pools_ p' = ∅ ∧
    PoolImpl.shared_pool_ p' = PoolImpl.shared_pool_ p ∧
    PoolImpl.Size p' = PoolImpl.SharedSize p ∧
    PoolImpl.TearDown p' = Ok (PoolImpl.shared_pool_ p, PoolImpl.mk ∅ []).
Proof.
  eexists _, _. split; [done|]. destruct p as [local shared].
  cbn [PoolImpl.set_local PoolImpl.local_pools_ PoolImpl.shared_pool_].
  split_and!; try done.
  - rewrite map_fold_foldr.
    induction (map_to_list local) as [|[isolate entries] rest IH]; [done|].
    simpl. rewrite IH. by rewrite <-Permutation_cons_append.
  - unfold PoolImpl.TearDown. cbn [PoolImpl.local_pools_].
    by rewrite bool_decide_eq_true_2, DCHECK_true.
Qed.

End PoolImpl_composition.

(** ** The generic pool: timed release in steps *)

Section PoolImpl_sweeps.
Context {A : Type}.
Implicit Types (tagged : list (InternalTime * A)).

Lemma retained_all release_time tagged :
  (∀ entry, entry ∈ tagged → release_time < entry.1) →
  retained_batches release_time tagged = tagged ∧
  released_batches release_time tagged = [].
Proof.
  unfold retained_batches, released_batches.
  induction tagged as [|entry tagged IH]; intros Hall; [done|].
  assert (release_time < entry.1) by (apply Hall; by left).
  destruct IH as [IHkept IHgone]; [intros ? ?; apply Hall; by right|].
  rewrite filter_cons_True, filter_cons_False by (cbv beta; lia).
  by rewrite IHkept, IHgone.
Qed.

Lemma released_all release_time tagged :
  (∀ entry, entry ∈ tagged → entry.1 ≤ release_time) →
  retained_batches release_time tagged = [] ∧
  released_batches release_time tagged = tagged.
Proof.
  unfold retained_batches, released_batches.
  induction tagged as [|entry tagged IH]; intros Hall; [done|].
  assert (entry.1 ≤ release_time) by (apply Hall; by left).
  destruct IH as [IHkept IHgone]; [intros ? ?; apply Hall; by right|].
  rewrite filter_cons_False, filter_cons_True by (cbv beta; lia).
  by rewrite IHkept, IHgone.
Qed.

Lemma retained_later earlier later tagged :
  earlier ≤ later →
  retained_batches later (retained_batches earlier tagged)
  = retained_batches later tagged.
Proof.
  intros Hle. unfold retained_batches.
  induction tagged as [|entry tagged IH]; [done|].
  destruct (decide (later < entry.1)).
  - rewrite (filter_cons_True (λ entry, earlier < entry.1))
      by (cbv beta; lia).
    rewrite !filter_cons_True by (cbv beta; lia). by rewrite IH.
  - rewrite (filter_cons_False (λ entry, later < entry.1) entry tagged)
      by (cbv beta; lia).
    destruct (decide (earlier < entry.1)).
    + rewrite (filter_cons_True (λ entry, earlier < entry.1))
        by (cbv beta; lia).
      by rewrite filter_cons_False by (cbv beta; lia).
    + by rewrite filter_cons_False by (cbv beta; lia).
Qed.

Lemma released_later earlier later tagged :
  earlier ≤ later →
  released_batches later tagged
  ≡ₚ released_batches earlier tagged
     ++ released_batches later (retained_batches earlier tagged).
Proof.
  intros Hle. unfold retained_batches, released_batches.
  induction tagged as [|entry tagged IH]; [done|].
  destruct (decide (entry.1 ≤ earlier)).
  - rewrite !(filter_cons_True (λ entry, entry.1 ≤ _)) by (cbv beta; lia).
    rewrite filter_cons_False by (cbv beta; lia). simpl. by rewrite IH.
  - rewrite (filter_cons_False (λ entry, entry.1 ≤ earlier))
      by (cbv beta; lia).
    rewrite (filter_cons_True (λ entry, earlier < entry.1))
      by (cbv beta; lia).
    destruct (decide (entry.1 ≤ later)).
    + rewrite !(filter_cons_True (λ entry, entry.1 ≤ later))
        by (cbv beta; lia).
      by rewrite <-Permutation_middle, IH.
    + by rewrite !(filter_cons_False (λ entry, entry.1 ≤ later))
        by (cbv beta; lia).
Qed.

Lemma released_nothing_left earlier later tagged :
  earlier ≤ later →
  released_batches earlier (retained_batches later tagged) = [].
Proof.
  intros Hle. apply retained_all.
  intros entry [Hlater _]%list_elem_of_filter. lia.
Qed.

End PoolImpl_sweeps.

Section PoolImpl_ReleaseUpTo_steps.
Context {PoolEntry : Type}.
Implicit Types (p : PoolImpl.t PoolEntry).

Lemma entries_count_Permutation (shared1 shared2 : list (InternalTime * list PoolEntry)) :
  shared1 ≡ₚ shared2 → entries_count shared1 = entries_count shared2.
Proof.
  intros Hperm. unfold entries_count. f_equal.
  induction Hperm; simpl; lia.
Qed.

(** X6. Timed releases of the generic pool compose: releasing up to T1
    and then up to a later T2 leaves the same pool as releasing up to T2
    at once, hands over the same batches (in another order) and the two
    counts add up (in [size_t]) to the count of the single release. After
    a release up to T2, a release up to any T1 <= T2 finds nothing: it
    returns 0, hands over nothing and leaves the pool as it is. *)
Theorem ReleaseUpTo_in_two_steps p earlier later :
  earlier ≤ later →
  let first := PoolImpl.ReleaseUpTo p earlier in
  let second := PoolImpl.ReleaseUpTo first.2 later in
  let once := PoolImpl.ReleaseUpTo p later in
  second.2 = once.2 ∧
  once.1.2 ≡ₚ first.1.2 ++ second.1.2 ∧
  once.1.1 = wrap (first.1.1 + second.1.1) ∧
  PoolImpl.ReleaseUpTo once.2 earlier = (0, [], once.2).
Proof.
  intros Hle first second once. subst first second once.
  rewrite !ReleaseUpTo_eq. cbn [fst snd PoolImpl.set_shared PoolImpl.shared_pool_
    PoolImpl.local_pools_]. rewrite ?ReleaseUpTo_eq.
  cbn [fst snd PoolImpl.set_shared PoolImpl.shared_pool_ PoolImpl.local_pools_].
  split_and!.
  - by rewrite retained_later.
  - by rewrite (released_later earlier later), fmap_app.
  - rewrite wrap_add_l, wrap_add_r, <-entries_count_app.
    f_equal. by apply entries_count_Permutation, released_later.
  - rewrite released_nothing_left by done.
    destruct (retained_all earlier
      (retained_batches later (PoolImpl.shared_pool_ p))) as [-> _]; [|done].
    intros entry [Hlater _]%list_elem_of_filter. lia.
Qed.

(** X7. When every shared batch is tagged at most T, [ReleaseUpTo(T)]
    does what [ReleaseShared] does: it hands over all the batches, leaves
    the shared list empty and the local map untouched, and returns
    [SharedSize]. When every shared batch is tagged later than T, it
    returns 0, hands over nothing and leaves the pool as it is. *)
Theorem ReleaseUpTo_all_or_nothing p release_time :
  ((∀ batch, batch ∈ PoolImpl.shared_pool_ p → batch.1 ≤ release_time) →
   PoolImpl.ReleaseUpTo p release_time
   = (PoolImpl.SharedSize p, (PoolImpl.ReleaseShared p).1.*2,
      (PoolImpl.ReleaseShared p).2)) ∧
  ((∀ batch, batch ∈ PoolImpl.shared_pool_ p → release_time < batch.1) →
   PoolImpl.ReleaseUpTo p release_time = (0, [], p)).
Proof.
  rewrite ReleaseUpTo_eq, SharedSize_spec. split; intros Hall.
  - by destruct (released_all release_time _ Hall) as [-> ->].
  - destruct (retained_all release_time _ Hall) as [-> ->]. by destruct p.
Qed.

End PoolImpl_ReleaseUpTo_steps.

(** ** The large-page pool in the integers *)

Section LargePagePoolImpl_exact.
Context `{Config}.
Implicit Types (pool : LargePagePoolImpl.t).
Implicit Types (pages : list (InternalTime * LargePageMetadata.t)).
Implicit Types (candidates : list LargePageMetadata.t).

Lemma sizes_sum_nonneg pages :
  Forall (λ entry, 0 ≤ LargePageMetadata.size entry.2) pages →
  0 ≤ sizes_sum pages.
Proof. induction 1 as [|entry pages Hentry _ IH]; simpl; lia. Qed.

Lemma candidates_sum_cons page candidates :
  candidates_sum (page :: candidates)
  = LargePageMetadata.size page + candidates_sum candidates.
Proof. done. Qed.

Lemma max_total_size_range :
  0 ≤ LargePagePoolImpl.max_total_size < size_t_modulus.
Proof. apply wrap_range. Qed.

Lemma large_pool_exact_aggregate_ok pool :
  large_pool_exact pool → aggregate_ok pool.
Proof.
  intros (Hsizes & Htotal & Hbudget). unfold aggregate_ok.
  rewrite ComputeTotalSize_exact; [done..|].
  pose proof max_total_size_range. lia.
Qed.

(** Once the first assertion of [Add] holds, [Add] is its [erase_if]. *)
Lemma Add_eq_erase_if pool candidates time :
  aggregate_ok pool →
  LargePagePoolImpl.Add pool candidates time
  = let '((pool', added_to_pool), rejected) :=
      erase_if (LargePagePoolImpl.Add_pred time LargePagePoolImpl.max_total_size)
               (pool, false) candidates in
    Ok (added_to_pool, rejected, pool').
Proof.
  intros Hok. unfold LargePagePoolImpl.Add.
  rewrite (aggregate_ok_DCHECK _ Hok). cbn [mbind outcome_bind].
  destruct (erase_if_Add time LargePagePoolImpl.max_total_size candidates
              pool false)
    as (admitted & pool' & rejected & -> & _ & _ & _ & _ & _ & Hok' & _).
  by rewrite (aggregate_ok_DCHECK _ (Hok' Hok)).
Qed.

Lemma erase_if_Add_exact time candidates :
  ∀ pool added pool' added' rejected,
    large_pool_exact pool →
    Forall fits_size_t candidates →
    erase_if (LargePagePoolImpl.Add_pred time LargePagePoolImpl.max_total_size)
             (pool, added) candidates
    = ((pool', added'), rejected) →
    large_pool_exact pool' ∧
    LargePagePoolImpl.total_size_ pool ≤ LargePagePoolImpl.total_size_ pool' ∧
    (∀ page, page ∈ rejected →
       LargePagePoolImpl.max_total_size
       < LargePagePoolImpl.total_size_ pool' + LargePageMetadata.size page) ∧
    LargePagePoolImpl.total_size_ pool' + candidates_sum rejected
    = LargePagePoolImpl.total_size_ pool + candidates_sum candidates.
Proof.
  induction candidates as [|page candidates IH];
    intros pool added pool' added' rejected Hexact Hfit.
  - intros [= <- <- <-]. split_and!; try done. intros page Hin.
    by apply elem_of_nil in Hin.
  - apply Forall_cons in Hfit as [[Hpos Hsmall] Hfit].
    pose proof Hexact as (Hsizes & Htotal & Hbudget).
    pose proof (sizes_sum_nonneg _ Hsizes) as Hnonneg.
    pose proof max_total_size_range as Hmax.
    assert (Hwrap : wrap (LargePagePoolImpl.total_size_ pool
                          + LargePageMetadata.size page)
                    = LargePagePoolImpl.total_size_ pool
                      + LargePageMetadata.size page).
    { apply wrap_small. lia. }
    cbn [erase_if]. rewrite Add_pred_spec, Hwrap.
    case_decide as Hadmit;
      destruct (erase_if _ _ candidates) as [[pool1 added1] rejected1] eqn:Hrest;
      intros [= <- <- <-].
    + apply IH in Hrest as (Hexact' & Hgrows & Hrejected & Hsum); [| |done].
      * cbn [LargePagePoolImpl.total_size_] in Hgrows, Hsum.
        split_and!; [done|lia|done|]. rewrite candidates_sum_cons. lia.
      * split_and!; cbn [LargePagePoolImpl.total_size_ LargePagePoolImpl.pages_].
        -- apply Forall_app. split; [done|]. by apply Forall_singleton.
        -- rewrite sizes_sum_app. simpl. lia.
        -- lia.
    + apply IH in Hrest as (Hexact' & Hgrows & Hrejected & Hsum); [|done..].
      split_and!; [done..| |].
      * intros page' [->|Hin]%elem_of_cons; [lia|by apply Hrejected].
      * rewrite !candidates_sum_cons. lia.
Qed.

Lemma large_pool_exact_Remove pool chunk_size result pool' :
  large_pool_exact pool →
  LargePagePoolImpl.Remove pool chunk_size = Ok (result, pool') →
  large_pool_exact pool' ∧
  LargePagePoolImpl.total_size_ pool' ≤ LargePagePoolImpl.total_size_ pool.
Proof.
  intros Hexact Heq. pose proof Hexact as (Hsizes & Htotal & Hbudget).
  destruct (Remove_spec pool chunk_size (large_pool_exact_aggregate_ok _ Hexact))
    as (result' & pool'' & Heq' & _ & Hresult).
  rewrite Heq in Heq'. injection Heq' as <- <-.
  destruct result as [page|]; [|by destruct Hresult as [_ ->]].
  destruct Hresult as (position & time & (Hlookup & _) & Hpages & Htotal').
  pose proof (sizes_sum_delete _ _ _ Hlookup) as Hsplit. simpl in Hsplit.
  pose proof (Forall_delete _ _ position Hsizes) as Hsizes'.
  pose proof (sizes_sum_nonneg _ Hsizes') as Hnonneg.
  apply (Forall_lookup_1 _ _ _ _ Hsizes) in Hlookup. simpl in Hlookup.
  pose proof max_total_size_range as Hmax.
  rewrite wrap_small in Htotal' by lia.
  unfold large_pool_exact. rewrite Hpages, Htotal'. split_and!; [done|lia..].
Qed.

Lemma large_pool_exact_ReleaseUpTo pool release_time :
  large_pool_exact pool →
  ∃ entries_to_free pool',
    LargePagePoolImpl.ReleaseUpTo pool release_time
    = Ok (0, entries_to_free, pool') ∧
    large_pool_exact pool' ∧
    LargePagePoolImpl.total_size_ pool' ≤ LargePagePoolImpl.total_size_ pool.
Proof.
  intros Hexact. pose proof Hexact as (Hsizes & Htotal & Hbudget).
  destruct (large_ReleaseUpTo_spec pool release_time
              (large_pool_exact_aggregate_ok _ Hexact)) as [Heq _].
  eexists _, _. split; [exact Heq|].
  pose proof (sizes_sum_split release_time (LargePagePoolImpl.pages_ pool))
    as Hsplit.
  assert (Hgone : Forall (λ entry, 0 ≤ LargePageMetadata.size entry.2)
                    (released_batches release_time (LargePagePoolImpl.pages_ pool))).
  { apply Forall_forall. intros entry [_ Hin]%list_elem_of_filter.
    by eapply Forall_forall in Hsizes. }
  assert (Hkept : Forall (λ entry, 0 ≤ LargePageMetadata.size entry.2)
                    (retained_batches release_time (LargePagePoolImpl.pages_ pool))).
  { apply Forall_forall. intros entry [_ Hin]%list_elem_of_filter.
    by eapply Forall_forall in Hsizes. }
  pose proof (sizes_sum_nonneg _ Hgone). pose proof (sizes_sum_nonneg _ Hkept).
  pose proof max_total_size_range as Hmax.
  unfold large_pool_exact.
  cbn [LargePagePoolImpl.total_size_ LargePagePoolImpl.pages_].
  rewrite wrap_small by lia. split_and!; [done|lia..].
Qed.

(** X8. Read in the integers, the large-page pool never leaves its
    budget. If the sizes of the retained pages are non-negative, the
    aggregate is their plain sum and it is within [max_total_size], then
    the same holds after [Add] of candidates with sizes of real memory,
    after [Remove], after [ReleaseAll] and after [ReleaseUpTo], none of
    which hits a fatal assertion; [Remove] and [ReleaseUpTo] never raise
    the aggregate. After [Add], every candidate left in the caller's
    vector is one that the pool as it then stands has no room for, and
    the aggregate grew by exactly the sizes of the candidates taken. *)
Theorem large_pool_stays_within_budget pool :
  large_pool_exact pool →
  (∀ candidates time,
     Forall fits_size_t candidates →
     ∃ added_to_pool rejected pool',
       LargePagePoolImpl.Add pool candidates time
       = Ok (added_to_pool, rejected, pool') ∧
       large_pool_exact pool' ∧
       (∀ page, page ∈ rejected →
          LargePagePoolImpl.max_total_size
          < LargePagePoolImpl.total_size_ pool' + LargePageMetadata.size page) ∧
       LargePagePoolImpl.total_size_ pool' + candidates_sum rejected
       = LargePagePoolImpl.total_size_ pool + candidates_sum candidates) ∧
  (∀ chunk_size, ∃ result pool',
     LargePagePoolImpl.Remove pool chunk_size = Ok (result, pool') ∧
     large_pool_exact pool' ∧
     LargePagePoolImpl.total_size_ pool' ≤ LargePagePoolImpl.total_size_ pool) ∧
  large_pool_exact (LargePagePoolImpl.ReleaseAll pool).2 ∧
  (∀ release_time, ∃ freed entries_to_free pool',
     LargePagePoolImpl.ReleaseUpTo pool release_time
     = Ok (freed, entries_to_free, pool') ∧
     large_pool_exact pool' ∧
     LargePagePoolImpl.total_size_ pool' ≤ LargePagePoolImpl.total_size_ pool).
Proof.
  intros Hexact. pose proof (large_pool_exact_aggregate_ok _ Hexact) as Hok.
  split_and!.
  - intros candidates time Hfit. rewrite Add_eq_erase_if by done.
    destruct (erase_if _ _ candidates) as [[pool' added] rejected] eqn:Hrun.
    apply erase_if_Add_exact in Hrun as (Hexact' & _ & Hrejected & Hsum);
      [|done..].
    by exists added, rejected, pool'.
  - intros chunk_size.
    destruct (Remove_spec pool chunk_size Hok) as (result & pool' & Heq & _).
    exists result, pool'. split; [done|].
    by eapply large_pool_exact_Remove.
  - split_and!; simpl; [done..|]. apply max_total_size_range.
  - intros release_time.
    destruct (large_pool_exact_ReleaseUpTo pool release_time Hexact)
      as (entries_to_free & pool' & Heq & Hexact' & Hle).
    by exists 0, entries_to_free, pool'.
Qed.

Lemma erase_if_Add_all time candidates :
  ∀ pool added,
    large_pool_exact pool →
    Forall fits_size_t candidates →
    LargePagePoolImpl.total_size_ pool + candidates_sum candidates
    ≤ LargePagePoolImpl.max_total_size →
    erase_if (LargePagePoolImpl.Add_pred time LargePagePoolImpl.max_total_size)
             (pool, added) candidates
    = (({| LargePagePoolImpl.pages_ :=
             LargePagePoolImpl.pages_ pool
             ++ ((λ page, (time, page)) <$> candidates);
           LargePagePoolImpl.total_size_ :=
             LargePagePoolImpl.total_size_ pool + candidates_sum candidates |},
        added || negb (empty candidates)), []).
Proof.
  induction candidates as [|page candidates IH];
    intros pool added Hexact Hfit Hroom.
  - simpl. rewrite app_nil_r, Z.add_0_r, orb_false_r. by destruct pool.
  - apply Forall_cons in Hfit as [[Hpos Hsmall] Hfit].
    pose proof Hexact as (Hsizes & Htotal & Hbudget).
    pose proof (sizes_sum_nonneg _ Hsizes) as Hnonneg.
    pose proof max_total_size_range as Hmax.
    assert (0 ≤ candidates_sum candidates) as Hrest.
    { clear -Hfit. induction Hfit as [|? ? [? _] _ IHfit]; simpl; lia. }
    rewrite candidates_sum_cons in Hroom.
    cbn [erase_if]. rewrite Add_pred_spec, wrap_small by lia.
    rewrite decide_True by lia. rewrite IH; [| |done|].
    + cbn [LargePagePoolImpl.pages_ LargePagePoolImpl.total_size_ empty negb].
      rewrite orb_true_r, candidates_sum_cons, <-app_assoc, Z.add_assoc.
      done.
    + split_and!; cbn [LargePagePoolImpl.total_size_ LargePagePoolImpl.pages_].
      * apply Forall_app. split; [done|]. by apply Forall_singleton.
      * rewrite sizes_sum_app. simpl. lia.
      * lia.
    + cbn [LargePagePoolImpl.total_size_]. lia.
Qed.

Lemma erase_if_Add_none time candidates :
  ∀ pool added,
    large_pool_exact pool →
    Forall fits_size_t candidates →
    (∀ page, page ∈ candidates →
       LargePagePoolImpl.max_total_size
       < LargePagePoolImpl.total_size_ pool + LargePageMetadata.size page) →
    erase_if (LargePagePoolImpl.Add_pred time LargePagePoolImpl.max_total_size)
             (pool, added) candidates
    = ((pool, added), candidates).
Proof.
  induction candidates as [|page candidates IH];
    intros pool added Hexact Hfit Hfull; [done|].
  apply Forall_cons in Hfit as [[Hpos Hsmall] Hfit].
  pose proof Hexact as (Hsizes & Htotal & Hbudget).
  pose proof (sizes_sum_nonneg _ Hsizes) as Hnonneg.
  pose proof max_total_size_range as Hmax.
  pose proof (Hfull page ltac:(by left)) as Hpage.
  cbn [erase_if]. rewrite Add_pred_spec, wrap_small by lia.
  rewrite decide_False by lia. rewrite IH; [done..|].
  intros page' Hin. apply Hfull. by right.
Qed.

(** X9. [Add] at its two ends, for a pool read in the integers and
    candidates with sizes of real memory. When the aggregate plus the
    sizes of all the candidates is within the budget, every candidate is
    admitted, in order and tagged with the call's time, the caller's
    vector is left empty and the aggregate grows by the sum of their
    sizes. When each candidate alone would exceed the budget, none is
    admitted: the result is false, the pool is unchanged and the caller
    keeps its vector as it was. *)
Theorem Add_admits_all_or_none pool candidates time :
  large_pool_exact pool →
  Forall fits_size_t candidates →
  (LargePagePoolImpl.total_size_ pool + candidates_sum candidates
   ≤ LargePagePoolImpl.max_total_size →
   LargePagePoolImpl.Add pool candidates time
   = Ok (negb (empty candidates), [],
         {| LargePagePoolImpl.pages_ :=
              LargePagePoolImpl.pages_ pool
              ++ ((λ page, (time, page)) <$> candidates);
            LargePagePoolImpl.total_size_ :=
              LargePagePoolImpl.total_size_ pool + candidates_sum candidates |})) ∧
  ((∀ page, page ∈ candidates →
      LargePagePoolImpl.max_total_size
      < LargePagePoolImpl.total_size_ pool + LargePageMetadata.size page) →
   LargePagePoolImpl.Add pool candidates time = Ok (false, candidates, pool)).
Proof.
  intros Hexact Hfit.
  pose proof (large_pool_exact_aggregate_ok _ Hexact) as Hok.
  rewrite Add_eq_erase_if by done. split.
  - intros Hroom. by rewrite erase_if_Add_all.
  - intros Hfull. by rewrite erase_if_Add_none.
Qed.

(** X10. Admission followed by removal. In a pool whose aggregate is
    consistent, a page that fits the budget is admitted by [Add]; a
    [Remove] for exactly its size then returns a page of that very size.
    If no page retained before had that size, the page returned is the
    one just admitted and the pool is back to what it was. *)
Theorem Add_then_Remove pool page time :
  aggregate_ok pool →
  wrap (LargePagePoolImpl.total_size_ pool + LargePageMetadata.size page)
  ≤ LargePagePoolImpl.max_total_size →
  ∃ pool1 page' pool2,
    LargePagePoolImpl.Add pool [page] time = Ok (true, [], pool1) ∧
    LargePagePoolImpl.Remove pool1 (LargePageMetadata.size page)
    = Ok (Some page', pool2) ∧
    LargePageMetadata.size page' = LargePageMetadata.size page ∧
    ((∀ entry, entry ∈ LargePagePoolImpl.pages_ pool →
        LargePageMetadata.size entry.2 ≠ LargePageMetadata.size page) →
     page' = page ∧ pool2 = pool).
Proof.
  intros Hok Hroom. rewrite Add_eq_erase_if by done.
  cbn [erase_if]. rewrite Add_pred_spec, decide_True by done.
  set (pool1 := {| LargePagePoolImpl.total_size_ := _;
                   LargePagePoolImpl.pages_ := _ |}).
  assert (Hok1 : aggregate_ok pool1) by by apply aggregate_ok_admit.
  destruct (Remove_spec pool1 (LargePageMetadata.size page) Hok1)
    as (result & pool2 & Heq & _ & Hresult).
  assert (Hmine : LargePagePoolImpl.pages_ pool1
                    !! length (LargePagePoolImpl.pages_ pool)
                  = Some (time, page)).
  { subst pool1. simpl. by apply list_lookup_middle. }
  destruct result as [page'|].
  - destruct Hresult as (position & time' & (Hlookup & Hfits & Hmin)
                         & Hpages & Htotal).
    exists pool1, page', pool2. split_and!; [done..| |].
    + destruct (Hmin _ _ Hmine) as [Hle _]; simpl in *; lia.
    + intros Hfresh. subst pool1. simpl in Hlookup.
      apply lookup_snoc_Some in Hlookup as [[_ Hold]|[-> [= <- <-]]].
      * apply list_elem_of_lookup_2, Hfresh in Hold.
        destruct (Hmin _ _ Hmine) as [Hle _]; simpl in *; lia.
      * split; [done|]. destruct pool as [pages total], pool2 as [pages2 total2].
        simpl in *. subst pages2 total2.
        rewrite (delete_middle pages [] (time, page)), app_nil_r.
        f_equal. rewrite wrap_sub_l, Z.add_simpl_r.
        by apply (aggregate_ok_wrapped (LargePagePoolImpl.mk pages total)).
  - destruct Hresult as [Hall _].
    apply list_elem_of_lookup_2, Hall in Hmine. simpl in Hmine. lia.
Qed.

End LargePagePoolImpl_exact.

(** ** The facade: immediate release, large pages and the clock *)

Section PagePool_facade.
Context `{Config}.
Implicit Types (pool : PagePool.t) (isolate : Isolate) (group : list Isolate).

Lemma ReleaseLocal_eq {PoolEntry} (p : PoolImpl.t PoolEntry) isolate :
  PoolImpl.no_empty_container p →
  PoolImpl.ReleaseLocal p isolate
  = Ok (default [] (PoolImpl.local_pools_ p !! isolate),
        PoolImpl.mk (delete isolate (PoolImpl.local_pools_ p))
                    (PoolImpl.shared_pool_ p)).
Proof.
  intros [Hlocal _]. unfold PoolImpl.ReleaseLocal.
  destruct (PoolImpl.local_pools_ p !! isolate) as [entries|] eqn:Hlookup.
  - rewrite empty_false by by eapply Hlocal. by rewrite DCHECK_true.
  - rewrite delete_id by done. by destruct p.
Qed.

Lemma ReleaseImmediately_eq pool isolate :
  PoolImpl.no_empty_container (PagePool.page_pool_ pool) →
  PoolImpl.no_empty_container (PagePool.zone_pool_ pool) →
  PagePool.ReleaseImmediately pool isolate
  = Ok (PagePool.free_pages
          (default [] (PoolImpl.local_pools_ (PagePool.page_pool_ pool) !! isolate))
        ++ PagePool.free_reservations
             (default [] (PoolImpl.local_pools_ (PagePool.zone_pool_ pool) !! isolate))
        ++ PagePool.free_large
             (LargePagePoolImpl.pages_ (PagePool.large_pool_ pool)),
        {| PagePool.page_pool_ :=
             PoolImpl.mk
               (delete isolate (PoolImpl.local_pools_ (PagePool.page_pool_ pool)))
               (PoolImpl.shared_pool_ (PagePool.page_pool_ pool));
           PagePool.zone_pool_ :=
             PoolImpl.mk
               (delete isolate (PoolImpl.local_pools_ (PagePool.zone_pool_ pool)))
               (PoolImpl.shared_pool_ (PagePool.zone_pool_ pool));
           PagePool.large_pool_ := LargePagePoolImpl.mk [] 0;
           PagePool.next_time_ := PagePool.next_time_ pool |}).
Proof.
  intros Hpages Hzones. unfold PagePool.ReleaseImmediately.
  rewrite ReleaseLocal_eq by done.
  cbn [mbind outcome_bind PagePool.set_page_pool PagePool.zone_pool_].
  by rewrite ReleaseLocal_eq by done.
Qed.

(** A [Get] by one isolate neither reads nor writes the local vector of
    another. *)
Lemma Get_delete_other {PoolEntry} (p p1 : PoolImpl.t PoolEntry)
    isolate peer result :
  peer ≠ isolate →
  PoolImpl.Get p peer = Ok (result, p1) →
  PoolImpl.Get
    (PoolImpl.mk (delete isolate (PoolImpl.local_pools_ p))
                 (PoolImpl.shared_pool_ p)) peer
  = Ok (result,
        PoolImpl.mk (delete isolate (PoolImpl.local_pools_ p1))
                    (PoolImpl.shared_pool_ p1)).
Proof.
  intros Hne. unfold PoolImpl.Get.
  destruct (DCHECK_NOT_NULL peer) as [[]|]; [|done].
  cbn [mbind outcome_bind PoolImpl.local_pools_ PoolImpl.shared_pool_].
  rewrite lookup_delete_ne by done.
  destruct (PoolImpl.local_pools_ p !! peer) as [entries|].
  - destruct (DCHECK (negb (empty entries))) as [[]|]; [|done].
    cbn [mbind outcome_bind].
    destruct (back entries) as [local_entry|]; intros [= <- <-]; [|done].
    cbn [PoolImpl.set_local PoolImpl.local_pools_ PoolImpl.shared_pool_].
    destruct (empty (pop_back entries)).
    + by rewrite delete_delete.
    + by rewrite delete_insert_ne.
  - destruct (back (PoolImpl.shared_pool_ p)) as [[time shared_entries]|];
      [|by intros [= <- <-]].
    destruct (back shared_entries) as [shared_entry|]; by intros [= <- <-].
Qed.

(** X11. With sharing on teardown disabled, for a pool whose page and
    zone sub-pools hold no empty container, [ReleaseOnTearDown] returns
    what [ReleaseImmediately] returns, whatever the group, and without a
    fatal assertion. Its effects are exactly: [DeletePage] for every page
    in the isolate's local vector, then [FreeReservation] for every zone
    reservation in its local vector, then [DeleteLargePage] for every
    large page; no task is posted. The isolate's keys are erased, the
    large-page pool is emptied, and both shared lists and the clock are
    as they were. Nothing of the departing isolate reaches a peer: for
    any other isolate, [GetCount] is unchanged and a [Remove] returns
    after the teardown the page it would have returned before. *)
Theorem ReleaseOnTearDown_without_sharing pool group isolate :
  memory_pool_share_memory_on_teardown v8_flags = false →
  PoolImpl.no_empty_container (PagePool.page_pool_ pool) →
  PoolImpl.no_empty_container (PagePool.zone_pool_ pool) →
  let pages :=
    default [] (PoolImpl.local_pools_ (PagePool.page_pool_ pool) !! isolate) in
  let zones :=
    default [] (PoolImpl.local_pools_ (PagePool.zone_pool_ pool) !! isolate) in
  let large := LargePagePoolImpl.pages_ (PagePool.large_pool_ pool) in
  ∃ effects pool',
    PagePool.ReleaseOnTearDown pool group isolate = Ok (effects, pool') ∧
    PagePool.ReleaseImmediately pool isolate = Ok (effects, pool') ∧
    effects
    = (PagePool.DeletePage <$> omap id pages)
      ++ (PagePool.FreeReservation <$> zones)
      ++ (PagePool.DeleteLargePage <$> large.*2) ∧
    (∀ chunk, Some chunk ∈ pages → PagePool.DeletePage chunk ∈ effects) ∧
    (∀ reservation,
       reservation ∈ zones → PagePool.FreeReservation reservation ∈ effects) ∧
    (∀ entry, entry ∈ large → PagePool.DeleteLargePage entry.2 ∈ effects) ∧
    pool'
    = {| PagePool.page_pool_ :=
           PoolImpl.mk
             (delete isolate (PoolImpl.local_pools_ (PagePool.page_pool_ pool)))
             (PoolImpl.shared_pool_ (PagePool.page_pool_ pool));
         PagePool.zone_pool_ :=
           PoolImpl.mk
             (delete isolate (PoolImpl.local_pools_ (PagePool.zone_pool_ pool)))
             (PoolImpl.shared_pool_ (PagePool.zone_pool_ pool));
         PagePool.large_pool_ := LargePagePoolImpl.mk [] 0;
         PagePool.next_time_ := PagePool.next_time_ pool |} ∧
    PagePool.GetCount pool' isolate = 0 ∧
    PagePool.GetSharedCount pool' = PagePool.GetSharedCount pool ∧
    (∀ peer,
       peer ≠ isolate →
       PagePool.GetCount pool' peer = PagePool.GetCount pool peer ∧
       ∀ result pool1,
         PagePool.Remove pool peer = Ok (result, pool1) →
         ∃ pool1', PagePool.Remove pool' peer = Ok (result, pool1')).
Proof.
  intros Hflag Hpages Hzones pages zones large.
  eexists _, _. split_and!.
  - unfold PagePool.ReleaseOnTearDown. rewrite Hflag. cbn [negb].
    by apply ReleaseImmediately_eq.
  - by apply ReleaseImmediately_eq.
  - unfold PagePool.free_pages, PagePool.free_reservations.
    by rewrite free_large_eq.
  - intros chunk Hchunk. apply elem_of_app. left. unfold PagePool.free_pages.
    apply list_elem_of_fmap_2, list_elem_of_omap. by exists (Some chunk).
  - intros reservation Hreservation. rewrite !elem_of_app. right. left.
    by apply list_elem_of_fmap_2.
  - intros entry Hentry. rewrite !elem_of_app. right. right.
    rewrite free_large_eq. by apply list_elem_of_fmap_2, list_elem_of_fmap_2.
  - done.
  - unfold PagePool.GetCount. cbn [PagePool.page_pool_].
    apply LocalSize_delete_eq.
  - done.
  - intros peer Hne. split.
    + unfold PagePool.GetCount. cbn [PagePool.page_pool_].
      rewrite LocalSize_delete_ne by done. by destruct (PagePool.page_pool_ pool).
    + intros result pool1. unfold PagePool.Remove.
      destruct (DCHECK_NOT_NULL peer) as [[]|]; [|done].
      cbn [mbind outcome_bind PagePool.page_pool_].
      destruct (PoolImpl.Get (PagePool.page_pool_ pool) peer)
        as [[got page_pool]|] eqn:Hget; [|done].
      rewrite (Get_delete_other _ _ isolate _ _ Hne Hget).
      cbn [mbind outcome_bind].
      destruct got as [page_memory|]; intros [= <- _]; by eexists.
Qed.

(** The tasks that an effect list posts. *)
Lemma large_task_releases pool isolate time :
  aggregate_ok (PagePool.large_pool_ pool) →
  PagePool.RunInternal pool (PagePool.ReleasePooledLargeChunksTask isolate time)
  = Ok (PagePool.free_large_pages
          (released_batches time
             (LargePagePoolImpl.pages_ (PagePool.large_pool_ pool))).*2,
        PagePool.set_large_pool
          {| LargePagePoolImpl.pages_ :=
               retained_batches time
                 (LargePagePoolImpl.pages_ (PagePool.large_pool_ pool));
             LargePagePoolImpl.total_size_ :=
               wrap (LargePagePoolImpl.total_size_ (PagePool.large_pool_ pool)
                     - sizes_sum
                         (released_batches time
                            (LargePagePoolImpl.pages_ (PagePool.large_pool_ pool)))) |}
          pool).
Proof.
  intros Hok. unfold PagePool.RunInternal.
  destruct (large_ReleaseUpTo_spec _ time Hok) as [-> _]. done.
Qed.

(** X12. [AddLarge] on a pool whose large-page aggregate is consistent
    returns without a fatal assertion. It stamps the call with the clock
    value T and advances the clock; the candidates split into those
    admitted, appended to the large pool with tag T, and those left to
    the caller; the page and zone sub-pools are untouched. Exactly when
    something was admitted and the timeout flag is positive, one
    [ReleasePooledLargeChunksTask] for T is posted, with the timeout as
    delay, to the isolate's runner if [single_threaded] and to a worker
    thread otherwise. Running that task on the resulting pool deletes
    every page admitted by the call and leaves no large page tagged T or
    earlier. *)
Theorem AddLarge_posts_its_release pool isolate candidates :
  aggregate_ok (PagePool.large_pool_ pool) →
  let time := PagePool.next_time_ pool in
  let task := PagePool.ReleasePooledLargeChunksTask isolate time in
  let timeout := large_page_pool_timeout v8_flags in
  ∃ admitted rejected pool',
    PagePool.AddLarge pool isolate candidates
    = Ok (if negb (empty admitted) && (timeout >? 0)
          then [if single_threaded v8_flags
                then PagePool.PostDelayedTask isolate task timeout
                else PagePool.PostDelayedTaskOnWorkerThread task timeout]
          else [],
          rejected, pool') ∧
    candidates ≡ₚ admitted ++ rejected ∧
    LargePagePoolImpl.pages_ (PagePool.large_pool_ pool')
    = LargePagePoolImpl.pages_ (PagePool.large_pool_ pool)
      ++ ((λ page, (time, page)) <$> admitted) ∧
    PagePool.next_time_ pool' = wrap (time + 1) ∧
    PagePool.page_pool_ pool' = PagePool.page_pool_ pool ∧
    PagePool.zone_pool_ pool' = PagePool.zone_pool_ pool ∧
    ∃ effects pool'',
      PagePool.RunInternal pool' task = Ok (effects, pool'') ∧
      (∀ page, page ∈ admitted → PagePool.DeleteLargePage page ∈ effects) ∧
      Forall (λ entry, time < entry.1)
             (LargePagePoolImpl.pages_ (PagePool.large_pool_ pool'')) ∧
      PagePool.page_pool_ pool'' = PagePool.page_pool_ pool ∧
      PagePool.zone_pool_ pool'' = PagePool.zone_pool_ pool.
Proof.
  intros Hok time task timeout.
  destruct (Add_spec (PagePool.large_pool_ pool) candidates time Hok)
    as (admitted & rejected & large' & Heq & Hpages & Hperm & _ & _ & _
        & Hok' & _).
  exists admitted, rejected. eexists. split.
  { unfold PagePool.AddLarge, PagePool.fetch_add_next_time.
    cbn [PagePool.large_pool_]. fold time. rewrite Heq.
    cbn [mbind outcome_bind]. fold timeout task.
    by destruct (single_threaded v8_flags). }
  cbn [PagePool.set_large_pool PagePool.large_pool_ PagePool.next_time_
       PagePool.page_pool_ PagePool.zone_pool_].
  split_and!; try done.
  eexists _, _. split.
  { subst task. apply large_task_releases.
    by cbn [PagePool.large_pool_]. }
  cbn [PagePool.set_large_pool PagePool.large_pool_ PagePool.next_time_
       PagePool.page_pool_ PagePool.zone_pool_ LargePagePoolImpl.pages_].
  split_and!; try done.
  - intros page Hin. unfold PagePool.free_large_pages.
    apply list_elem_of_fmap_2, list_elem_of_fmap. exists (time, page).
    split; [done|]. apply list_elem_of_filter. split; [simpl; lia|].
    rewrite Hpages. apply elem_of_app. right. by apply list_elem_of_fmap_2.
  - apply Forall_forall. by intros entry [Hlater _]%list_elem_of_filter.
Qed.

End PagePool_facade.

(** ** The facade: deferred release and reuse by a peer *)

Section PagePool_deferred.
Context `{Config}.
Implicit Types (pool : PagePool.t) (isolate : Isolate) (group : list Isolate).

Lemma bind_free_pages (batches : list (list PagePool.PageMemory)) :
  batches ≫= PagePool.free_pages
  = PagePool.DeletePage <$> omap id (concat batches).
Proof.
  unfold PagePool.free_pages.
  induction batches as [|batch batches IH]; [done|].
  rewrite bind_cons, IH. cbn [concat]. by rewrite omap_app, fmap_app.
Qed.

Lemma length_omap_id {A} (entries : list (option A)) :
  Forall is_Some entries → length (omap id entries) = length entries.
Proof.
  induction 1 as [|entry entries [chunk ->] _ IH]; [done|].
  change (omap id (Some chunk :: entries)) with (chunk :: omap id entries).
  cbn [length]. by rewrite IH.
Qed.

Lemma bind_free_reservations (batches : list (list VirtualMemory.t)) :
  batches ≫= PagePool.free_reservations
  = PagePool.FreeReservation <$> concat batches.
Proof.
  induction batches as [|batch batches IH]; [done|].
  rewrite bind_cons, IH. simpl. by rewrite fmap_app.
Qed.

Lemma entries_count_concat {A} (batches : list (InternalTime * list A)) :
  entries_count batches = Z.of_nat (length (concat batches.*2)).
Proof.
  induction batches as [|batch batches IH]; [done|].
  rewrite entries_count_cons, IH, fmap_cons. unfold vec_size.
  cbn [concat]. rewrite length_app. lia.
Qed.

Lemma PagePool_ReleaseUpTo_eq pool isolate_for_printing release_time :
  let pages :=
    released_batches release_time
      (PoolImpl.shared_pool_ (PagePool.page_pool_ pool)) in
  let zones :=
    released_batches release_time
      (PoolImpl.shared_pool_ (PagePool.zone_pool_ pool)) in
  PagePool.ReleaseUpTo pool isolate_for_printing release_time
  = ((PagePool.DeletePage <$> omap id (concat pages.*2))
     ++ (PagePool.FreeReservation <$> concat zones.*2)
     ++ (if trace_gc_nvp v8_flags
         then [PagePool.PrintWithTimestamp isolate_for_printing
                 (wrap (entries_count pages)) (wrap (entries_count zones))]
         else []),
     {| PagePool.page_pool_ :=
          PoolImpl.mk (PoolImpl.local_pools_ (PagePool.page_pool_ pool))
            (retained_batches release_time
               (PoolImpl.shared_pool_ (PagePool.page_pool_ pool)));
        PagePool.zone_pool_ :=
          PoolImpl.mk (PoolImpl.local_pools_ (PagePool.zone_pool_ pool))
            (retained_batches release_time
               (PoolImpl.shared_pool_ (PagePool.zone_pool_ pool)));
        PagePool.large_pool_ := PagePool.large_pool_ pool;
        PagePool.next_time_ := PagePool.next_time_ pool |}).
Proof.
  intros pages zones. unfold PagePool.ReleaseUpTo.
  rewrite ReleaseUpTo_eq.
  cbn [PagePool.set_page_pool PagePool.zone_pool_]. rewrite ReleaseUpTo_eq.
  by rewrite bind_free_pages, bind_free_reservations.
Qed.

(** X13. [PagePool::ReleaseUpTo] releases from the two shared lists
    only: the batches tagged at most T of the page and zone sub-pools are
    deleted, the later ones are kept in order, and the local maps, the
    large-page pool and the clock are untouched. Every page held by a
    released batch is deleted and every reservation of a released batch
    is freed. With [trace_gc_nvp] set, one trace line follows the
    releases and reports, in [size_t], how many page entries and how many
    zone reservations this call released; otherwise nothing is printed.
    The number of page entries is the number of pages deleted when no
    released entry holds a null page. *)
Theorem PagePool_ReleaseUpTo_releases_shared_only pool isolate release_time :
  let released_pages :=
    concat (filter (λ batch, batch.1 ≤ release_time)
              (PoolImpl.shared_pool_ (PagePool.page_pool_ pool))).*2 in
  ∃ page_releases zone_releases pool',
    PagePool.ReleaseUpTo pool isolate release_time
    = (page_releases ++ zone_releases
       ++ (if trace_gc_nvp v8_flags
           then [PagePool.PrintWithTimestamp isolate
                   (wrap (Z.of_nat (length released_pages)))
                   (wrap (Z.of_nat (length zone_releases)))]
           else []),
       pool') ∧
    page_releases = PagePool.DeletePage <$> omap id released_pages ∧
    (Forall is_Some released_pages →
     length page_releases = length released_pages) ∧
    (∀ chunk,
       Some chunk ∈ released_pages → PagePool.DeletePage chunk ∈ page_releases) ∧
    zone_releases
    = PagePool.FreeReservation
      <$> concat (filter (λ batch, batch.1 ≤ release_time)
                    (PoolImpl.shared_pool_ (PagePool.zone_pool_ pool))).*2 ∧
    PoolImpl.shared_pool_ (PagePool.page_pool_ pool')
    = filter (λ batch, release_time < batch.1)
        (PoolImpl.shared_pool_ (PagePool.page_pool_ pool)) ∧
    PoolImpl.shared_pool_ (PagePool.zone_pool_ pool')
    = filter (λ batch, release_time < batch.1)
        (PoolImpl.shared_pool_ (PagePool.zone_pool_ pool)) ∧
    PoolImpl.local_pools_ (PagePool.page_pool_ pool')
    = PoolImpl.local_pools_ (PagePool.page_pool_ pool) ∧
    PoolImpl.local_pools_ (PagePool.zone_pool_ pool')
    = PoolImpl.local_pools_ (PagePool.zone_pool_ pool) ∧
    PagePool.large_pool_ pool' = PagePool.large_pool_ pool ∧
    PagePool.next_time_ pool' = PagePool.next_time_ pool.
Proof.
  intros released_pages. eexists _, _, _. split.
  { rewrite PagePool_ReleaseUpTo_eq. cbv zeta.
    rewrite !entries_count_concat,
      <-!(length_fmap PagePool.FreeReservation). reflexivity. }
  split_and!; try done.
  - intros Hsome. by rewrite length_fmap, length_omap_id.
  - intros chunk Hchunk. apply list_elem_of_fmap_2, list_elem_of_omap.
    by exists (Some chunk).
Qed.

(** X14. Reuse by a peer. With sharing enabled, when an isolate that
    holds local pages tears down while the group has another isolate, a
    release task for the clock value T is posted to a peer and nothing of
    the isolate's is deleted; a peer that has no local pages then gets,
    from its next [Remove], the page the isolate admitted last. When the
    posted task later runs, it deletes every other page the isolate had
    and leaves no shared page batch tagged T or earlier. *)
Theorem peer_reuses_migrated_page pool group isolate peer entries page :
  memory_pool_share_memory_on_teardown v8_flags = true →
  PoolImpl.no_empty_container (PagePool.page_pool_ pool) →
  PoolImpl.no_empty_container (PagePool.zone_pool_ pool) →
  PoolImpl.local_pools_ (PagePool.page_pool_ pool) !! isolate
  = Some (entries ++ [Some page]) →
  peer ∈ group → peer ≠ isolate → peer ≠ nullptr →
  PoolImpl.local_pools_ (PagePool.page_pool_ pool) !! peer = None →
  let time := PagePool.next_time_ pool in
  ∃ target_isolate pool' pool'',
    target_isolate ∈ group ∧ target_isolate ≠ isolate ∧
    PagePool.ReleaseOnTearDown pool group isolate
    = Ok (PagePool.PostDelayedTask target_isolate
            (PagePool.ReleasePooledChunksTask target_isolate time) 8
          :: (PagePool.DeleteLargePage
              <$> (LargePagePoolImpl.pages_ (PagePool.large_pool_ pool)).*2),
          pool') ∧
    PagePool.GetCount pool' isolate = 0 ∧
    PagePool.Remove pool' peer = Ok (Some page, pool'') ∧
    ∃ effects pool''',
      PagePool.RunInternal pool''
        (PagePool.ReleasePooledChunksTask target_isolate time)
      = Ok (effects, pool''') ∧
      (∀ chunk, Some chunk ∈ entries → PagePool.DeletePage chunk ∈ effects) ∧
      Forall (λ batch, time < batch.1)
             (PoolImpl.shared_pool_ (PagePool.page_pool_ pool''')).
Proof.
  intros Hflag Hpages Hzones Hlocal Hpeer Hne Hnull Hnone time.
  pose proof (ReleaseOnTearDown_eq pool group isolate Hflag Hpages Hzones)
    as Heq. cbv zeta in Heq. rewrite free_large_eq in Heq. fold time in Heq.
  destruct (find_peer_is_Some group isolate) as [target Hfind]; [by eauto|].
  rewrite Hfind in Heq. apply find_peer_some in Hfind as [Hin Htarget].
  unfold migrated_batch in Heq at 1 3. rewrite Hlocal in Heq.
  rewrite (empty_snoc (PoolImpl.shared_pool_ (PagePool.page_pool_ pool))) in Heq.
  cbn [negb orb app] in Heq.
  exists target. eexists _, _. split_and!; [done..|exact Heq| | |].
  - unfold PagePool.GetCount. cbn [PagePool.page_pool_].
    apply LocalSize_delete_eq.
  - unfold PagePool.Remove. rewrite DCHECK_NOT_NULL_ok by done.
    cbn [mbind outcome_bind PagePool.page_pool_].
    erewrite Get_shared; [|done| |done].
    + cbn [mbind outcome_bind]. reflexivity.
    + cbn [PoolImpl.local_pools_]. by rewrite lookup_delete_ne.
  - eexists _, _. split.
    { unfold PagePool.RunInternal. by rewrite PagePool_ReleaseUpTo_eq. }
    cbn [PagePool.set_page_pool PagePool.page_pool_ PoolImpl.set_shared
         PoolImpl.shared_pool_ PoolImpl.local_pools_].
    split.
    + intros chunk Hentry. apply elem_of_app. left.
      apply list_elem_of_fmap_2, list_elem_of_omap. exists (Some chunk).
      split; [|done]. apply (elem_of_concat _ entries); [done|].
      apply list_elem_of_fmap. exists (time, entries).
      split; [done|]. apply list_elem_of_filter. split; [simpl; lia|].
      destruct entries as [|first entries]; [by apply elem_of_nil in Hentry|].
      cbn [empty]. apply elem_of_app. right. by left.
    + apply Forall_forall. by intros batch [Hlater _]%list_elem_of_filter.
Qed.

End PagePool_deferred.

(** ** The facade: admission checks, the clock and the last teardown *)

Section PagePool_lifecycle.
Context `{Config}.
Implicit Types (pool : PagePool.t) (isolate : Isolate) (group : list Isolate).

(** X15. A [Remove] right after an [Add] by the same isolate returns the
    page just admitted and restores the pool, whatever the shared list
    holds; likewise [RemoveZoneReservation] after [AddZoneReservation].
    The isolate is not null, the page is one [Add] accepts and the
    sub-pools hold no empty container. *)
Theorem Add_then_Remove_returns_it pool isolate chunk zone_reservation :
  PoolImpl.no_empty_container (PagePool.page_pool_ pool) →
  PoolImpl.no_empty_container (PagePool.zone_pool_ pool) →
  isolate ≠ nullptr →
  poolable chunk →
  (∃ pool1,
     PagePool.Add pool isolate (Some chunk) = Ok pool1 ∧
     PagePool.Remove pool1 isolate = Ok (Some chunk, pool)) ∧
  (∃ pool1,
     PagePool.AddZoneReservation pool isolate zone_reservation = Ok pool1 ∧
     PagePool.RemoveZoneReservation pool1 isolate
     = Ok (Some zone_reservation, pool)).
Proof.
  intros Hpages Hzones Hnull Hchunk. split.
  - eexists. split; [by apply Add_poolable|].
    unfold PagePool.Remove. rewrite DCHECK_NOT_NULL_ok by done.
    cbn [mbind outcome_bind PagePool.set_page_pool PagePool.page_pool_].
    rewrite Get_PutLocal by done. cbn [mbind outcome_bind]. by destruct pool.
  - eexists. split.
    { unfold PagePool.AddZoneReservation. by rewrite DCHECK_NOT_NULL_ok. }
    unfold PagePool.RemoveZoneReservation. rewrite DCHECK_NOT_NULL_ok by done.
    cbn [mbind outcome_bind PagePool.set_zone_pool PagePool.zone_pool_].
    rewrite Get_PutLocal by done. cbn [mbind outcome_bind]. by destruct pool.
Qed.

(** X16. What [Add] checks. In a build with DCHECKs, [Add] is fatal
    exactly when the isolate is null, or the chunk is null, or the chunk
    is not one of the pool's pages: wrong size, large, trusted,
    executable or still holding slots. In a build without them, [Add]
    checks nothing and pools whatever pointer it is given, the null
    pointer included. In either build, an [Add] that is not fatal has
    put the chunk at the back of the isolate's local vector and changed
    nothing else. *)
Theorem Add_checks_its_arguments pool isolate (chunk : PagePool.PageMemory) :
  (dcheck_is_on = true →
   (PagePool.Add pool isolate chunk = Fatal ↔
    isolate = nullptr ∨ chunk = None
    ∨ ∃ metadata, chunk = Some metadata ∧ ¬ poolable metadata)) ∧
  (dcheck_is_on = false →
   PagePool.Add pool isolate chunk
   = Ok (PagePool.set_page_pool
           (PoolImpl.PutLocal (PagePool.page_pool_ pool) isolate chunk) pool)) ∧
  (PagePool.Add pool isolate chunk ≠ Fatal →
   PagePool.Add pool isolate chunk
   = Ok (PagePool.set_page_pool
           (PoolImpl.PutLocal (PagePool.page_pool_ pool) isolate chunk) pool)).
Proof.
  assert (Hrelease : dcheck_is_on = false →
            PagePool.Add pool isolate chunk
            = Ok (PagePool.set_page_pool
                    (PoolImpl.PutLocal (PagePool.page_pool_ pool) isolate chunk)
                    pool)).
  { intros Hbuild. unfold PagePool.Add, DCHECK_NOT_NULL, DCHECK.
    by rewrite Hbuild. }
  assert (Hdebug : dcheck_is_on = true →
            (PagePool.Add pool isolate chunk = Fatal ↔
             isolate = nullptr ∨ chunk = None
             ∨ ∃ metadata, chunk = Some metadata ∧ ¬ poolable metadata)).
  { intros Hbuild. destruct (decide (isolate = nullptr)) as [->|Hnull].
    { split; [by left|]. intros _.
      unfold PagePool.Add, DCHECK_NOT_NULL, DCHECK. by rewrite Hbuild. }
    destruct chunk as [metadata|].
    - split.
      + intros Hfatal. right. right. exists metadata. split; [done|].
        intros Hchunk. by rewrite Add_poolable in Hfatal.
      + intros [?|[?|(other & [= <-] & Hnot)]]; [done..|].
        unfold PagePool.Add, PagePool.through.
        rewrite DCHECK_NOT_NULL_ok by done.
        unfold DCHECK, CHECK. rewrite Hbuild. cbn [mbind outcome_bind].
        destruct metadata as [address size large trusted executable slots].
        unfold poolable in Hnot. simpl in *.
        destruct (Z.eqb_spec size kPageSize); [|done].
        destruct large; [done|]. destruct trusted; [done|].
        destruct executable; [|done]. destruct slots; [done|].
        by destruct Hnot.
    - split; [by intros _; right; left|]. intros _.
      unfold PagePool.Add. rewrite DCHECK_NOT_NULL_ok by done.
      unfold DCHECK, CHECK. by rewrite Hbuild. }
  split_and!; [done..|].
  intros Hreturns. destruct dcheck_is_on eqn:Hbuild; [|by apply Hrelease].
  destruct chunk as [metadata|].
  - apply Add_poolable.
    + intros ->. apply Hreturns, Hdebug; [done|by left].
    + assert (Hcase : ¬ ¬ poolable metadata).
      { intros Hnot. apply Hreturns, Hdebug; [done|]. right. right.
        by exists metadata. }
      destruct metadata as [address size large trusted executable slots].
      unfold poolable in *. simpl in *.
      destruct (Z.eqb_spec size kPageSize);
        [|by destruct Hcase; intros (? & ? & ? & ? & ?)].
      destruct large; [by destruct Hcase; intros (? & ? & ? & ? & ?)|].
      destruct trusted; [by destruct Hcase; intros (? & ? & ? & ? & ?)|].
      destruct executable; [|by destruct Hcase; intros (? & ? & ? & ? & ?)].
      destruct slots; [by destruct Hcase; intros (? & ? & ? & ? & ?)|].
      done.
  - destruct Hreturns. apply Hdebug; [done|]. right. by left.
Qed.

Lemma tags_below_later {A} (tagged : list (InternalTime * A)) (now later : Z) :
  now ≤ later →
  Forall (λ entry, entry.1 < now) tagged →
  Forall (λ entry, entry.1 < later) tagged.
Proof.
  intros Hle Hbelow. eapply Forall_impl; [done|]. intros entry. simpl. lia.
Qed.

Lemma tags_below_migrated {A} (p : PoolImpl.t A) isolate (now later : Z) :
  now < later →
  Forall (λ entry, entry.1 < now) (PoolImpl.shared_pool_ p) →
  Forall (λ entry, entry.1 < later)
         (PoolImpl.shared_pool_ p ++ migrated_batch p isolate now).
Proof.
  intros Hlt Hbelow. apply Forall_app. split.
  - eapply tags_below_later; [|done]. lia.
  - unfold migrated_batch. destruct (_ !! _); [|done].
    by apply Forall_singleton.
Qed.

(** X17. The clock stays ahead of every tag. If every tag in the two
    shared lists and in the large-page pool is below the clock, and the
    clock is not at the end of its range, the same holds after
    [ReleaseOnTearDown] (with sharing enabled or not), after [AddLarge]
    and after [ReleaseUpTo]; the two stamping operations use the current
    clock value, which is therefore above every tag already in the pool,
    and the clock never moves back. *)
Theorem clock_stays_ahead_of_tags pool :
  tags_below_clock pool →
  0 ≤ PagePool.next_time_ pool →
  PagePool.next_time_ pool + 1 < size_t_modulus →
  (∀ group isolate,
     PoolImpl.no_empty_container (PagePool.page_pool_ pool) →
     PoolImpl.no_empty_container (PagePool.zone_pool_ pool) →
     ∃ effects pool',
       PagePool.ReleaseOnTearDown pool group isolate = Ok (effects, pool') ∧
       tags_below_clock pool' ∧
       PagePool.next_time_ pool ≤ PagePool.next_time_ pool') ∧
  (∀ isolate candidates,
     aggregate_ok (PagePool.large_pool_ pool) →
     ∃ effects rejected pool',
       PagePool.AddLarge pool isolate candidates = Ok (effects, rejected, pool') ∧
       tags_below_clock pool' ∧
       PagePool.next_time_ pool' = PagePool.next_time_ pool + 1) ∧
  (∀ isolate release_time,
     tags_below_clock (PagePool.ReleaseUpTo pool isolate release_time).2 ∧
     PagePool.next_time_ (PagePool.ReleaseUpTo pool isolate release_time).2
     = PagePool.next_time_ pool).
Proof.
  intros (Hpage_tags & Hzone_tags & Hlarge_tags) Hpos Hroom.
  assert (Hnext : wrap (PagePool.next_time_ pool + 1)
                  = PagePool.next_time_ pool + 1) by (apply wrap_small; lia).
  split_and!.
  - intros group isolate Hpages Hzones.
    destruct (memory_pool_share_memory_on_teardown v8_flags) eqn:Hflag.
    + pose proof (ReleaseOnTearDown_eq pool group isolate Hflag Hpages Hzones)
        as Heq. cbv zeta in Heq. rewrite Hnext in Heq.
      destruct (List.find _ group); eexists _, _; (split; [exact Heq|]);
        unfold tags_below_clock;
        cbn [PagePool.page_pool_ PagePool.zone_pool_ PagePool.large_pool_
             PagePool.next_time_ PoolImpl.shared_pool_ LargePagePoolImpl.pages_];
        split_and!; try done; try lia;
        by apply tags_below_migrated; [lia|].
    + eexists _, _. split.
      { unfold PagePool.ReleaseOnTearDown. rewrite Hflag. cbn [negb].
        by apply ReleaseImmediately_eq. }
      unfold tags_below_clock.
      cbn [PagePool.page_pool_ PagePool.zone_pool_ PagePool.large_pool_
           PagePool.next_time_ PoolImpl.shared_pool_ LargePagePoolImpl.pages_].
      by split_and!.
  - intros isolate candidates Hok.
    destruct (Add_spec (PagePool.large_pool_ pool) candidates
                (PagePool.next_time_ pool) Hok)
      as (admitted & rejected & large' & Heq & Hpages & _).
    eexists _, rejected, _. split.
    { unfold PagePool.AddLarge, PagePool.fetch_add_next_time.
      cbn [PagePool.large_pool_]. rewrite Heq. cbn [mbind outcome_bind].
      reflexivity. }
    unfold tags_below_clock.
    cbn [PagePool.set_large_pool PagePool.page_pool_ PagePool.zone_pool_
         PagePool.large_pool_ PagePool.next_time_].
    rewrite Hnext, Hpages. split_and!; [| | |done].
    + eapply tags_below_later; [|done]. lia.
    + eapply tags_below_later; [|done]. lia.
    + apply Forall_app. split; [eapply tags_below_later; [|done]; lia|].
      apply Forall_fmap, Forall_forall. intros page _. simpl. lia.
  - intros isolate release_time. rewrite PagePool_ReleaseUpTo_eq. cbv zeta.
    unfold tags_below_clock.
    cbn [snd PagePool.page_pool_ PagePool.zone_pool_ PagePool.large_pool_
         PagePool.next_time_ PoolImpl.shared_pool_].
    split_and!; try done.
    + apply Forall_forall. intros batch [_ Hin]%list_elem_of_filter.
      by eapply Forall_forall in Hpage_tags.
    + apply Forall_forall. intros batch [_ Hin]%list_elem_of_filter.
      by eapply Forall_forall in Hzone_tags.
Qed.

Lemma delete_only_key {A} (local : gmap N A) isolate :
  (∀ other, other ≠ isolate → local !! other = None) →
  delete isolate local = ∅.
Proof.
  intros Honly. apply map_empty. intros other.
  destruct (decide (other = isolate)) as [->|Hne].
  - apply lookup_delete_eq.
  - rewrite lookup_delete_ne by done. by apply Honly.
Qed.

(** X18. The last teardown. When no isolate other than the one tearing
    down holds local pages or zone reservations, and the group has no
    other isolate, [ReleaseOnTearDown] followed by [TearDown] of the
    whole pool returns in every build, with sharing enabled or not, and
    leaves a pool that holds nothing: both local maps and both shared
    lists are empty, the large-page pool is empty and the total count is
    0. *)
Theorem last_teardown_leaves_nothing pool group isolate :
  PoolImpl.no_empty_container (PagePool.page_pool_ pool) →
  PoolImpl.no_empty_container (PagePool.zone_pool_ pool) →
  (∀ other, other ∈ group → other = isolate) →
  (∀ other, other ≠ isolate →
     PoolImpl.local_pools_ (PagePool.page_pool_ pool) !! other = None) →
  (∀ other, other ≠ isolate →
     PoolImpl.local_pools_ (PagePool.zone_pool_ pool) !! other = None) →
  ∃ effects pool' effects' pool'',
    PagePool.ReleaseOnTearDown pool group isolate = Ok (effects, pool') ∧
    PagePool.TearDown pool' = Ok (effects', pool'') ∧
    PagePool.page_pool_ pool'' = PoolImpl.mk ∅ [] ∧
    PagePool.zone_pool_ pool'' = PoolImpl.mk ∅ [] ∧
    PagePool.large_pool_ pool'' = LargePagePoolImpl.mk [] 0 ∧
    PagePool.GetTotalCount pool'' = 0.
Proof.
  intros Hpages Hzones Hnone Honly_pages Honly_zones.
  apply delete_only_key in Honly_pages, Honly_zones.
  destruct (memory_pool_share_memory_on_teardown v8_flags) eqn:Hflag.
  - pose proof (ReleaseOnTearDown_eq pool group isolate Hflag Hpages Hzones)
      as Heq. cbv zeta in Heq.
    rewrite (find_peer_none _ _ Hnone), Honly_pages, Honly_zones in Heq.
    eexists _, _, _, _. split; [exact Heq|].
    unfold PagePool.TearDown. cbn [PagePool.page_pool_].
    rewrite PoolImpl_TearDown_empty by done.
    cbn [mbind outcome_bind PagePool.set_page_pool PagePool.zone_pool_].
    rewrite PoolImpl_TearDown_empty by done.
    cbn [mbind outcome_bind PagePool.set_zone_pool PagePool.large_pool_].
    by split_and!.
  - eexists _, _, _, _. split.
    { unfold PagePool.ReleaseOnTearDown. rewrite Hflag. cbn [negb].
      rewrite ReleaseImmediately_eq by done.
      by rewrite Honly_pages, Honly_zones. }
    unfold PagePool.TearDown. cbn [PagePool.page_pool_].
    rewrite PoolImpl_TearDown_empty by done.
    cbn [mbind outcome_bind PagePool.set_page_pool PagePool.zone_pool_].
    rewrite PoolImpl_TearDown_empty by done.
    cbn [mbind outcome_bind PagePool.set_zone_pool PagePool.large_pool_].
    by split_and!.
Qed.

End PagePool_lifecycle.

(** ** Instances of the further facts *)

Local Ltac example_invariant :=
  split; [first [by apply map_Forall_singleton | apply map_Forall_empty]
         | by repeat constructor].

Lemma Get_takes_one_entry_witness :
  ∃ result p',
    PoolImpl.Get (H:=debug_build) example_PoolImpl 1%N = Ok (result, p') ∧
    (is_Some result →
     PoolImpl.Size example_PoolImpl = wrap (PoolImpl.Size p' + 1)).
Proof.
  destruct (Get_takes_one_entry (H:=debug_build) example_PoolImpl 1%N)
    as (result & p' & Heq & _ & _ & Hsize & _).
  - example_invariant.
  - discriminate.
  - by exists result, p'.
Defined.

Lemma MoveLocalToShared_conserves_entries_witness :
  ∃ populated p',
    PoolImpl.MoveLocalToShared (H:=debug_build) example_PoolImpl 1%N 9
    = Ok (populated, p') ∧
    PoolImpl.Size p' = PoolImpl.Size example_PoolImpl.
Proof.
  destruct (MoveLocalToShared_conserves_entries (H:=debug_build)
              example_PoolImpl 1%N 9)
    as (populated & p' & Heq & _ & Hsize & _).
  - example_invariant.
  - by exists populated, p'.
Defined.

Lemma ReleaseLocal_releases_one_owner_witness :
  ∃ p',
    PoolImpl.ReleaseLocal (H:=debug_build) example_PoolImpl 1%N
    = Ok ([10%nat; 11%nat], p') ∧
    PoolImpl.ReleaseLocal (H:=debug_build) p' 1%N = Ok ([], p').
Proof.
  destruct (ReleaseLocal_releases_one_owner (H:=debug_build)
              example_PoolImpl 1%N)
    as (p' & Heq & _ & _ & _ & _ & _ & Hagain).
  - example_invariant.
  - by exists p'.
Defined.

Lemma ReleaseUpTo_in_two_steps_witness :
  (PoolImpl.ReleaseUpTo (PoolImpl.ReleaseUpTo example_PoolImpl 1).2 5).2
  = (PoolImpl.ReleaseUpTo example_PoolImpl 5).2.
Proof.
  destruct (ReleaseUpTo_in_two_steps example_PoolImpl 1 5) as [Hsame _].
  - lia.
  - exact Hsame.
Defined.

Lemma ReleaseUpTo_all_or_nothing_witness :
  PoolImpl.ReleaseUpTo example_PoolImpl 3 = (0, [], example_PoolImpl).
Proof.
  destruct (ReleaseUpTo_all_or_nothing example_PoolImpl 3) as [_ Hnothing].
  apply Hnothing. intros batch Hin.
  apply list_elem_of_singleton in Hin as ->. simpl. lia.
Defined.

Lemma large_pool_stays_within_budget_witness :
  ∃ result pool',
    LargePagePoolImpl.Remove (H:=debug_build)
      (PagePool.large_pool_ example_PagePool) 50 = Ok (result, pool') ∧
    large_pool_exact (H:=debug_build) pool' ∧
    LargePagePoolImpl.total_size_ pool' ≤ 100.
Proof.
  destruct (large_pool_stays_within_budget (H:=debug_build)
              (PagePool.large_pool_ example_PagePool))
    as (_ & Hremove & _).
  - split_and!; [by repeat constructor|done|by vm_compute].
  - apply Hremove.
Defined.

Lemma Add_admits_all_or_none_witness :
  LargePagePoolImpl.Add (H:=debug_build) (PagePool.large_pool_ example_PagePool)
    [LargePageMetadata.mk 2097152 200; LargePageMetadata.mk 3145728 300] 6
  = Ok (true, [],
        LargePagePoolImpl.mk
          [(2, LargePageMetadata.mk 1048576 100);
           (6, LargePageMetadata.mk 2097152 200);
           (6, LargePageMetadata.mk 3145728 300)] 600).
Proof.
  destruct (Add_admits_all_or_none (H:=debug_build)
              (PagePool.large_pool_ example_PagePool)
              [LargePageMetadata.mk 2097152 200; LargePageMetadata.mk 3145728 300]
              6) as [Hall _].
  - split_and!; [by repeat constructor|done|by vm_compute].
  - repeat constructor; by vm_compute.
  - apply Hall. by vm_compute.
Defined.

Lemma Add_then_Remove_witness :
  ∃ pool1 page' pool2,
    LargePagePoolImpl.Add (H:=debug_build)
      (PagePool.large_pool_ example_PagePool)
      [LargePageMetadata.mk 2097152 200] 6 = Ok (true, [], pool1) ∧
    LargePagePoolImpl.Remove (H:=debug_build) pool1 200 = Ok (Some page', pool2) ∧
    LargePageMetadata.size page' = 200.
Proof.
  destruct (Add_then_Remove (H:=debug_build)
              (PagePool.large_pool_ example_PagePool)
              (LargePageMetadata.mk 2097152 200) 6)
    as (pool1 & page' & pool2 & Hadd & Hremove & Hsize & _).
  - reflexivity.
  - by vm_compute.
  - by exists pool1, page', pool2.
Defined.

Lemma ReleaseOnTearDown_without_sharing_witness :
  let pool :=
    {| PagePool.page_pool_ :=
         PoolImpl.mk {[ 1%N := [Some (example_page 4096); None;
                                Some (example_page 8192)] ]}
                     [(2, [Some (example_page 12288)])];
       PagePool.zone_pool_ :=
         PoolImpl.mk {[ 1%N := [VirtualMemory.mk 65536 4096] ]}
                     [(3, [VirtualMemory.mk 131072 4096])];
       PagePool.large_pool_ :=
         LargePagePoolImpl.mk [(2, LargePageMetadata.mk 1048576 100)] 100;
       PagePool.next_time_ := 5 |} in
  ∃ pool',
    PagePool.ReleaseOnTearDown (H:=no_sharing_build) pool [1%N; 2%N] 1%N
    = Ok ([PagePool.DeletePage (example_page 4096);
           PagePool.DeletePage (example_page 8192);
           PagePool.FreeReservation (VirtualMemory.mk 65536 4096);
           PagePool.DeleteLargePage (LargePageMetadata.mk 1048576 100)],
          pool') ∧
    PagePool.GetCount pool' 1%N = 0 ∧
    PagePool.GetSharedCount pool' = 1 ∧
    ∃ pool1',
      PagePool.Remove (H:=no_sharing_build) pool' 2%N
      = Ok (Some (example_page 12288), pool1').
Proof.
  intros pool.
  destruct (ReleaseOnTearDown_without_sharing (H:=no_sharing_build)
              pool [1%N; 2%N] 1%N)
    as (effects & pool' & Heq & _ & Heffects & _ & _ & _ & _ & Hcount
        & Hshared & Hpeer).
  - reflexivity.
  - split; [by apply map_Forall_singleton|by repeat constructor].
  - split; [by apply map_Forall_singleton|by repeat constructor].
  - exists pool'. rewrite Heq, Heffects. split_and!; [done|done|by rewrite Hshared|].
    destruct (Hpeer 2%N) as [_ Hremove]; [done|].
    by apply (Hremove (Some (example_page 12288))
                (PagePool.set_page_pool
                   (PoolImpl.mk {[ 1%N := [Some (example_page 4096); None;
                                           Some (example_page 8192)] ]} [])
                   pool)).
Defined.

Lemma AddLarge_posts_its_release_witness :
  ∃ admitted rejected pool',
    PagePool.AddLarge (H:=debug_build) example_PagePool 1%N
      [LargePageMetadata.mk 2097152 200]
    = Ok (if negb (empty admitted) && (3 >? 0)
          then [PagePool.PostDelayedTaskOnWorkerThread
                  (PagePool.ReleasePooledLargeChunksTask 1%N 5) 3]
          else [],
          rejected, pool') ∧
    [LargePageMetadata.mk 2097152 200] ≡ₚ admitted ++ rejected.
Proof.
  destruct (AddLarge_posts_its_release (H:=debug_build) example_PagePool 1%N
              [LargePageMetadata.mk 2097152 200])
    as (admitted & rejected & pool' & Heq & Hperm & _).
  - reflexivity.
  - by exists admitted, rejected, pool'.
Defined.

Lemma PagePool_ReleaseUpTo_releases_shared_only_witness :
  let pool :=
    {| PagePool.page_pool_ :=
         PoolImpl.mk {[ 1%N := [Some (example_page 4096)] ]}
                     [(2, [Some (example_page 8192); Some (example_page 12288)]);
                      (4, [Some (example_page 16384)])];
       PagePool.zone_pool_ :=
         PoolImpl.mk ∅ [(3, [VirtualMemory.mk 131072 4096])];
       PagePool.large_pool_ := LargePagePoolImpl.mk [] 0;
       PagePool.next_time_ := 5 |} in
  ∃ pool',
    PagePool.ReleaseUpTo (H:=no_sharing_build) pool 1%N 3
    = ([PagePool.DeletePage (example_page 8192);
        PagePool.DeletePage (example_page 12288);
        PagePool.FreeReservation (VirtualMemory.mk 131072 4096);
        PagePool.PrintWithTimestamp 1%N 2 1],
       pool') ∧
    PoolImpl.shared_pool_ (PagePool.page_pool_ pool')
    = [(4, [Some (example_page 16384)])].
Proof.
  intros pool.
  destruct (PagePool_ReleaseUpTo_releases_shared_only (H:=no_sharing_build)
              pool 1%N 3)
    as (page_releases & zone_releases & pool' & Heq & Hpages & _ & _ & Hzones
        & Hshared & _).
  exists pool'. rewrite Heq, Hpages, Hzones, Hshared. by split.
Defined.

Lemma peer_reuses_migrated_page_witness :
  ∃ target_isolate pool' pool'',
    PagePool.ReleaseOnTearDown (H:=debug_build) example_PagePool [1%N; 2%N] 1%N
    = Ok (PagePool.PostDelayedTask target_isolate
            (PagePool.ReleasePooledChunksTask target_isolate 5) 8
          :: [PagePool.DeleteLargePage (LargePageMetadata.mk 1048576 100)],
          pool') ∧
    PagePool.Remove (H:=debug_build) pool' 2%N
    = Ok (Some (example_page 8192), pool'').
Proof.
  destruct (peer_reuses_migrated_page (H:=debug_build) example_PagePool
              [1%N; 2%N] 1%N 2%N [Some (example_page 4096)] (example_page 8192))
    as (target & pool' & pool'' & _ & _ & Heq & _ & Hremove & _).
  - reflexivity.
  - example_invariant.
  - example_invariant.
  - reflexivity.
  - right. by left.
  - discriminate.
  - discriminate.
  - reflexivity.
  - by exists target, pool', pool''.
Defined.

Lemma Add_then_Remove_returns_it_witness :
  ∃ pool1,
    PagePool.Add (H:=debug_build) example_PagePool 2%N
      (Some (example_page 12288))
    = Ok pool1 ∧
    PagePool.Remove (H:=debug_build) pool1 2%N
    = Ok (Some (example_page 12288), example_PagePool).
Proof.
  destruct (Add_then_Remove_returns_it (H:=debug_build) example_PagePool 2%N
              (example_page 12288) (VirtualMemory.mk 65536 4096))
    as [Hpage _].
  - example_invariant.
  - example_invariant.
  - discriminate.
  - by repeat split.
  - exact Hpage.
Defined.

Lemma Add_checks_its_arguments_witness :
  PagePool.Add (H:=debug_build) example_PagePool 2%N None = Fatal ∧
  PagePool.Add (H:=debug_build) example_PagePool 2%N
    (Some (MutablePageMetadata.mk 16384 262144 true false NOT_EXECUTABLE false))
  = Fatal ∧
  PagePool.Add (H:=release_build) example_PagePool 2%N None
  = Ok (PagePool.set_page_pool
          (PoolImpl.PutLocal (PagePool.page_pool_ example_PagePool) 2%N None)
          example_PagePool).
Proof.
  split_and!.
  - destruct (Add_checks_its_arguments (H:=debug_build) example_PagePool 2%N
                None) as [Hdebug _].
    apply Hdebug; [reflexivity|]. right. by left.
  - destruct (Add_checks_its_arguments (H:=debug_build) example_PagePool 2%N
                (Some (MutablePageMetadata.mk 16384 262144 true false
                         NOT_EXECUTABLE false)))
      as [Hdebug _].
    apply Hdebug; [reflexivity|]. right. right. eexists. split; [done|].
    intros (_ & Hlarge & _). discriminate.
  - destruct (Add_checks_its_arguments (H:=release_build) example_PagePool 2%N
                None) as (_ & Hrelease & _).
    by apply Hrelease.
Defined.

Lemma clock_stays_ahead_of_tags_witness :
  ∃ effects rejected pool',
    PagePool.AddLarge (H:=debug_build) example_PagePool 1%N
      [LargePageMetadata.mk 2097152 200] = Ok (effects, rejected, pool') ∧
    tags_below_clock pool' ∧
    PagePool.next_time_ pool' = 5 + 1.
Proof.
  destruct (clock_stays_ahead_of_tags (H:=debug_build) example_PagePool)
    as (_ & Hadd & _).
  - split_and!; by repeat constructor.
  - by vm_compute.
  - by vm_compute.
  - apply Hadd. reflexivity.
Defined.

Lemma last_teardown_leaves_nothing_witness :
  ∃ effects pool' effects' pool'',
    PagePool.ReleaseOnTearDown (H:=debug_build) example_PagePool [1%N] 1%N
    = Ok (effects, pool') ∧
    PagePool.TearDown (H:=debug_build) pool' = Ok (effects', pool'') ∧
    PagePool.GetTotalCount pool'' = 0.
Proof.
  destruct (last_teardown_leaves_nothing (H:=debug_build) example_PagePool
              [1%N] 1%N)
    as (effects & pool' & effects' & pool'' & Hrelease & Hteardown & _ & _ & _
        & Hcount).
  - example_invariant.
  - example_invariant.
  - intros other Hin. by apply list_elem_of_singleton in Hin.
  - intros other Hne. by apply lookup_singleton_ne.
  - intros other Hne. apply lookup_empty.
  - by exists effects, pool', effects', pool''.
Defined.
